(** * Course catalogue: validated parsing and the chained hash table

    The repository holds two variants of one program:
    - [src/ProjectTwoUniversal.cpp], whose table links its nodes with raw
      pointers ([DataNode*]); it is embedded in [Module Universal];
    - [src/unnamed/part_000], whose table owns its nodes through
      [std::unique_ptr]; it is embedded in [Module Owned].
    The classes [Course] and [CourseBuilder] are word for word the same in
    both files and are embedded once. *)

From Stdlib Require Import ZArith Lia Ascii String.
From stdpp Require Import base numbers list strings sorting.

Local Open Scope Z_scope.

(** ** Characters and [<cctype>]

    A [char] is a byte.  The program never calls [setlocale], so the
    classification functions are those of the "C" locale. *)

Definition code (c : ascii) : Z := Z.of_N (N_of_ascii c).

Definition isalpha (c : ascii) : bool :=
  ((65 <=? code c) && (code c <=? 90)) || ((97 <=? code c) && (code c <=? 122)).

Definition isdigit (c : ascii) : bool :=
  (48 <=? code c) && (code c <=? 57).

Definition isspace (c : ascii) : bool :=
  (code c =? 32) || ((9 <=? code c) && (code c <=? 13)).

Definition ch_dquote : ascii := ascii_of_nat 34.
Definition ch_squote : ascii := ascii_of_nat 39.
Definition ch_newline : ascii := ascii_of_nat 10.
Definition ch_return : ascii := ascii_of_nat 13.
Definition ch_tab : ascii := ascii_of_nat 9.
Definition ch_nul : ascii := ascii_of_nat 0.

(** [s[i]]: the byte at index [i]; [s[s.size()]] is the terminating NUL. *)
Definition char_at (s : string) (i : nat) : ascii :=
  match String.get i s with
  | Some c => c
  | None => ch_nul
  end.

Definition empty (s : string) : bool :=
  match s with
  | EmptyString => true
  | String _ _ => false
  end.

(** [s += c] *)
Definition push_char (s : string) (c : ascii) : string :=
  String.append s (String c EmptyString).

(** A range-based [for (char c : s)] loop that updates an accumulator. *)
Fixpoint for_chars {A : Type} (body : A -> ascii -> A) (s : string) (acc : A) : A :=
  match s with
  | EmptyString => acc
  | String c rest => for_chars body rest (body acc c)
  end.

(** ** [class Course] *)

Record Course : Type := mkCourse {
  getName : string;
  getTitle : string;
  getPrerequisites : list string
}.

(** ** [class CourseBuilder] *)

Module CourseBuilder.

(** [courseNameValidator]: the schema ABCD123. *)
Definition courseNameValidator (courseName : string) : bool :=
  if empty courseName then false
  else if (String.length courseName =? 7)%nat then
    if negb (forallb (fun i => isalpha (char_at courseName i)) (seq 0 4)) then false
    else if negb (forallb (fun i => isdigit (char_at courseName i)) (seq 4 3)) then false
    else true
  else false.

(** [courseDataValidator]: not empty, no newline, carriage return or tab.
    The loop returns [false] at the first such byte. *)
Fixpoint no_escape (data : string) : bool :=
  match data with
  | EmptyString => true
  | String c rest =>
      if Ascii.eqb c ch_newline || Ascii.eqb c ch_return || Ascii.eqb c ch_tab
      then false
      else no_escape rest
  end.

Definition courseDataValidator (data : string) : bool :=
  if empty data then false else no_escape data.

(** [trim]: the two index loops.  Each runs at most [input.length()]
    times, which is the fuel given to it. *)
Fixpoint trim_start (fuel : nat) (input : string) (start : nat) : nat :=
  match fuel with
  | O => start
  | S fuel' =>
      if (start <? String.length input)%nat && isspace (char_at input start)
      then trim_start fuel' input (S start)
      else start
  end.

Fixpoint trim_end (fuel : nat) (input : string) (start last : nat) : nat :=
  match fuel with
  | O => last
  | S fuel' =>
      if (start <=? last)%nat && isspace (char_at input last)
      then trim_end fuel' input start (last - 1)%nat
      else last
  end.

Definition trim (input : string) : string :=
  if empty input then input
  else
    let start := trim_start (String.length input) input 0%nat in
    if (start =? String.length input)%nat then EmptyString
    else
      let last := trim_end (String.length input) input start
                           (String.length input - 1)%nat in
      String.substring start (last - start + 1)%nat input.

(** [filter]: drop quotation marks and escape characters. *)
Definition filter_step (output : string) (c : ascii) : string :=
  if negb (Ascii.eqb c ch_dquote) && negb (Ascii.eqb c ch_squote)
     && negb (Ascii.eqb c ch_newline) && negb (Ascii.eqb c ch_return)
     && negb (Ascii.eqb c ch_tab)
  then push_char output c
  else output.

Definition filter (input : string) : string :=
  if empty input then EmptyString
  else for_chars filter_step input EmptyString.

(** The loop [for (i = 2; i < courseData.size(); ++i)] collecting the
    prerequisites; [n] counts the iterations left. *)
Fixpoint collect_prereq (n : nat) (courseData : list string) (i : nat)
                        (coursePrereq : list string) : list string :=
  match n with
  | O => coursePrereq
  | S n' =>
      let tempCourse := nth i courseData EmptyString in
      collect_prereq n' courseData (S i)
        (if courseNameValidator tempCourse
         then coursePrereq ++ [tempCourse]
         else coursePrereq)
  end.

(** [builder]; [None] is the null pointer. *)
Definition builder (input : list string) : option Course :=
  if bool_decide (input = []) then None
  else
    let courseData :=
      fold_left (fun acc item => acc ++ [trim (filter item)]) input [] in
    if (length courseData <? 2)%nat then None
    else if negb (courseNameValidator (nth 0 courseData EmptyString)) then None
    else if negb (courseDataValidator (nth 1 courseData EmptyString)) then None
    else
      let coursePrereq :=
        if (2 <? length courseData)%nat
        then collect_prereq (length courseData - 2) courseData 2 []
        else [] in
      Some (mkCourse (nth 0 courseData EmptyString)
                     (nth 1 courseData EmptyString)
                     coursePrereq).

End CourseBuilder.

(** ** [size_t] and the hash function

    [size_t] is a 64-bit unsigned integer; arithmetic on it wraps. *)

Definition wrap64 (x : Z) : Z := x mod 2 ^ 64.

(** [static_cast<size_t>(c)]: [char] is signed on the x86-64 targets the
    program is written for, so a byte of 128 and up is first a negative
    number.  For ASCII bytes the signedness makes no difference. *)
Definition size_t_of_char (c : ascii) : Z :=
  if code c <? 128 then code c else wrap64 (code c - 256).

(** [DataStructure::hash], the same text in both files; [capacity] is the
    member it reads. *)
Definition hash (capacity : Z) (key : string) : Z :=
  for_chars
    (fun hashValue c => wrap64 (hashValue * 31 + size_t_of_char c) mod capacity)
    key 0.

(** ** [class LineParser]: the part common to both files *)

Definition is_quote (c : ascii) : bool :=
  Ascii.eqb c ch_dquote || Ascii.eqb c ch_squote.

(** [start = index + 1]: step over the byte at [index].  The position in
    the line is kept as the text from that position on; past the end there
    is nothing left. *)
Definition step_over (from_index : string) : string :=
  match from_index with
  | EmptyString => EmptyString
  | String _ rest => rest
  end.

(** [while (start < length && input[start] == delimiter[0]) ++start;] *)
Fixpoint skip_delims (d : ascii) (from_start : string) : string :=
  match from_start with
  | EmptyString => EmptyString
  | String c rest =>
      if Ascii.eqb c d then skip_delims d rest else from_start
  end.


(** ** How a call can end *)

Inductive outcome (A : Type) : Type :=
| Ret (a : A)   (** the call returns *)
| Throws        (** an exception leaves the call *)
| Undefined     (** undefined behaviour: a dangling, null or out-of-range access *)
| Timeout.      (** the loop did not finish within the fuel it was given *)
Arguments Ret {A} a.
Arguments Throws {A}.
Arguments Undefined {A}.
Arguments Timeout {A}.

(** Sequencing: the rest of the call runs only if the first part returns. *)
Definition bind {A B : Type} (m : outcome A) (f : A -> outcome B) : outcome B :=
  match m with
  | Ret a => f a
  | Throws => Throws
  | Undefined => Undefined
  | Timeout => Timeout
  end.

Notation "x <- m ; k" := (bind m (fun x => k))
  (at level 20, m at level 100, k at level 200, only parsing).
Notation "' pat <- m ; k" := (bind m (fun x => let 'pat := x in k))
  (at level 20, pat pattern, m at level 100, k at level 200, only parsing).

(** A counted loop [for (i = start; i < start + n; ++i)] over a state. *)
Fixpoint for_range {St : Type} (n : nat) (start : nat)
                   (body : nat -> St -> outcome St) (s : St) : outcome St :=
  match n with
  | O => Ret s
  | S n' => s' <- body start s; for_range n' (S start) body s'
  end.

(** ** [std::vector]

    [v.resize(n, fill)] keeps the first [n] elements of [v] and appends
    copies of [fill] up to size [n].  A request for more than [max_buckets]
    slots cannot be met (2^44 pointers of 8 bytes are the whole 2^47-byte
    address space a process has on x86-64) and ends in [std::length_error]
    or [std::bad_alloc]; smaller requests are taken to succeed. *)
Definition max_buckets : Z := 2 ^ 44.

Definition vector_resize {A : Type} (v : list A) (n : Z) (fill : A) : outcome (list A) :=
  if max_buckets <? n then Throws
  else Ret (take (Z.to_nat n) v ++ replicate (Z.to_nat n - length v) fill).

(** [v.push_back(x)]: a vector that already has [max_buckets] elements
    cannot grow, and the call ends in the same exception. *)
Definition vector_push_back {A : Type} (v : list A) (x : A) : outcome (list A) :=
  if max_buckets <=? Z.of_nat (length v) then Throws else Ret (v ++ [x]).

(** [v[i]] for reading; an index past the end is undefined behaviour. *)
Definition vector_at {A : Type} (v : list A) (i : Z) : outcome A :=
  match v !! Z.to_nat i with
  | Some x => Ret x
  | None => Undefined
  end.

(** [v[i] = x] *)
Definition vector_set {A : Type} (v : list A) (i : Z) (x : A) : outcome (list A) :=
  if (Z.to_nat i <? length v)%nat then Ret (<[Z.to_nat i := x]> v) else Undefined.

(** [(double)size / capacity > LOAD_FACTOR_THRESHOLD] with the threshold
    0.75.  Both operands are below 2^64 and [capacity] is at most 2^44, so
    the rounding of the conversion and of the division cannot move the
    quotient across 0.75, and the test is that of the exact quotient. *)
Definition load_exceeds (size capacity : Z) : bool := 3 * capacity <? 4 * size.

(** [std::sort] with the comparison [a->getName() < b->getName()], the
    byte-wise order of [std::string].  The order [std::sort] leaves between
    two courses of one name is unspecified; this model keeps them in the
    order of the input. *)
Definition name_lt (a b : Course) : bool := String.ltb (getName a) (getName b).

Fixpoint sorted_insert (c : Course) (l : list Course) : list Course :=
  match l with
  | [] => [c]
  | x :: rest => if name_lt x c then x :: sorted_insert c rest else c :: l
  end.

Definition std_sort (l : list Course) : list Course :=
  fold_right sorted_insert [] l.

Module Universal.

Module LineParser.

(** The inner loop of [split] in ProjectTwoUniversal.cpp: advance
    [index] to the next delimiter.  Returns [input.substr(start,
    index - start)] and the text from [index] on. *)
Fixpoint scan_field (d : ascii) (from_index : string) (substring : string)
  : string * string :=
  match from_index with
  | EmptyString => (substring, EmptyString)
  | String c rest =>
      if negb (Ascii.eqb c d)
      then scan_field d rest (push_char substring c)
      else (substring, from_index)
  end.

(** The outer loop [while (start < length)].  Every round moves [start]
    forward, so [input.length()] rounds are enough. *)
Fixpoint split_loop (fuel : nat) (d : ascii) (from_start : string)
                    (result : list string) : list string :=
  match fuel with
  | O => result
  | S fuel' =>
      match from_start with
      | EmptyString => result
      | String _ _ =>
          let '(substring, from_index) := scan_field d from_start EmptyString in
          split_loop fuel' d (skip_delims d (step_over from_index))
                     (result ++ [substring])
      end
  end.

Definition split (input delimiter : string) : list string :=
  if empty input then []
  else split_loop (String.length input) (char_at delimiter 0) input [].

(** [parse]: the course of a line, or [None] for the null pointer; the
    diagnostics it prints are left out. *)
Definition parse (input delimiter : string) : option Course :=
  let parts := split input delimiter in
  if (length parts <? 2)%nat then None
  else CourseBuilder.builder parts.

End LineParser.

(** *** [class DataStructure] of ProjectTwoUniversal.cpp

    The member [buckets] is declared as a vector of [std::unique_ptr],
    but every statement that touches it reads and writes plain
    [DataNode*] values, copies them and deletes them by hand; the model
    follows the statements.  Nodes live in a free store: cell [a] holds
    the node allocated at address [a], and [None] once it has been
    deleted.  A pointer is an address, or [None] for null. *)
Definition addr : Type := nat.

Record DataNode : Type := mkNode {
  course : Course;
  nextNode : option addr
}.

Record DataStructure : Type := mkTable {
  heap : list (option DataNode);
  buckets : list (option addr);
  capacity : Z;
  size : Z;
  sortedCourses : list Course
}.

Definition set_heap (t : DataStructure) (h : list (option DataNode)) : DataStructure :=
  mkTable h (buckets t) (capacity t) (size t) (sortedCourses t).
Definition set_buckets (t : DataStructure) (bs : list (option addr)) : DataStructure :=
  mkTable (heap t) bs (capacity t) (size t) (sortedCourses t).
Definition set_capacity (t : DataStructure) (n : Z) : DataStructure :=
  mkTable (heap t) (buckets t) n (size t) (sortedCourses t).
Definition set_size (t : DataStructure) (n : Z) : DataStructure :=
  mkTable (heap t) (buckets t) (capacity t) n (sortedCourses t).
Definition set_sortedCourses (t : DataStructure) (l : list Course) : DataStructure :=
  mkTable (heap t) (buckets t) (capacity t) (size t) l.

(** [*p] for a node pointer: the node must be alive. *)
Definition deref (h : list (option DataNode)) (a : addr) : outcome DataNode :=
  match h !! a with
  | Some (Some n) => Ret n
  | _ => Undefined
  end.

(** [new DataNode(c)] with [nextNode] set right after: a fresh address. *)
Definition alloc (h : list (option DataNode)) (n : DataNode)
  : list (option DataNode) * addr :=
  (h ++ [Some n], length h).

(** [DataStructure()] *)
Definition new_table : outcome DataStructure :=
  bs <- vector_resize [] 1024 None;
  Ret (mkTable [] bs 1024 0 []).

(** [DataStructure(size_t cap)] *)
Definition new_table_with (cap : Z) : outcome DataStructure :=
  let capacity := if 16 <? cap then cap else 16 in
  bs <- vector_resize [] capacity None;
  Ret (mkTable [] bs capacity 0 []).

(** The loop [while (currentNode != nullptr)] that looks for a name along
    a chain; [insert], [inject] and [get] all have it.  The node found, or
    [None] at the end of the chain. *)
Fixpoint chain_find (fuel : nat) (h : list (option DataNode))
                    (currentNode : option addr) (key : string)
  : outcome (option DataNode) :=
  match fuel with
  | O => Timeout
  | S fuel' =>
      match currentNode with
      | None => Ret None
      | Some a =>
          n <- deref h a;
          if String.eqb (getName (course n)) key then Ret (Some n)
          else chain_find fuel' h (nextNode n) key
      end
  end.

(** The inner loop of [resize]: relink every node of one old chain at
    the head of its new bucket. *)
Fixpoint rehash_chain (fuel : nat) (capacity : Z) (currentNode : option addr)
                      (h : list (option DataNode)) (bs : list (option addr))
  : outcome (list (option DataNode) * list (option addr)) :=
  match fuel with
  | O => Timeout
  | S fuel' =>
      match currentNode with
      | None => Ret (h, bs)
      | Some a =>
          n <- deref h a;
          let next := nextNode n in
          let newIndex := hash capacity (getName (course n)) in
          new_head <- vector_at bs newIndex;
          let h' := <[a := Some (mkNode (course n) new_head)]> h in
          bs' <- vector_set bs newIndex (Some a);
          rehash_chain fuel' capacity next h' bs'
      end
  end.

(** [resize].  [buckets.resize(capacity, nullptr)] keeps the pointers the
    vector already holds and appends nulls. *)
Definition resize (fuel : nat) (t : DataStructure) : outcome DataStructure :=
  let oldCapacity := capacity t in
  let oldBuckets := buckets t in
  let capacity' := wrap64 (capacity t * 2) in
  grown <- vector_resize (buckets t) capacity' None;
  '(h, bs) <- for_range (Z.to_nat oldCapacity) 0
        (fun index '(h, bs) =>
           currentNode <- vector_at oldBuckets (Z.of_nat index);
           rehash_chain fuel capacity' currentNode h bs)
        (heap t, grown);
  Ret (set_buckets (set_heap (set_capacity t capacity') h) bs).

(** [insert]; [None] is the null pointer.  The second component is what
    the call prints. *)
Definition insert (fuel : nat) (t : DataStructure) (c : option Course)
  : outcome (DataStructure * list string) :=
  match c with
  | None => Ret (t, ["Unable to insert empty course!"])
  | Some c =>
      let key := getName c in
      let index := hash (capacity t) key in
      head <- vector_at (buckets t) index;
      found <- chain_find fuel (heap t) head key;
      match found with
      | Some _ => Ret (t, [String.append "Duplicate course: " key])
      | None =>
          let '(h, newNode) := alloc (heap t) (mkNode c head) in
          bs <- vector_set (buckets t) index (Some newNode);
          let t1 := set_size (set_buckets (set_heap t h) bs) (wrap64 (size t + 1)) in
          t2 <- (if load_exceeds (size t1) (capacity t1) then resize fuel t1 else Ret t1);
          Ret (t2, [])
      end
  end.

(** The inner loop of [destroy]: delete the nodes of one chain. *)
Fixpoint destroy_chain (fuel : nat) (currentNode : option addr)
                       (h : list (option DataNode))
  : outcome (list (option DataNode)) :=
  match fuel with
  | O => Timeout
  | S fuel' =>
      match currentNode with
      | None => Ret h
      | Some a =>
          n <- deref h a;
          destroy_chain fuel' (nextNode n) (<[a := None]> h)
      end
  end.

(** [destroy]: the nodes are deleted; the bucket pointers are left as
    they are. *)
Definition destroy (fuel : nat) (t : DataStructure) : outcome DataStructure :=
  h <- for_range (Z.to_nat (capacity t)) 0
        (fun index h =>
           currentNode <- vector_at (buckets t) (Z.of_nat index);
           destroy_chain fuel currentNode h)
        (heap t);
  Ret (set_sortedCourses (set_size (set_heap t h) 0) []).

(** The loop of [inject] over the new courses.  The statement
    [new DataNode(std::unique_ptr<Course>)] is read as
    [new DataNode(course)]. *)
Fixpoint inject_loop (fuel : nat) (capacity : Z) (newCourses : list (option Course))
                     (h : list (option DataNode)) (bs : list (option addr))
                     (out : list string)
  : outcome (list (option DataNode) * list (option addr) * list string) :=
  match newCourses with
  | [] => Ret (h, bs, out)
  | None :: rest =>
      inject_loop fuel capacity rest h bs (out ++ ["Skipping null course."])
  | Some c :: rest =>
      let key := getName c in
      let index := hash capacity key in
      head <- vector_at bs index;
      found <- chain_find fuel h head key;
      match found with
      | Some _ =>
          inject_loop fuel capacity rest h bs
            (out ++ [String.append (String.append "Duplicate course: " key) " ; skipping"])
      | None =>
          let '(h', newNode) := alloc h (mkNode c head) in
          bs' <- vector_set bs index (Some newNode);
          inject_loop fuel capacity rest h' bs' out
      end
  end.

Definition inject (fuel : nat) (t : DataStructure) (newCourses : list (option Course))
  : outcome (DataStructure * list string) :=
  match newCourses with
  | [] => Ret (t, ["Warning: Empty or null course list. No change made."])
  | _ :: _ =>
      t1 <- destroy fuel t;
      let count := Z.of_nat (length newCourses) in
      let capacity' := if 1024 <? count then wrap64 (count * 2) else 1024 in
      bs <- vector_resize (buckets t1) capacity' None;
      '(h, bs', out) <- inject_loop fuel capacity' newCourses (heap t1) bs [];
      Ret (mkTable h bs' capacity' 0 (sortedCourses t1), out)
  end.

(** The loop of [remove]: unlink and delete the first node of that name. *)
Fixpoint remove_walk (fuel : nat) (courseName : string) (index : Z)
                     (currentNode previous : option addr)
                     (h : list (option DataNode)) (bs : list (option addr))
  : outcome (bool * list (option DataNode) * list (option addr)) :=
  match fuel with
  | O => Timeout
  | S fuel' =>
      match currentNode with
      | None => Ret (false, h, bs)
      | Some a =>
          n <- deref h a;
          if String.eqb (getName (course n)) courseName then
            match previous with
            | None =>
                bs' <- vector_set bs index (nextNode n);
                Ret (true, <[a := None]> h, bs')
            | Some p =>
                pn <- deref h p;
                let h' := <[p := Some (mkNode (course pn) (nextNode n))]> h in
                Ret (true, <[a := None]> h', bs)
            end
          else remove_walk fuel' courseName index (nextNode n) (Some a) h bs
      end
  end.

Definition remove (fuel : nat) (t : DataStructure) (courseName : string)
  : outcome (DataStructure * list string) :=
  if empty courseName then Ret (t, ["Unable to remove empty course!"])
  else
    let index := hash (capacity t) courseName in
    head <- vector_at (buckets t) index;
    '(found, h, bs) <- remove_walk fuel courseName index head None (heap t) (buckets t);
    if found then
      Ret (set_size (set_buckets (set_heap t h) bs) (wrap64 (size t - 1)), [])
    else
      Ret (t, [String.append "Course not found: " courseName]).

(** The inner loop of [sort]: [sortedCourses.push_back] for every node
    of one chain.  The vector grows by one element in every round, so a
    chain that does not end makes the call end in an exception. *)
Fixpoint collect_chain (fuel : nat) (h : list (option DataNode))
                       (currentNode : option addr) (acc : list Course)
  : outcome (list Course) :=
  match fuel with
  | O => Timeout
  | S fuel' =>
      match currentNode with
      | None => Ret acc
      | Some a =>
          n <- deref h a;
          acc' <- vector_push_back acc (course n);
          collect_chain fuel' h (nextNode n) acc'
      end
  end.

Definition sort (fuel : nat) (t : DataStructure) : outcome DataStructure :=
  collected <- for_range (Z.to_nat (capacity t)) 0
               (fun index acc =>
                  currentNode <- vector_at (buckets t) (Z.of_nat index);
                  collect_chain fuel (heap t) currentNode acc)
               [];
  Ret (set_sortedCourses t (std_sort collected)).

(** [getSorted]: sorts on every call. *)
Definition getSorted (fuel : nat) (t : DataStructure)
  : outcome (DataStructure * list Course) :=
  t' <- sort fuel t;
  Ret (t', sortedCourses t').

(** [get]: the course found, or [None] for the null pointer. *)
Definition get (fuel : nat) (t : DataStructure) (courseName : string)
  : outcome (option Course) :=
  if empty courseName then Ret None
  else
    let index := hash (capacity t) courseName in
    head <- vector_at (buckets t) index;
    found <- chain_find fuel (heap t) head courseName;
    Ret (course <$> found).

(** The states a table goes through after [t0]: any calls of its public
    members that return.  The argument of [inject] is a vector that
    exists, so it has at most [max_buckets] elements. *)
Inductive reachable_from (t0 : DataStructure) : DataStructure -> Prop :=
| reach_start : reachable_from t0 t0
| reach_insert fuel t c t' out :
    reachable_from t0 t -> insert fuel t c = Ret (t', out) -> reachable_from t0 t'
| reach_inject fuel t newCourses t' out :
    reachable_from t0 t ->
    Z.of_nat (length newCourses) <= max_buckets ->
    inject fuel t newCourses = Ret (t', out) -> reachable_from t0 t'
| reach_remove fuel t courseName t' out :
    reachable_from t0 t -> remove fuel t courseName = Ret (t', out) -> reachable_from t0 t'
| reach_getSorted fuel t t' view :
    reachable_from t0 t -> getSorted fuel t = Ret (t', view) -> reachable_from t0 t'.

(** A table built by one of the two constructors. *)
Definition constructed (t0 : DataStructure) : Prop :=
  new_table = Ret t0 \/ exists cap, 0 <= cap < 2 ^ 64 /\ new_table_with cap = Ret t0.

(** The states of the table of the program, which [main] builds with
    [DataStructure()]. *)
Definition reachable (t : DataStructure) : Prop :=
  exists t0, new_table = Ret t0 /\ reachable_from t0 t.

End Universal.

Module Owned.

Module LineParser.

(** The inner loop of [split] in part_000, which tracks quotes.
    Returns [input.substr(start, index - start)] and the text from
    [index] on. *)
Fixpoint scan_field (d : ascii) (from_index : string)
                    (inQuotes : bool) (quoteChar : ascii)
                    (substring : string) : string * string :=
  match from_index with
  | EmptyString => (substring, EmptyString)
  | String c rest =>
      if is_quote c then
        if negb inQuotes
        then scan_field d rest true c (push_char substring c)
        else if Ascii.eqb c quoteChar
        then scan_field d rest false ch_nul (push_char substring c)
        else scan_field d rest inQuotes quoteChar (push_char substring c)
      else if Ascii.eqb c d && negb inQuotes
      then (substring, from_index)
      else scan_field d rest inQuotes quoteChar (push_char substring c)
  end.

(** The loop that copies [substring] without its quotation marks. *)
Definition strip_step (filteredSubstring : string) (c : ascii) : string :=
  if negb (Ascii.eqb c ch_dquote) && negb (Ascii.eqb c ch_squote)
  then push_char filteredSubstring c
  else filteredSubstring.

Definition strip_quotes (substring : string) : string :=
  for_chars strip_step substring EmptyString.

Fixpoint split_loop (fuel : nat) (d : ascii) (from_start : string)
                    (result : list string) : list string :=
  match fuel with
  | O => result
  | S fuel' =>
      match from_start with
      | EmptyString => result
      | String _ _ =>
          let '(substring, from_index) :=
            scan_field d from_start false ch_nul EmptyString in
          split_loop fuel' d (skip_delims d (step_over from_index))
                     (result ++ [strip_quotes substring])
      end
  end.

Definition split (input delimiter : string) : list string :=
  if empty input then []
  else split_loop (String.length input) (char_at delimiter 0) input [].

(** [parse]: the course of a line, or [None] for the null pointer; the
    diagnostics it prints are left out. *)
Definition parse (input delimiter : string) : option Course :=
  let parts := split input delimiter in
  if (length parts <? 2)%nat then None
  else CourseBuilder.builder parts.

End LineParser.

(** *** [class DataStructure] of part_000

    A bucket is a [std::unique_ptr<DataNode>] that owns the first node of
    its chain, and every node owns its course and the next node: a chain
    is the list of its courses, head first, and the null pointer is the
    empty list.  [sortedCourses] holds raw pointers into the nodes; the
    model records the courses they pointed at when [sort] ran. *)
Record DataStructure : Type := mkTable {
  buckets : list (list Course);
  capacity : Z;
  size : Z;
  sortedCourses : list Course;
  sorted : bool
}.

Definition set_buckets (t : DataStructure) (bs : list (list Course)) : DataStructure :=
  mkTable bs (capacity t) (size t) (sortedCourses t) (sorted t).
Definition set_capacity (t : DataStructure) (n : Z) : DataStructure :=
  mkTable (buckets t) n (size t) (sortedCourses t) (sorted t).
Definition set_size (t : DataStructure) (n : Z) : DataStructure :=
  mkTable (buckets t) (capacity t) n (sortedCourses t) (sorted t).
Definition set_sortedCourses (t : DataStructure) (l : list Course) : DataStructure :=
  mkTable (buckets t) (capacity t) (size t) l (sorted t).
Definition set_sorted (t : DataStructure) (b : bool) : DataStructure :=
  mkTable (buckets t) (capacity t) (size t) (sortedCourses t) b.

(** [DataStructure()] *)
Definition new_table : outcome DataStructure :=
  bs <- vector_resize [] 1024 [];
  Ret (mkTable bs 1024 0 [] false).

(** [DataStructure(size_t cap)] *)
Definition new_table_with (cap : Z) : outcome DataStructure :=
  let capacity := if 16 <? cap then cap else 16 in
  bs <- vector_resize [] capacity [];
  Ret (mkTable bs capacity 0 [] false).

(** The rehash loop of [resize] for one old chain: every node is moved
    to the head of its new bucket. *)
Fixpoint rehash_chain (capacity : Z) (currentNode : list Course)
                      (bs : list (list Course)) : outcome (list (list Course)) :=
  match currentNode with
  | [] => Ret bs
  | c :: nextNode =>
      let newIndex := hash capacity (getName c) in
      old_head <- vector_at bs newIndex;
      bs' <- vector_set bs newIndex (c :: old_head);
      rehash_chain capacity nextNode bs'
  end.

Definition resize (t : DataStructure) : outcome DataStructure :=
  let oldCapacity := capacity t in
  let oldBuckets := buckets t in
  let capacity' := wrap64 (capacity t * 2) in
  fresh <- vector_resize [] capacity' [];
  bs <- for_range (Z.to_nat oldCapacity) 0
        (fun index bs =>
           chain <- vector_at oldBuckets (Z.of_nat index);
           rehash_chain capacity' chain bs)
        fresh;
  Ret (set_buckets (set_capacity t capacity') bs).

(** The duplicate check of [insert].  [currentNode] is a reference to
    [buckets[index]], so [currentNode = std::move(currentNode->nextNode)]
    assigns to the bucket itself: the head node is destroyed and the
    bucket then holds the rest of the chain.  Returns whether the loop
    ended in [return], and what the bucket holds at that moment. *)
Fixpoint duplicate_walk (key : string) (currentNode : list Course)
  : bool * list Course :=
  match currentNode with
  | [] => (false, [])
  | x :: nextNode =>
      if String.eqb (getName x) key then (true, currentNode)
      else duplicate_walk key nextNode
  end.

(** [insert]; [None] is the null pointer.  The second component is what
    the call prints. *)
Definition insert (t : DataStructure) (course : option Course)
  : outcome (DataStructure * list string) :=
  match course with
  | None => Ret (t, ["Unable to insert empty course!"])
  | Some c =>
      let key := getName c in
      let index := hash (capacity t) key in
      chain <- vector_at (buckets t) index;
      let '(duplicate, remaining) := duplicate_walk key chain in
      bs <- vector_set (buckets t) index remaining;
      if duplicate then
        Ret (set_buckets t bs, [String.append "Duplicate course: " key])
      else
        bs' <- vector_set bs index (c :: remaining);
        let t1 := set_size (set_buckets t bs') (wrap64 (size t + 1)) in
        t2 <- (if load_exceeds (size t1) (capacity t1) then resize t1 else Ret t1);
        Ret (set_sorted t2 false, [])
  end.

(** The duplicate check inside [inject].  Its [continue] belongs to the
    [while] it stands in, so when the head matches the loop tests the
    same head again. *)
Fixpoint inject_walk (fuel : nat) (key : string) (currentNode : list Course)
  : outcome (list Course * list string) :=
  match fuel with
  | O => Timeout
  | S fuel' =>
      match currentNode with
      | [] => Ret ([], [])
      | x :: nextNode =>
          if String.eqb (getName x) key then
            '(remaining, out) <- inject_walk fuel' key currentNode;
            Ret (remaining, String.append (String.append "Duplicate course: " key) " ; skipping" :: out)
          else inject_walk fuel' key nextNode
      end
  end.

Fixpoint inject_loop (fuel : nat) (capacity : Z) (newCourses : list (option Course))
                     (bs : list (list Course)) (out : list string)
  : outcome (list (list Course) * list string) :=
  match newCourses with
  | [] => Ret (bs, out)
  | None :: rest =>
      inject_loop fuel capacity rest bs (out ++ ["Skipping null course."])
  | Some c :: rest =>
      let key := getName c in
      let index := hash capacity key in
      chain <- vector_at bs index;
      '(remaining, printed) <- inject_walk fuel key chain;
      bs1 <- vector_set bs index remaining;
      bs2 <- vector_set bs1 index (c :: remaining);
      inject_loop fuel capacity rest bs2 (out ++ printed)
  end.

(** [inject]; the move out of the [const] element is read as handing the
    course over to the new node. *)
Definition inject (fuel : nat) (t : DataStructure) (newCourses : list (option Course))
  : outcome (DataStructure * list string) :=
  match newCourses with
  | [] => Ret (t, ["Warning: Empty or null course list. No change made."])
  | _ :: _ =>
      fresh <- vector_resize [] (capacity t) [];
      '(bs, out) <- inject_loop fuel (capacity t) newCourses fresh [];
      Ret (set_sorted (set_size (set_buckets t bs) 0) false, out)
  end.

(** The loop of [remove].  [previous] is null in the first round only;
    afterwards it is [&currentNode], the address of the bucket itself, so
    the "middle" branch move-assigns [nextNode] to itself and unlinks
    nothing.  Returns whether the name was found and what the bucket holds
    at the end. *)
Fixpoint remove_walk (courseName : string) (currentNode : list Course)
                     (previous_null : bool) : bool * list Course :=
  match currentNode with
  | [] => (false, [])
  | x :: nextNode =>
      if String.eqb (getName x) courseName then
        (true, if previous_null then nextNode else currentNode)
      else remove_walk courseName nextNode false
  end.

Definition remove (t : DataStructure) (courseName : string)
  : outcome (DataStructure * list string) :=
  if empty courseName then Ret (t, ["Unable to remove empty course!"])
  else
    let index := hash (capacity t) courseName in
    chain <- vector_at (buckets t) index;
    let '(found, remaining) := remove_walk courseName chain true in
    bs <- vector_set (buckets t) index remaining;
    if found then
      Ret (set_sorted (set_size (set_buckets t bs) (wrap64 (size t - 1))) false, [])
    else
      Ret (set_buckets t bs, [String.append "Course not found: " courseName]).

(** [sort]: collect bucket by bucket, then [std::sort]. *)
Definition sort (t : DataStructure) : outcome DataStructure :=
  collected <- for_range (Z.to_nat (capacity t)) 0
               (fun index acc =>
                  chain <- vector_at (buckets t) (Z.of_nat index);
                  Ret (acc ++ chain))
               [];
  Ret (set_sorted (set_sortedCourses t (std_sort collected)) true).

(** [getSorted]: the members it touches are [mutable]. *)
Definition getSorted (t : DataStructure) : outcome (DataStructure * list Course) :=
  t' <- (if negb (sorted t) then sort t else Ret t);
  Ret (t', sortedCourses t').

(** The search loop of [get]; it walks with raw pointers and changes
    nothing. *)
Fixpoint find_course (courseName : string) (currentNode : list Course)
  : option Course :=
  match currentNode with
  | [] => None
  | x :: nextNode =>
      if String.eqb (getName x) courseName then Some x
      else find_course courseName nextNode
  end.

(** [get]: a copy of the course, or [None] for the null pointer. *)
Definition get (t : DataStructure) (courseName : string) : outcome (option Course) :=
  if empty courseName then Ret None
  else
    let index := hash (capacity t) courseName in
    chain <- vector_at (buckets t) index;
    Ret (find_course courseName chain).

(** [destroy] *)
Definition destroy (t : DataStructure) : DataStructure :=
  mkTable [] (capacity t) 0 [] false.

(** The states a table goes through after [t0]: any calls of its public
    members that return. *)
Inductive reachable_from (t0 : DataStructure) : DataStructure -> Prop :=
| reach_start : reachable_from t0 t0
| reach_insert t course t' out :
    reachable_from t0 t -> insert t course = Ret (t', out) -> reachable_from t0 t'
| reach_inject fuel t newCourses t' out :
    reachable_from t0 t -> inject fuel t newCourses = Ret (t', out) -> reachable_from t0 t'
| reach_remove t courseName t' out :
    reachable_from t0 t -> remove t courseName = Ret (t', out) -> reachable_from t0 t'
| reach_getSorted t t' view :
    reachable_from t0 t -> getSorted t = Ret (t', view) -> reachable_from t0 t'.

(** A table built by one of the two constructors. *)
Definition constructed (t0 : DataStructure) : Prop :=
  new_table = Ret t0 \/ exists cap, 0 <= cap < 2 ^ 64 /\ new_table_with cap = Ret t0.

(** The states of the table of the program, which [main] builds with
    [DataStructure()]. *)
Definition reachable (t : DataStructure) : Prop :=
  exists t0, new_table = Ret t0 /\ reachable_from t0 t.

End Owned.


(** * Notions used in the statements *)

Definition letters : string :=
  "ABCDEFGHIJKLMNOPQRSTUVWXYZabcdefghijklmnopqrstuvwxyz".
Definition digits : string := "0123456789".

(** [c] is one of the bytes of [s]. *)
Definition occurs_in (c : ascii) (s : string) : Prop :=
  In c (list_ascii_of_string s).

(** The shape the validator accepts: seven bytes, four letters then three
    digits. *)
Definition identifier_shape (s : string) : Prop :=
  String.length s = 7%nat /\
  (forall i, (i < 4)%nat -> occurs_in (char_at s i) letters) /\
  (forall i, (4 <= i < 7)%nat -> occurs_in (char_at s i) digits).

(** The fields as [builder] sees them: each raw field sanitized, then
    trimmed. *)
Definition cleaned (input : list string) : list string :=
  map (fun item => CourseBuilder.trim (CourseBuilder.filter item)) input.

(** What sanitizing and trimming mean, said without the code: the bytes
    that sanitizing removes are the quotation mark, the apostrophe, the
    newline, the carriage return and the tab; white space is the space
    and the bytes 9 to 13. *)
Definition removed_bytes : list ascii := map ascii_of_nat [34; 39; 10; 13; 9]%nat.

Definition white_bytes : list ascii := map ascii_of_nat [32; 9; 10; 11; 12; 13]%nat.

(** [text] is [item] without the removed bytes, the other bytes in
    their order. *)
Definition sanitized (item text : string) : Prop :=
  list_ascii_of_string text =
  List.filter (fun c => negb (existsb (Ascii.eqb c) removed_bytes))
              (list_ascii_of_string item).

Definition white (s : string) : Prop :=
  forall c, occurs_in c s -> In c white_bytes.

(** [field] is [text] without the white space at its two ends. *)
Definition trimmed (text field : string) : Prop :=
  (exists lead trail,
      text = String.append lead (String.append field trail) /\
      white lead /\ white trail) /\
  (field = EmptyString \/
   (~ In (char_at field 0) white_bytes /\
    ~ In (char_at field (String.length field - 1)) white_bytes)).

(** [field] is [item] sanitized, then trimmed. *)
Definition cleaned_field (item field : string) : Prop :=
  exists text, sanitized item text /\ trimmed text field.

(** The line of the specification's example: CS10101,"Intro, to CS", *)
Definition quoted_line : string :=
  String.append "CS10101,"
    (String ch_dquote (String.append "Intro, to CS" (String ch_dquote ","))).

(** A loop over the indices of a vector visits its elements in order. *)
Fixpoint fold_outcome {A St : Type} (body : A -> St -> outcome St)
                      (l : list A) (s : St) : outcome St :=
  match l with
  | [] => Ret s
  | x :: rest => s' <- body x s; fold_outcome body rest s'
  end.

(** Moving a course to the head of its bucket. *)
Definition place (capacity : Z) (bs : list (list Course)) (c : Course)
  : list (list Course) :=
  let j := Z.to_nat (hash capacity (getName c)) in
  <[j := c :: bs !!! j]> bs.

Definition rehash_all (capacity : Z) (oldBuckets fresh : list (list Course))
  : list (list Course) :=
  fold_left (fun bs chain => fold_left (place capacity) chain bs) oldBuckets fresh.


(** All the courses a table of part_000 holds. *)
Definition entries (t : Owned.DataStructure) : list Course :=
  concat (Owned.buckets t).

(** Every course sits in the bucket its name hashes to. *)
Definition homed (capacity : Z) (bs : list (list Course)) : Prop :=
  forall i chain c, bs !! i = Some chain -> c ∈ chain ->
    hash capacity (getName c) = Z.of_nat i.

(** The chains have at most one node each, in the right bucket. *)
Definition chains_ok (capacity : Z) (bs : list (list Course)) : Prop :=
  forall i chain, bs !! i = Some chain ->
    (length chain <= 1)%nat /\
    forall c, c ∈ chain -> hash capacity (getName c) = Z.of_nat i.

Definition power_of_two (n : Z) : Prop := exists k, 0 <= k /\ n = 2 ^ k.

(** A name of ASCII bytes only; the names [courseNameValidator] accepts
    are such. *)
Fixpoint plain (s : string) : Prop :=
  match s with
  | EmptyString => True
  | String c rest => code c < 128 /\ plain rest
  end.

(** Doubling the capacity refines the bucket of [key]: its old index is
    the new one modulo the old capacity. *)
Definition refines_hash (capacity : Z) (key : string) : Prop :=
  hash (2 * capacity) key mod capacity = hash capacity key.

(** ... and this stays so however often the capacity doubles. *)
Definition good (capacity : Z) (key : string) : Prop :=
  forall k, 0 <= k -> 2 * (capacity * 2 ^ k) <= max_buckets ->
            refines_hash (capacity * 2 ^ k) key.

(** The vector has [capacity] buckets, between 16 and the most a vector
    can have. *)
Definition sized (t : Owned.DataStructure) : Prop :=
  16 <= Owned.capacity t <= max_buckets /\
  length (Owned.buckets t) = Z.to_nat (Owned.capacity t).

(** The invariant of the tables of part_000: the vector is sized, every
    chain has at most one node, in its bucket, and doubling the capacity
    will refine the bucket of every stored name. *)
Record Inv (t : Owned.DataStructure) : Prop := mkInv {
  inv_sized : sized t;
  inv_good : forall c, c ∈ entries t -> good (Owned.capacity t) (getName c);
  inv_chains : chains_ok (Owned.capacity t) (Owned.buckets t)
}.

(** The states a table of part_000 goes through after [t0] when every
    record handed to [insert] and [inject] satisfies [ok]. *)
Inductive reachable_with (ok : Course -> Prop) (t0 : Owned.DataStructure)
  : Owned.DataStructure -> Prop :=
| with_start : reachable_with ok t0 t0
| with_insert t course t' out :
    reachable_with ok t0 t -> (forall c, course = Some c -> ok c) ->
    Owned.insert t course = Ret (t', out) -> reachable_with ok t0 t'
| with_inject fuel t newCourses t' out :
    reachable_with ok t0 t -> (forall c, Some c ∈ newCourses -> ok c) ->
    Owned.inject fuel t newCourses = Ret (t', out) -> reachable_with ok t0 t'
| with_remove t courseName t' out :
    reachable_with ok t0 t -> Owned.remove t courseName = Ret (t', out) ->
    reachable_with ok t0 t'
| with_getSorted t t' view :
    reachable_with ok t0 t -> Owned.getSorted t = Ret (t', view) ->
    reachable_with ok t0 t'.

(** The table [insert] leaves when the name is new: the course is alone
    in its bucket and the size is one more. *)
Definition inserted (t : Owned.DataStructure) (c : Course) : Owned.DataStructure :=
  Owned.mkTable
    (<[Z.to_nat (hash (Owned.capacity t) (getName c)) := [c]]> (Owned.buckets t))
    (Owned.capacity t) (wrap64 (Owned.size t + 1))
    (Owned.sortedCourses t) (Owned.sorted t).

(** The table [resize] leaves. *)
Definition resized (t : Owned.DataStructure) : Owned.DataStructure :=
  Owned.set_buckets (Owned.set_capacity t (2 * Owned.capacity t))
    (rehash_all (2 * Owned.capacity t) (Owned.buckets t)
                (replicate (Z.to_nat (2 * Owned.capacity t)) [])).

(** The tables reached from [t0] by calls of [insert] alone. *)
Inductive inserts_from (t0 : Owned.DataStructure) : Owned.DataStructure -> Prop :=
| inserts_start : inserts_from t0 t0
| inserts_step t course t' out :
    inserts_from t0 t -> Owned.insert t course = Ret (t', out) ->
    inserts_from t0 t'.

(** [size / capacity <= 0.75] *)
Definition load_ok (size capacity : Z) : Prop :=
  0 <= size /\ 4 * size <= 3 * capacity.

(** Ascending by name, the order of [std::string]. *)
Definition name_le (a b : Course) : Prop :=
  String.leb (getName a) (getName b) = true.

(** The vector of a table of ProjectTwoUniversal.cpp has [capacity]
    buckets, between 16 and the most a vector can have. *)
Definition usized (t : Universal.DataStructure) : Prop :=
  16 <= Universal.capacity t <= max_buckets /\
  length (Universal.buckets t) = Z.to_nat (Universal.capacity t).

(** [split] as the specification words it: one scan from left to right.
    A quote character outside a quoted segment opens one, the same quote
    character closes it, and neither is copied into the field.  A delimiter
    outside a quoted segment ends the field, and the delimiters that follow
    it directly are skipped ([skipping]).  The end of the line ends the
    field in progress. *)
Fixpoint spec_scan (d : ascii) (line : string) (skipping : bool)
                   (open : option ascii) (field : string) : list string :=
  match line with
  | EmptyString => if skipping then [] else [field]
  | String c rest =>
      if skipping && Ascii.eqb c d then spec_scan d rest true None EmptyString
      else if is_quote c then
        match open with
        | None => spec_scan d rest false (Some c) field
        | Some q =>
            spec_scan d rest false (if Ascii.eqb c q then None else Some q) field
        end
      else if Ascii.eqb c d && negb (bool_decide (is_Some open)) then
        field :: spec_scan d rest true None EmptyString
      else spec_scan d rest false open (push_char field c)
  end.

(** An empty line has no fields. *)
Definition spec_split (input delimiter : string) : list string :=
  if empty input then []
  else spec_scan (char_at delimiter 0) input false None EmptyString.

(** The quote state of the code, as the specification sees it. *)
Definition quote_state (inQuotes : bool) (quoteChar : ascii) : option ascii :=
  if inQuotes then Some quoteChar else None.

(** More fuel does not change a call that finished: [r'] is what the call
    gives with at least the fuel that gave [r]. *)
Definition refines {A : Type} (r r' : outcome A) : Prop :=
  r <> Timeout -> r' = r.

(** *** Sample data *)

Definition digit_char (n : nat) : ascii := ascii_of_nat (48 + n mod 10).

(** [prefix] followed by the three decimal digits of [n]. *)
Definition numbered (prefix : string) (n : nat) : string :=
  String.append prefix
    (String (digit_char (n / 100))
       (String (digit_char (n / 10)) (String (digit_char n) EmptyString))).

(** The course CSCI[n]. *)
Definition sample_course (n : nat) : Course :=
  mkCourse (numbered "CSCI" n) "Course" [].

(** What [DataStructure()] builds, in each file. *)
Definition universal_new : Universal.DataStructure :=
  Universal.mkTable [] (replicate 1024 None) 1024 0 [].

Definition owned_new : Owned.DataStructure :=
  Owned.mkTable (replicate 1024 []) 1024 0 [] false.

(** Insert the courses of a list one after the other. *)
Fixpoint insert_each (fuel : nat) (t : Universal.DataStructure) (cs : list Course)
  : outcome Universal.DataStructure :=
  match cs with
  | [] => Ret t
  | c :: rest =>
      '(t', _) <- Universal.insert fuel t (Some c);
      insert_each fuel t' rest
  end.

(** The table of ProjectTwoUniversal.cpp after CSCI000, CSCI001, ... up to
    [n] courses were inserted into a new table. *)
Definition universal_after (n : nat) : outcome Universal.DataStructure :=
  insert_each 8 universal_new (map sample_course (seq 0 n)).

Definition table_of (r : outcome Universal.DataStructure) : Universal.DataStructure :=
  match r with
  | Ret t => t
  | _ => universal_new
  end.

Definition table768 : Universal.DataStructure :=
  Eval vm_compute in table_of (universal_after 768).

(** One more insert, of CSCI768: the 769th course makes the load factor
    exceed 0.75 and [insert] calls [resize]. *)
Definition table769 : Universal.DataStructure :=
  Eval vm_compute in
    match Universal.insert 8 table768 (Some (sample_course 768)) with
    | Ret (t, _) => t
    | _ => universal_new
    end.

(** [table769] after CSCI768, the course inserted last, was removed. *)
Definition table769_removed : Universal.DataStructure :=
  Eval vm_compute in
    match Universal.remove 8 table769 (numbered "CSCI" 768) with
    | Ret (t, _) => t
    | _ => universal_new
    end.

(** The table of part_000 that holds CSCI000 alone, before and after its
    sorted view was computed. *)
Definition owned_one : Owned.DataStructure := inserted owned_new (sample_course 0).

(** The same on a table built with [DataStructure(17)]. *)
Definition owned_new17 : Owned.DataStructure :=
  Owned.mkTable (replicate 17 []) 17 0 [] false.

Definition owned_one17 : Owned.DataStructure := inserted owned_new17 (sample_course 0).

(** Records whose names are given byte by byte, and thirteen of them for
    a table built with [DataStructure(17)]: the names [>] and [3] followed
    by the byte 233 are in buckets 11 and 12 of 17, and both in bucket 28
    of 34. *)
Definition byte_course (bytes : list nat) : Course :=
  mkCourse (string_of_list_ascii (map ascii_of_nat bytes)) "Course" [].

Definition thirteen : list Course :=
  byte_course [62%nat] :: byte_course [51%nat; 233%nat] ::
  map (fun k => byte_course [k]) [65; 66; 67; 68; 69; 70; 71; 72; 73; 74; 75]%nat.

Fixpoint owned_insert_each (t : Owned.DataStructure) (cs : list Course)
  : outcome Owned.DataStructure :=
  match cs with
  | [] => Ret t
  | c :: rest => '(t', _) <- Owned.insert t (Some c); owned_insert_each t' rest
  end.

Definition owned_of (r : outcome Owned.DataStructure) : Owned.DataStructure :=
  match r with
  | Ret t => t
  | _ => Owned.mkTable [] 0 0 [] false
  end.

(** The table [DataStructure(17)] after the thirteen inserts, and after
    the insert of one more record named [>]. *)
Definition owned17_full : Owned.DataStructure :=
  Eval vm_compute in owned_of (owned_insert_each owned_new17 thirteen).

Definition owned17_after : Owned.DataStructure :=
  Eval vm_compute in
    owned_of ('(t, _) <- Owned.insert owned17_full (Some (byte_course [62%nat])); Ret t).

Definition owned_one_viewed : Owned.DataStructure :=
  Owned.set_sorted (Owned.set_sortedCourses owned_one [sample_course 0]) true.

(** [owned_one_viewed] with its only chain destroyed: no course is left,
    the size and the cached view are as before. *)
Definition owned_one_emptied : Owned.DataStructure :=
  Owned.mkTable (replicate 1024 []) 1024 1 [sample_course 0] true.

(** The table of ProjectTwoUniversal.cpp that holds CSCI000 alone. *)
Definition universal_one : Universal.DataStructure :=
  Universal.mkTable [Some (Universal.mkNode (sample_course 0) None)]
    (<[Z.to_nat (hash 1024 (numbered "CSCI" 0)) := Some 0%nat]> (replicate 1024 None))
    1024 1 [].

(** Six hundred records, CSCI000 to CSCI599. *)
Definition six_hundred : list (option Course) :=
  map (fun n => Some (sample_course n)) (seq 0 600).


(** * The rest of the program: printing, reading a file, the menu queries *)

From Stdlib Require Import DecimalString.

(** Two courses are the same when their three members are. *)
#[global] Instance Course_eq_dec : EqDecision Course.
Proof. solve_decision. Defined.

(** ** [Course::toString], the same text in both files *)

(** The loop [for (i = 0; i < coursePrerequisites.size(); ++i)]; [n]
    counts the rounds left.  It runs only when the vector is not empty,
    so [size() - 1] does not wrap. *)
Fixpoint toString_loop (n : nat) (coursePrerequisites : list string) (i : nat)
                       (prereqs : string) : string :=
  match n with
  | O => prereqs
  | S n' =>
      let prereqs1 := String.append prereqs (nth i coursePrerequisites EmptyString) in
      toString_loop n' coursePrerequisites (S i)
        (if (i <? length coursePrerequisites - 1)%nat
         then String.append prereqs1 ", "
         else prereqs1)
  end.

Definition toString (c : Course) : string :=
  let prereqs :=
    if negb (bool_decide (getPrerequisites c = []))
    then toString_loop (length (getPrerequisites c)) (getPrerequisites c) 0 EmptyString
    else "None" in
  String.append (getName c)
    (String.append ": "
       (String.append (getTitle c) (String.append "; Prerequisites: " prereqs))).

(** ** What is printed

    A call prints whole lines ([<< std::endl]); what it prints is the
    list of these lines.  [std::cout << lineNumber] prints an [int] in
    decimal. *)
Definition print_int (n : Z) : string := NilZero.string_of_int (Z.to_int n).

(** ** [class GUI]: the members that print whole lines *)

Module GUI.

(** [printCourse]; [None] is the null pointer. *)
Definition printCourse (course : option Course) : list string :=
  match course with
  | None => ["Course does not exist"]
  | Some c => [toString c]
  end.

Definition printCourseListHeader : list string := ["-------- Course List --------"].

End GUI.

(** ** Reading a file

    [std::getline(file, line)] takes the bytes up to the next newline and
    consumes the newline; it fails when no byte is left.  The stream is
    the text that is still to be read. *)
Fixpoint getline_scan (file : string) (line : string) : string * string :=
  match file with
  | EmptyString => (line, EmptyString)
  | String c rest =>
      if Ascii.eqb c ch_newline then (line, rest)
      else getline_scan rest (push_char line c)
  end.

Definition getline (file : string) : option (string * string) :=
  match file with
  | EmptyString => None
  | String _ _ => Some (getline_scan file EmptyString)
  end.

(** [INT_MAX]: [++lineNumber] is undefined beyond it. *)
Definition int_max : Z := 2 ^ 31 - 1.

(** The loop [while (std::getline(file, line))] of [readFile], the same
    text in both files but for the parser it calls.  Every round consumes
    a byte, so one round more than the length of the file is enough. *)
Fixpoint read_loop (fuel : nat)
                   (parse : string -> string -> Z -> option Course * list string)
                   (file : string) (lineNumber : Z)
                   (newCourses : list Course) (out : list string)
  : outcome (list Course * list string) :=
  match fuel with
  | O => Timeout
  | S fuel' =>
      match getline file with
      | None => Ret (newCourses, out)
      | Some (line, rest) =>
          if lineNumber =? int_max then Undefined
          else
            let lineNumber := lineNumber + 1 in
            if empty line then read_loop fuel' parse rest lineNumber newCourses out
            else
              let '(course, printed) := parse line "," lineNumber in
              match course with
              | Some c =>
                  read_loop fuel' parse rest lineNumber (newCourses ++ [c]) (out ++ printed)
              | None =>
                  read_loop fuel' parse rest lineNumber newCourses (out ++ printed)
              end
      end
  end.

(** ** The queries of [class Menu], the same text in both files *)

(** [s.find(criteria)]: the first position at which [criteria] occurs in
    [s], counted from [pos]; [None] is [npos]. *)
Fixpoint find (s criteria : string) (pos : nat) : option nat :=
  if String.prefix criteria s then Some pos
  else
    match s with
    | EmptyString => None
    | String _ rest => find rest criteria (S pos)
    end.

(** The loop over the prerequisites in [search], which stops at the
    first match. *)
Fixpoint prereq_match (prereqs : list string) (criteria : string) : bool :=
  match prereqs with
  | [] => false
  | prereq :: rest =>
      if String.eqb prereq criteria then true else prereq_match rest criteria
  end.

(** One round of the loop of [search], after [course] was read. *)
Definition search_step (criteria category : string) (course : Course)
                       (results : list Course) : list Course :=
  if String.eqb category "name" then
    if String.eqb (getName course) criteria then results ++ [course] else results
  else if String.eqb category "title" then
    if negb (bool_decide (find (getTitle course) criteria 0 = None))
    then results ++ [course] else results
  else if String.eqb category "prereq" then
    if prereq_match (getPrerequisites course) criteria
    then results ++ [course] else results
  else results.

(** ** The program of ProjectTwoUniversal.cpp *)

Module UniversalProgram.

Module LineParser.

(** [parse] with the diagnostics it prints. *)
Definition parse (input delimiter : string) (lineNumber : Z)
  : option Course * list string :=
  let parts := Universal.LineParser.split input delimiter in
  if (length parts <? 2)%nat then
    (None, [String.append "Invalid line format at line: " (print_int lineNumber)])
  else
    match CourseBuilder.builder parts with
    | None =>
        (None, [String.append "Failed to build course at line: " (print_int lineNumber)])
    | Some course => (Some course, [])
    end.

End LineParser.

Module FileReader.

(** [readFile].  [fs] gives the text of the files that can be opened.
    The last component is the value returned. *)
Definition readFile (fuel : nat) (fs : string -> option string)
                    (dataStruct : Universal.DataStructure) (fileName : string)
  : outcome (Universal.DataStructure * list string * bool) :=
  if empty fileName then Ret (dataStruct, ["Invalid file name"], false)
  else
    match fs fileName with
    | None =>
        Ret (dataStruct, [String.append "Failed to open file: " fileName], false)
    | Some file =>
        '(newCourses, out) <-
          read_loop (S (String.length file)) LineParser.parse file 0 [] [];
        '(dataStruct', printed) <- Universal.inject fuel dataStruct (map Some newCourses);
        Ret (dataStruct',
             out ++ printed ++ [String.append "Successfully read file: " fileName],
             true)
    end.

End FileReader.

Module Menu.

(** [search].  The loop calls [getSorted] for its bound and again for
    the element; [n] bounds the number of rounds. *)
Fixpoint search_loop (n : nat) (fuel : nat) (dataStruct : Universal.DataStructure)
                     (criteria category : string) (index : nat)
                     (results : list Course)
  : outcome (Universal.DataStructure * list Course) :=
  match n with
  | O => Timeout
  | S n' =>
      '(t1, view1) <- Universal.getSorted fuel dataStruct;
      if (index <? length view1)%nat then
        '(t2, view2) <- Universal.getSorted fuel t1;
        course <- vector_at view2 (Z.of_nat index);
        search_loop n' fuel t2 criteria category (S index)
                    (search_step criteria category course results)
      else Ret (t1, results)
  end.

Definition search (n fuel : nat) (dataStruct : Universal.DataStructure)
                  (criteria category : string)
  : outcome (Universal.DataStructure * list Course) :=
  search_loop n fuel dataStruct criteria category 0 [].

(** [displayCSCourses]: the courses whose name starts with CS or MATH. *)
Definition displayCSCourses (fuel : nat) (dataStruct : Universal.DataStructure)
  : outcome (Universal.DataStructure * list string) :=
  '(t', sortedCourses) <- Universal.getSorted fuel dataStruct;
  Ret (t',
       GUI.printCourseListHeader ++
       flat_map (fun course =>
                   let name := getName course in
                   if String.eqb (String.substring 0 2 name) "CS"
                      || String.eqb (String.substring 0 4 name) "MATH"
                   then GUI.printCourse (Some course) else [])
                sortedCourses).

Definition displayAllCourses (fuel : nat) (dataStruct : Universal.DataStructure)
  : outcome (Universal.DataStructure * list string) :=
  '(t', sortedCourses) <- Universal.getSorted fuel dataStruct;
  Ret (t',
       GUI.printCourseListHeader ++
       flat_map (fun course => GUI.printCourse (Some course)) sortedCourses).

End Menu.

End UniversalProgram.

(** ** The program of part_000 *)

Module OwnedProgram.

Module LineParser.

(** [parse] with the diagnostics it prints. *)
Definition parse (input delimiter : string) (lineNumber : Z)
  : option Course * list string :=
  let parts := Owned.LineParser.split input delimiter in
  if (length parts <? 2)%nat then
    (None, [String.append "Invalid line format at line: " (print_int lineNumber)])
  else
    match CourseBuilder.builder parts with
    | None =>
        (None, [String.append "Failed to build course at line: " (print_int lineNumber)])
    | Some course => (Some course, [])
    end.

End LineParser.

Module FileReader.

(** [readFile], which returns nothing in this file. *)
Definition readFile (fuel : nat) (fs : string -> option string)
                    (dataStruct : Owned.DataStructure) (fileName : string)
  : outcome (Owned.DataStructure * list string) :=
  if empty fileName then Ret (dataStruct, ["Invalid file name"])
  else
    match fs fileName with
    | None => Ret (dataStruct, [String.append "Failed to open file: " fileName])
    | Some file =>
        '(newCourses, out) <-
          read_loop (S (String.length file)) LineParser.parse file 0 [] [];
        '(dataStruct', printed) <- Owned.inject fuel dataStruct (map Some newCourses);
        Ret (dataStruct',
             out ++ printed ++ [String.append "Successfully read file: " fileName])
    end.

End FileReader.

Module Menu.

(** [*course] for a pointer of the cached view.  The view holds raw
    pointers to the courses in the nodes; a pointer is good as long as
    its course is still in a node of the table. *)
Definition view_deref (dataStruct : Owned.DataStructure) (course : Course)
  : outcome Course :=
  if bool_decide (course ∈ concat (Owned.buckets dataStruct))
  then Ret course else Undefined.

(** [search].  The loop calls [getSorted] for its bound and again for
    the element; [n] bounds the number of rounds. *)
Fixpoint search_loop (n : nat) (dataStruct : Owned.DataStructure)
                     (criteria category : string) (index : nat)
                     (results : list Course)
  : outcome (Owned.DataStructure * list Course) :=
  match n with
  | O => Timeout
  | S n' =>
      '(t1, view1) <- Owned.getSorted dataStruct;
      if (index <? length view1)%nat then
        '(t2, view2) <- Owned.getSorted t1;
        pointer <- vector_at view2 (Z.of_nat index);
        course <- view_deref t2 pointer;
        search_loop n' t2 criteria category (S index)
                    (search_step criteria category course results)
      else Ret (t1, results)
  end.

Definition search (n : nat) (dataStruct : Owned.DataStructure)
                  (criteria category : string)
  : outcome (Owned.DataStructure * list Course) :=
  search_loop n dataStruct criteria category 0 [].

(** The loop of [displayCSCourses] and [displayAllCourses] over the
    view; [keep] is the test of the loop body. *)
Fixpoint display_loop (dataStruct : Owned.DataStructure) (keep : Course -> bool)
                      (sortedCourses : list Course) (out : list string)
  : outcome (list string) :=
  match sortedCourses with
  | [] => Ret out
  | pointer :: rest =>
      course <- view_deref dataStruct pointer;
      display_loop dataStruct keep rest
        (if keep course then out ++ GUI.printCourse (Some course) else out)
  end.

(** [displayCSCourses]: the courses whose name starts with CS. *)
Definition displayCSCourses (dataStruct : Owned.DataStructure)
  : outcome (Owned.DataStructure * list string) :=
  '(t', sortedCourses) <- Owned.getSorted dataStruct;
  out <- display_loop t'
           (fun course => String.eqb (String.substring 0 2 (getName course)) "CS")
           sortedCourses GUI.printCourseListHeader;
  Ret (t', out).

Definition displayAllCourses (dataStruct : Owned.DataStructure)
  : outcome (Owned.DataStructure * list string) :=
  '(t', sortedCourses) <- Owned.getSorted dataStruct;
  out <- display_loop t' (fun _ => true) sortedCourses GUI.printCourseListHeader;
  Ret (t', out).

End Menu.

End OwnedProgram.

(** ** Notions used to state the behaviour of the rest of the program *)

(** The bytes [CourseBuilder::filter] leaves out. *)
Definition dropped (c : ascii) : bool :=
  Ascii.eqb c ch_dquote || Ascii.eqb c ch_squote || Ascii.eqb c ch_newline
  || Ascii.eqb c ch_return || Ascii.eqb c ch_tab.

(** A string of white space only. *)
Definition all_space (s : string) : Prop :=
  forall c, occurs_in c s -> isspace c = true.

(** A string that neither starts nor ends with white space. *)
Definition tight (s : string) : Prop :=
  s = EmptyString \/
  (isspace (char_at s 0) = false /\
   isspace (char_at s (String.length s - 1)) = false).

(** The base-31 polynomial of the bytes of a key, without any
    reduction. *)
Definition polynomial (key : string) : Z :=
  for_chars (fun h c => h * 31 + code c) key 0.

(** The bytes of [s] other than [d], in their order. *)
Fixpoint without (d : ascii) (s : string) : string :=
  match s with
  | EmptyString => EmptyString
  | String c rest => if Ascii.eqb c d then without d rest else String c (without d rest)
  end.

(** A field as [split] can give it back: not empty and free of the
    delimiter. *)
Definition plain_field (d : ascii) (field : string) : Prop :=
  field <> EmptyString /\ ~ occurs_in d field.

(** [s] does not start with the byte [d]. *)
Definition not_led_by (d : ascii) (s : string) : Prop :=
  match s with
  | EmptyString => True
  | String c _ => c <> d
  end.

(** A field as it is written in a line: bare, or between two quotation
    marks of one kind. *)
Inductive cell : Type :=
| Bare (field : string)
| Quoted (q : ascii) (field : string).

Definition cell_text (c : cell) : string :=
  match c with
  | Bare field => field
  | Quoted q field => String q (String.append field (String q EmptyString))
  end.

Definition cell_field (c : cell) : string :=
  match c with
  | Bare field => field
  | Quoted _ field => field
  end.

(** The field holds no quotation mark; a bare field is not empty and
    holds no delimiter, a quoted one may. *)
Definition cell_ok (d : ascii) (c : cell) : Prop :=
  (forall x, occurs_in x (cell_field c) -> is_quote x = false) /\
  match c with
  | Bare field => plain_field d field
  | Quoted q _ => is_quote q = true
  end.

(** A title as [builder] gives it out: not empty, free of the bytes
    [filter] drops, without white space at its ends. *)
Definition clean_title (title : string) : Prop :=
  title <> EmptyString /\
  (forall c, occurs_in c title -> dropped c = false) /\
  tight title.

Definition valid_names (names : list string) : Prop :=
  Forall (fun name => CourseBuilder.courseNameValidator name = true) names.

Definition comma : ascii := ascii_of_nat 44.

(** The lines of a text: it is cut after each newline, and what follows
    the last newline is a line if it is not empty.  [line] holds the
    bytes of the line that is being read. *)
Fixpoint file_lines (file : string) (line : string) : list string :=
  match file with
  | EmptyString => if empty line then [] else [line]
  | String c rest =>
      if Ascii.eqb c ch_newline then line :: file_lines rest EmptyString
      else file_lines rest (push_char line c)
  end.

(** What the parser makes of the lines that are not empty, each with its
    number; the lines are counted from [n + 1]. *)
Fixpoint parsed_lines (parse : string -> string -> Z -> option Course * list string)
                      (lines : list string) (n : Z)
  : list (option Course * list string) :=
  match lines with
  | [] => []
  | line :: rest =>
      (if empty line then [] else [parse line "," (n + 1)])
      ++ parsed_lines parse rest (n + 1)
  end.

(** A file of four lines, the second one empty. *)
Definition sample_file : string :=
  String.append "CSCI101,Intro to CS"
    (String ch_newline
       (String ch_newline
          (String.append "CSCI102" (String ch_newline "CSCI200,Data,CSCI101")))).


(** A course answers a search: its name is the text looked for, its
    title holds the text, or one of its prerequisites is the text,
    according to the category. *)
Definition matches (criteria category : string) (c : Course) : Prop :=
  (category = "name"%string /\ getName c = criteria) \/
  (category = "title"%string /\
   exists a b, getTitle c = String.append a (String.append criteria b)) \/
  (category = "prereq"%string /\ In criteria (getPrerequisites c)).

(** A name that starts with the letters [start]. *)
Definition starts_with (start name : string) : Prop :=
  exists rest, name = String.append start rest.

(** The test one round of [search] makes on a course. *)
Definition search_keep (criteria category : string) (course : Course) : bool :=
  if String.eqb category "name" then String.eqb (getName course) criteria
  else if String.eqb category "title" then
    negb (bool_decide (find (getTitle course) criteria 0 = None))
  else if String.eqb category "prereq" then
    prereq_match (getPrerequisites course) criteria
  else false.

(** [universal_one] after [getSorted]. *)
Definition universal_one_viewed : Universal.DataStructure :=
  Universal.set_sortedCourses universal_one [sample_course 0].
(** * Properties *)

(** ** Calls that return *)

Lemma bind_Ret {A B : Type} (m : outcome A) (f : A -> outcome B) (b : B) :
  bind m f = Ret b -> exists a, m = Ret a /\ f a = Ret b.
Proof. destruct m; simpl; intros H; try discriminate. eauto. Qed.

Lemma Ret_inj {A : Type} (a b : A) : Ret a = Ret b -> a = b.
Proof. congruence. Qed.

Lemma bind_Ret_l {A B : Type} (a : A) (f : A -> outcome B) :
  bind (Ret a) f = f a.
Proof. reflexivity. Qed.

(** Take a hypothesis [bind m f = Ret b] apart. *)
Ltac inv_bind H :=
  let a := fresh "a" in
  let Ha := fresh "Hret" in
  apply bind_Ret in H; destruct H as (a & Ha & H).

Lemma vector_at_Ret {A : Type} (v : list A) (i : Z) (x : A) :
  vector_at v i = Ret x <-> v !! Z.to_nat i = Some x.
Proof.
  unfold vector_at. destruct (v !! Z.to_nat i); split; congruence.
Qed.

Lemma vector_set_Ret {A : Type} (v : list A) (i : Z) (x : A) (v' : list A) :
  vector_set v i x = Ret v' <->
  (Z.to_nat i < length v)%nat /\ v' = <[Z.to_nat i := x]> v.
Proof.
  unfold vector_set. destruct (Nat.ltb_spec (Z.to_nat i) (length v)); split.
  - intros [= <-]. auto.
  - intros [_ ->]. reflexivity.
  - discriminate.
  - intros [? _]. lia.
Qed.

Lemma vector_set_in_range {A : Type} (v : list A) (i : Z) (x : A) :
  (Z.to_nat i < length v)%nat -> vector_set v i x = Ret (<[Z.to_nat i := x]> v).
Proof. intros H. apply vector_set_Ret. auto. Qed.

Lemma vector_resize_fresh {A : Type} (n : Z) (fill : A) (v : list A) :
  vector_resize [] n fill = Ret v <->
  n <= max_buckets /\ v = replicate (Z.to_nat n) fill.
Proof.
  unfold vector_resize. destruct (Z.ltb_spec max_buckets n); split.
  - discriminate.
  - intros [? _]. lia.
  - intros [= <-]. split; [lia |]. rewrite take_nil. simpl. f_equal. lia.
  - intros [_ ->]. rewrite take_nil. simpl. do 2 f_equal. lia.
Qed.

Lemma vector_resize_length {A : Type} (v : list A) (n : Z) (fill : A) (v' : list A) :
  vector_resize v n fill = Ret v' ->
  n <= max_buckets /\ length v' = Z.to_nat n.
Proof.
  unfold vector_resize. destruct (Z.ltb_spec max_buckets n); [discriminate |].
  intros [= <-]. split; [lia |].
  rewrite length_app, length_take, length_replicate. lia.
Qed.

(** ** The hash function *)

Lemma wrap64_range x : 0 <= wrap64 x < 2 ^ 64.
Proof. unfold wrap64. apply Z.mod_pos_bound. lia. Qed.

Lemma wrap64_small x : 0 <= x < 2 ^ 64 -> wrap64 x = x.
Proof. intros H. unfold wrap64. apply Z.mod_small. exact H. Qed.

Lemma for_chars_invariant {A : Type} (P : A -> Prop) (body : A -> ascii -> A) :
  (forall a c, P (body a c)) ->
  forall s acc, P acc -> P (for_chars body s acc).
Proof.
  intros Hbody s. induction s as [|c s IH]; intros acc Hacc; simpl; auto.
Qed.

(** The hash of any key, the empty one included, is a valid bucket index
    as soon as the capacity is positive. *)
Lemma hash_range (capacity : Z) (key : string) :
  0 < capacity -> 0 <= hash capacity key < capacity.
Proof.
  intros Hcap. unfold hash.
  apply (for_chars_invariant (fun h => 0 <= h < capacity)).
  - intros a c. apply Z.mod_pos_bound. exact Hcap.
  - lia.
Qed.

(** Doubling a capacity that divides 2^64 refines the hash: the old index
    is the new one modulo the old capacity. *)
Lemma wrap64_mod_divide (cap y : Z) :
  (cap | 2 ^ 64) -> wrap64 y mod cap = y mod cap.
Proof. intros Hdiv. unfold wrap64. apply Z.mod_mod_divide. exact Hdiv. Qed.

Lemma hash_fold_compat (cap : Z) (key : string) (h h' : Z) :
  0 < cap -> (2 * cap | 2 ^ 64) ->
  h' mod cap = h ->
  for_chars (fun hashValue c => wrap64 (hashValue * 31 + size_t_of_char c) mod (2 * cap))
            key h' mod cap =
  for_chars (fun hashValue c => wrap64 (hashValue * 31 + size_t_of_char c) mod cap)
            key h.
Proof.
  intros Hcap Hdiv. revert h h'.
  assert (Hdiv1 : (cap | 2 ^ 64)).
  { eapply Z.divide_trans; [| exact Hdiv]. exists 2. lia. }
  induction key as [|c key IH]; intros h h' Hh; simpl.
  - exact Hh.
  - apply IH.
    rewrite Z.mod_mod_divide by (exists 2; lia).
    rewrite !wrap64_mod_divide by exact Hdiv1.
    rewrite <- Hh.
    rewrite <- (Zplus_mod_idemp_l (h' mod cap * 31) _ cap).
    rewrite Zmult_mod_idemp_l.
    rewrite Zplus_mod_idemp_l. reflexivity.
Qed.

Lemma hash_double_compat (cap : Z) (key : string) :
  0 < cap -> (2 * cap | 2 ^ 64) ->
  hash (2 * cap) key mod cap = hash cap key.
Proof.
  intros Hcap Hdiv. unfold hash. apply hash_fold_compat; auto.
Qed.

(** The same for a name of ASCII bytes and any capacity a vector can
    have: no step of the hash wraps. *)
Lemma size_t_of_char_plain (c : ascii) :
  code c < 128 -> 0 <= size_t_of_char c < 128.
Proof.
  intros H. unfold size_t_of_char.
  destruct (Z.ltb_spec (code c) 128); [| lia].
  unfold code in *. lia.
Qed.

Lemma hash_fold_compat_plain (cap : Z) (key : string) (h h' : Z) :
  0 < cap -> 2 * cap <= max_buckets -> plain key ->
  0 <= h' < 2 * cap -> 0 <= h < cap -> h' mod cap = h ->
  for_chars (fun hashValue c => wrap64 (hashValue * 31 + size_t_of_char c) mod (2 * cap))
            key h' mod cap =
  for_chars (fun hashValue c => wrap64 (hashValue * 31 + size_t_of_char c) mod cap)
            key h.
Proof.
  intros Hcap Hmax. unfold max_buckets in Hmax. revert h h'.
  induction key as [|c key IH]; intros h h' Hplain Hh' Hh Heq; simpl.
  - exact Heq.
  - destruct Hplain as [Hc Hplain].
    pose proof (size_t_of_char_plain c Hc) as Hx.
    rewrite (wrap64_small (h' * 31 + size_t_of_char c)) by lia.
    rewrite (wrap64_small (h * 31 + size_t_of_char c)) by lia.
    apply IH; [exact Hplain | apply Z.mod_pos_bound; lia | apply Z.mod_pos_bound; lia |].
    rewrite Z.mod_mod_divide by (exists 2; lia).
    rewrite <- Heq.
    rewrite <- (Zplus_mod_idemp_l (h' mod cap * 31) _ cap).
    rewrite Zmult_mod_idemp_l.
    rewrite Zplus_mod_idemp_l. reflexivity.
Qed.

Lemma plain_refines_hash (cap : Z) (key : string) :
  0 < cap -> 2 * cap <= max_buckets -> plain key -> refines_hash cap key.
Proof.
  intros Hcap Hmax Hplain. unfold refines_hash, hash.
  apply hash_fold_compat_plain; try assumption; try lia.
  apply Z.mod_0_l. lia.
Qed.

Lemma plain_good (cap : Z) (key : string) : 0 < cap -> plain key -> good cap key.
Proof.
  intros Hcap Hplain k Hk Hmax. apply plain_refines_hash; [| exact Hmax | exact Hplain].
  apply Z.mul_pos_pos; [exact Hcap | apply Z.pow_pos_nonneg; lia].
Qed.

Lemma power_of_two_good (cap : Z) (key : string) : power_of_two cap -> good cap key.
Proof.
  intros (j & Hj & ->) k Hk Hmax. unfold refines_hash.
  rewrite <- Z.pow_add_r in * by lia.
  assert (Hjk : j + k + 1 <= 44).
  { unfold max_buckets in Hmax. rewrite <- Z.pow_succ_r in Hmax by lia.
    apply Z.pow_le_mono_r_iff in Hmax; lia. }
  apply hash_double_compat; [apply Z.pow_pos_nonneg; lia |].
  exists (2 ^ (64 - (j + k + 1))).
  rewrite <- Z.pow_succ_r by lia.
  rewrite <- Z.pow_add_r by lia. f_equal. lia.
Qed.

Lemma good_double (cap : Z) (key : string) : good cap key -> good (2 * cap) key.
Proof.
  intros Hg k Hk Hmax.
  replace (2 * cap * 2 ^ k) with (cap * 2 ^ (k + 1)) in *
    by (rewrite Z.pow_add_r by lia; lia).
  apply Hg; [lia | exact Hmax].
Qed.

Lemma good_here (cap : Z) (key : string) :
  good cap key -> 2 * cap <= max_buckets -> refines_hash cap key.
Proof.
  intros Hg Hmax. specialize (Hg 0 ltac:(lia)).
  rewrite Z.pow_0_r, Z.mul_1_r in Hg. apply Hg. exact Hmax.
Qed.

(** ** Fuel *)

Lemma refines_refl {A : Type} (r : outcome A) : refines r r.
Proof. intros _. reflexivity. Qed.

Lemma refines_Timeout {A : Type} (r : outcome A) : refines Timeout r.
Proof. intros H. congruence. Qed.

Lemma bind_refines {A B : Type} (m m' : outcome A) (f f' : A -> outcome B) :
  refines m m' -> (forall a, refines (f a) (f' a)) ->
  refines (bind m f) (bind m' f').
Proof.
  intros Hm Hf H. destruct m as [a| | |]; simpl in H; try congruence.
  - rewrite Hm by discriminate. simpl. apply Hf. exact H.
  - rewrite Hm by discriminate. reflexivity.
  - rewrite Hm by discriminate. reflexivity.
Qed.

Lemma for_range_refines {St : Type} (n start : nat)
      (body body' : nat -> St -> outcome St) (s : St) :
  (forall i s, refines (body i s) (body' i s)) ->
  refines (for_range n start body s) (for_range n start body' s).
Proof.
  intros Hb. revert start s. induction n as [|n IH]; intros start s; simpl.
  - apply refines_refl.
  - apply bind_refines; [apply Hb | intros a; apply IH].
Qed.

Example trim_ex1 : CourseBuilder.trim "  ab c  " = "ab c".
Proof. reflexivity. Qed.
Example trim_ex2 : CourseBuilder.trim "   " = EmptyString.
Proof. reflexivity. Qed.
Example trim_ex3 : CourseBuilder.trim "x" = "x".
Proof. reflexivity. Qed.
Example filter_ex1 :
  CourseBuilder.filter (String ch_dquote (String.append "a'b" (String ch_tab "c"))) = "abc".
Proof. reflexivity. Qed.

(** ** Facts about the validators *)

Lemma occurs_in_existsb c s :
  occurs_in c s <-> existsb (Ascii.eqb c) (list_ascii_of_string s) = true.
Proof.
  unfold occurs_in. rewrite existsb_exists. split.
  - intros H. exists c. split; [exact H | apply Ascii.eqb_refl].
  - intros (x & Hx & Heq). apply Ascii.eqb_eq in Heq. now subst.
Qed.

Lemma isalpha_letters c : isalpha c = true <-> occurs_in c letters.
Proof.
  rewrite occurs_in_existsb.
  destruct c as [[] [] [] [] [] [] [] []]; vm_compute; split; congruence.
Qed.

Lemma isdigit_digits c : isdigit c = true <-> occurs_in c digits.
Proof.
  rewrite occurs_in_existsb.
  destruct c as [[] [] [] [] [] [] [] []]; vm_compute; split; congruence.
Qed.

Lemma forallb_seq_spec (P : nat -> bool) (a n : nat) :
  forallb P (seq a n) = true <-> (forall i, (a <= i < a + n)%nat -> P i = true).
Proof.
  rewrite forallb_forall. split.
  - intros H i Hi. apply H. apply in_seq. exact Hi.
  - intros H i Hi. apply H. apply in_seq in Hi. exact Hi.
Qed.

Lemma courseNameValidator_shape s :
  CourseBuilder.courseNameValidator s = true <-> identifier_shape s.
Proof.
  unfold CourseBuilder.courseNameValidator, identifier_shape.
  destruct s as [|c s]; simpl empty.
  - split; [discriminate | intros [H _]; discriminate H].
  - destruct (Nat.eqb_spec (String.length (String c s)) 7) as [Hlen|Hlen].
    + destruct (forallb (fun i => isalpha (char_at (String c s) i)) (seq 0 4)) eqn:Ha; cbn [negb].
      * destruct (forallb (fun i => isdigit (char_at (String c s) i)) (seq 4 3)) eqn:Hd;
          cbn [negb].
        -- split; [intros _ | reflexivity].
           split; [exact Hlen | split].
           ++ intros i Hi. apply isalpha_letters.
              apply (proj1 (forallb_seq_spec _ 0 4) Ha). lia.
           ++ intros i Hi. apply isdigit_digits.
              apply (proj1 (forallb_seq_spec _ 4 3) Hd). lia.
        -- split; [discriminate | intros (_ & _ & H)].
           rewrite <- Hd. apply forallb_seq_spec. intros i Hi.
           apply isdigit_digits, H. lia.
      * split; [discriminate | intros (_ & H & _)].
        rewrite <- Ha. apply forallb_seq_spec. intros i Hi.
        apply isalpha_letters, H. lia.
    + split; [discriminate | intros [H _]; contradiction].
Qed.

(** C8. [validateIdentifier] ([CourseBuilder::courseNameValidator]) returns
    true exactly for the strings of length 7 whose first four bytes are ASCII
    letters and whose last three bytes are ASCII digits, and false for every
    string of another length or composition. *)
Theorem C8_validateIdentifier_iff (s : string) :
  (CourseBuilder.courseNameValidator s = true <-> identifier_shape s) /\
  (CourseBuilder.courseNameValidator s = false <-> ~ identifier_shape s).
Proof.
  split; [apply courseNameValidator_shape |].
  rewrite <- courseNameValidator_shape.
  destruct (CourseBuilder.courseNameValidator s); split; congruence.
Qed.

Example validator_ex1 : CourseBuilder.courseNameValidator "CSCI101" = true.
Proof. reflexivity. Qed.
Example validator_ex2 : CourseBuilder.courseNameValidator "CS101" = false.
Proof. reflexivity. Qed.
Example validator_ex3 : CourseBuilder.courseNameValidator "CSC1101" = false.
Proof. reflexivity. Qed.
Example validator_ex4 : CourseBuilder.courseNameValidator "CSCI1010" = false.
Proof. reflexivity. Qed.

(** ** Facts about [builder] *)

Lemma push_back_loop_map {A B : Type} (f : A -> B) (l : list A) (acc : list B) :
  fold_left (fun acc item => acc ++ [f item]) l acc = acc ++ map f l.
Proof.
  revert acc. induction l as [|x l IH]; intros acc; simpl.
  - now rewrite app_nil_r.
  - rewrite IH, <- app_assoc. reflexivity.
Qed.

Lemma collect_prereq_filter (done todo : list string) (acc : list string) :
  CourseBuilder.collect_prereq (length todo) (done ++ todo) (length done) acc =
  acc ++ List.filter CourseBuilder.courseNameValidator todo.
Proof.
  revert done acc. induction todo as [|x todo IH]; intros done acc; simpl.
  - now rewrite app_nil_r.
  - rewrite nth_middle.
    replace (done ++ x :: todo) with ((done ++ [x]) ++ todo)
      by (rewrite <- app_assoc; reflexivity).
    replace (S (length done)) with (length (done ++ [x]))
      by (rewrite length_app; simpl; lia).
    rewrite IH.
    destruct (CourseBuilder.courseNameValidator x); simpl.
    + rewrite <- app_assoc. reflexivity.
    + reflexivity.
Qed.

Lemma builder_unfold input :
  CourseBuilder.builder input =
  if (length (cleaned input) <? 2)%nat then None
  else if negb (CourseBuilder.courseNameValidator (nth 0 (cleaned input) EmptyString))
  then None
  else if negb (CourseBuilder.courseDataValidator (nth 1 (cleaned input) EmptyString))
  then None
  else Some (mkCourse (nth 0 (cleaned input) EmptyString)
                      (nth 1 (cleaned input) EmptyString)
                      (List.filter CourseBuilder.courseNameValidator
                                   (skipn 2 (cleaned input)))).
Proof.
  unfold CourseBuilder.builder.
  rewrite push_back_loop_map. simpl app. fold (cleaned input).
  destruct input as [|a input].
  - reflexivity.
  - rewrite bool_decide_eq_false_2 by discriminate.
    destruct (Nat.ltb_spec (length (cleaned (a :: input))) 2) as [Hlt|Hge];
      [reflexivity |].
    destruct (negb (CourseBuilder.courseNameValidator _)); [reflexivity |].
    destruct (negb (CourseBuilder.courseDataValidator _)); [reflexivity |].
    f_equal. f_equal.
    remember (cleaned (a :: input)) as cd eqn:Hcd.
    destruct cd as [|f0 [|f1 rest]]; simpl in Hge; try lia.
    change (f0 :: f1 :: rest) with ([f0; f1] ++ rest).
    simpl skipn.
    replace (length ([f0; f1] ++ rest) - 2)%nat with (length rest)
      by (simpl; lia).
    destruct (Nat.ltb_spec 2 (length ([f0; f1] ++ rest))) as [H2|H2].
    + exact (collect_prereq_filter [f0; f1] rest []).
    + destruct rest; [reflexivity | simpl in H2; lia].
Qed.

Example builder_ex1 :
  CourseBuilder.builder ["CSCI101"; " Intro to CS "; "MATH101"; "bad"; "CSCI100"] =
  Some (mkCourse "CSCI101" "Intro to CS" ["MATH101"; "CSCI100"]).
Proof. reflexivity. Qed.
Example builder_ex2 : CourseBuilder.builder ["CSCI101"] = None.
Proof. reflexivity. Qed.
Example builder_ex3 : CourseBuilder.builder ["CS101"; "Intro"] = None.
Proof. reflexivity. Qed.

Example hash_ex1 : hash 1024 "CSCI000" = hash 1024 "CSCI121".
Proof. reflexivity. Qed.

Example owned_split_ex1 :
  Owned.LineParser.split quoted_line "," = ["CS10101"; "Intro, to CS"].
Proof. reflexivity. Qed.
Example owned_split_ex2 :
  Owned.LineParser.split ",,a,,b,," "," = [EmptyString; "a"; "b"].
Proof. reflexivity. Qed.
Example universal_split_ex1 :
  Universal.LineParser.split "a,b,,c" "," = ["a"; "b"; "c"].
Proof. reflexivity. Qed.

(** ** [split] *)

Lemma for_chars_push {A : Type} (body : A -> ascii -> A) (s : string) (c : ascii) (acc : A) :
  for_chars body (push_char s c) acc = body (for_chars body s acc) c.
Proof.
  revert acc. induction s as [|x s IH]; intros acc; simpl; [reflexivity | apply IH].
Qed.

Lemma strip_quotes_push (s : string) (c : ascii) :
  Owned.LineParser.strip_quotes (push_char s c) =
  if is_quote c then Owned.LineParser.strip_quotes s
  else push_char (Owned.LineParser.strip_quotes s) c.
Proof.
  unfold Owned.LineParser.strip_quotes. rewrite for_chars_push.
  unfold Owned.LineParser.strip_step at 1, is_quote.
  destruct (Ascii.eqb c ch_dquote), (Ascii.eqb c ch_squote); reflexivity.
Qed.

(** One field of the code is one field of the scan. *)
Lemma scan_field_spec (d : ascii) (line : string) (inQuotes : bool)
      (quoteChar : ascii) (substring : string) :
  spec_scan d line false (quote_state inQuotes quoteChar)
            (Owned.LineParser.strip_quotes substring) =
  let '(substring', from_index) :=
    Owned.LineParser.scan_field d line inQuotes quoteChar substring in
  Owned.LineParser.strip_quotes substring' ::
  spec_scan d (step_over from_index) true None EmptyString.
Proof.
  revert inQuotes quoteChar substring.
  induction line as [|c rest IH]; intros inQuotes quoteChar substring;
    [reflexivity |].
  cbn [spec_scan Owned.LineParser.scan_field andb].
  destruct (is_quote c) eqn:Hq.
  - destruct inQuotes; cbn [quote_state negb].
    + destruct (Ascii.eqb c quoteChar) eqn:Hc.
      * rewrite <- (IH false ch_nul). rewrite strip_quotes_push, Hq. reflexivity.
      * rewrite <- (IH true quoteChar). rewrite strip_quotes_push, Hq. reflexivity.
    + rewrite <- (IH true c). rewrite strip_quotes_push, Hq. reflexivity.
  - destruct (Ascii.eqb c d) eqn:Hd; cbn [andb].
    + destruct inQuotes; cbn [quote_state negb].
      * rewrite bool_decide_eq_true_2 by eauto. cbn [negb].
        rewrite <- (IH true quoteChar). rewrite strip_quotes_push, Hq. reflexivity.
      * rewrite bool_decide_eq_false_2 by (intros [? ?]; discriminate).
        reflexivity.
    + rewrite <- IH. rewrite strip_quotes_push, Hq. reflexivity.
Qed.

Lemma spec_scan_skip (d : ascii) (line : string) :
  spec_scan d line true None EmptyString =
  match skip_delims d line with
  | EmptyString => []
  | String c rest => spec_scan d (String c rest) false None EmptyString
  end.
Proof.
  induction line as [|c rest IH]; [reflexivity |].
  cbn [spec_scan skip_delims andb].
  destruct (Ascii.eqb c d) eqn:Hd; [exact IH |].
  cbn [spec_scan andb]. rewrite Hd. reflexivity.
Qed.

Lemma scan_field_shorter (d : ascii) (line : string) (inQuotes : bool)
      (quoteChar : ascii) (substring : string) :
  (String.length (snd (Owned.LineParser.scan_field d line inQuotes quoteChar substring))
   <= String.length line)%nat.
Proof.
  revert inQuotes quoteChar substring.
  induction line as [|c rest IH]; intros inQuotes quoteChar substring; simpl; [lia |].
  destruct (is_quote c).
  - destruct (negb inQuotes); [specialize (IH true c (push_char substring c)); lia |].
    destruct (Ascii.eqb c quoteChar);
      [specialize (IH false ch_nul (push_char substring c))
      |specialize (IH inQuotes quoteChar (push_char substring c))]; lia.
  - destruct (Ascii.eqb c d && negb inQuotes); simpl; [lia |].
    specialize (IH inQuotes quoteChar (push_char substring c)). lia.
Qed.

Lemma skip_delims_shorter (d : ascii) (line : string) :
  (String.length (skip_delims d line) <= String.length line)%nat.
Proof.
  induction line as [|c rest IH]; simpl; [lia |].
  destruct (Ascii.eqb c d); simpl; lia.
Qed.

Lemma step_over_shorter (line : string) :
  line <> EmptyString ->
  (String.length (step_over line) < String.length line)%nat.
Proof. destruct line; simpl; [congruence | lia]. Qed.

Lemma step_over_le (line : string) :
  (String.length (step_over line) <= String.length line)%nat.
Proof. destruct line; simpl; lia. Qed.

Lemma scan_field_progress (d : ascii) (c : ascii) (rest : string) :
  (String.length
     (skip_delims d (step_over (snd (Owned.LineParser.scan_field d (String c rest)
                                        false ch_nul EmptyString))))
   < String.length (String c rest))%nat.
Proof.
  pose proof (scan_field_shorter d (String c rest) false ch_nul EmptyString) as H1.
  set (r := snd _) in *.
  pose proof (skip_delims_shorter d (step_over r)) as H2.
  destruct r as [|x r'].
  - simpl in *. lia.
  - simpl step_over in *. simpl in H1. simpl. lia.
Qed.

(** The outer loop, given enough rounds, is the scan. *)
Lemma split_loop_spec (d : ascii) (fuel : nat) (line : string) (result : list string) :
  (String.length line <= fuel)%nat ->
  Owned.LineParser.split_loop fuel d line result =
  result ++ match line with
            | EmptyString => []
            | String _ _ => spec_scan d line false None EmptyString
            end.
Proof.
  revert line result. induction fuel as [|fuel IH]; intros line result Hlen.
  - destruct line; simpl in *; [rewrite app_nil_r; reflexivity | lia].
  - destruct line as [|c rest]; [simpl; rewrite app_nil_r; reflexivity |].
    cbn [Owned.LineParser.split_loop].
    pose proof (scan_field_spec d (String c rest) false ch_nul EmptyString) as Hs.
    pose proof (scan_field_progress d c rest) as Hp.
    destruct (Owned.LineParser.scan_field d (String c rest) false ch_nul EmptyString)
      as [substring from_index].
    cbn [quote_state] in Hs. change (Owned.LineParser.strip_quotes EmptyString)
      with EmptyString in Hs.
    rewrite Hs. rewrite spec_scan_skip. simpl snd in Hp.
    cbn [String.length] in Hlen, Hp.
    rewrite IH by lia.
    rewrite <- app_assoc. simpl.
    destruct (skip_delims d (step_over from_index)); reflexivity.
Qed.

(** The [split] of part_000 is the scan of the specification. *)
Lemma owned_split_refines (input delimiter : string) :
  Owned.LineParser.split input delimiter = spec_split input delimiter.
Proof.
  unfold Owned.LineParser.split, spec_split.
  destruct input as [|c rest]; [reflexivity |]. simpl empty. cbv iota.
  rewrite split_loop_spec by lia. reflexivity.
Qed.

Lemma list_ascii_push (acc : string) (x : ascii) :
  list_ascii_of_string (push_char acc x) = list_ascii_of_string acc ++ [x].
Proof.
  unfold push_char. induction acc as [|a acc IH]; simpl; [reflexivity |].
  rewrite IH. reflexivity.
Qed.

Lemma strip_quotes_clean_acc (s acc : string) :
  (forall c, occurs_in c acc -> is_quote c = false) ->
  forall c, occurs_in c (for_chars Owned.LineParser.strip_step s acc) ->
            is_quote c = false.
Proof.
  revert acc. induction s as [|x s IH]; intros acc Hacc; simpl; [exact Hacc |].
  apply IH. intros c. unfold Owned.LineParser.strip_step.
  destruct (is_quote x) eqn:Hx.
  - replace (negb (Ascii.eqb x ch_dquote) && negb (Ascii.eqb x ch_squote)) with false.
    + apply Hacc.
    + unfold is_quote in Hx. destruct (Ascii.eqb x ch_dquote), (Ascii.eqb x ch_squote);
        simpl in *; congruence.
  - replace (negb (Ascii.eqb x ch_dquote) && negb (Ascii.eqb x ch_squote)) with true.
    + unfold occurs_in. rewrite list_ascii_push.
      intros Hc. apply in_app_or in Hc as [Hc|[<-|[]]].
      * apply Hacc. exact Hc.
      * exact Hx.
    + unfold is_quote in Hx. destruct (Ascii.eqb x ch_dquote), (Ascii.eqb x ch_squote);
        simpl in *; congruence.
Qed.

(** No field that the [split] of part_000 produces holds a quotation
    mark. *)
Lemma strip_quotes_clean (s : string) (c : ascii) :
  occurs_in c (Owned.LineParser.strip_quotes s) -> is_quote c = false.
Proof.
  apply strip_quotes_clean_acc. intros x Hx. inversion Hx.
Qed.

Lemma split_loop_clean (d : ascii) (fuel : nat) (line : string) (result : list string) :
  Forall (fun field => forall c, occurs_in c field -> is_quote c = false) result ->
  Forall (fun field => forall c, occurs_in c field -> is_quote c = false)
         (Owned.LineParser.split_loop fuel d line result).
Proof.
  revert line result. induction fuel as [|fuel IH]; intros line result Hres; simpl;
    [exact Hres |].
  destruct line as [|c rest]; [exact Hres |].
  destruct (Owned.LineParser.scan_field d (String c rest) false ch_nul EmptyString)
    as [substring from_index].
  apply IH. apply Forall_app. split; [exact Hres |].
  constructor; [| constructor]. intros x. apply strip_quotes_clean.
Qed.

Lemma owned_split_clean (input delimiter : string) :
  Forall (fun field => forall c, occurs_in c field -> is_quote c = false)
         (Owned.LineParser.split input delimiter).
Proof.
  unfold Owned.LineParser.split. destruct (empty input); [constructor |].
  apply split_loop_clean. constructor.
Qed.

(** The outer loop of the [split] of ProjectTwoUniversal.cpp has finished
    within the rounds it is given. *)
Lemma universal_scan_shorter (d : ascii) (line substring : string) :
  (String.length (snd (Universal.LineParser.scan_field d line substring))
   <= String.length line)%nat.
Proof.
  revert substring. induction line as [|c rest IH]; intros substring; simpl; [lia |].
  destruct (negb (Ascii.eqb c d)); simpl; [| lia].
  specialize (IH (push_char substring c)). lia.
Qed.

Lemma universal_split_loop_fuel (d : ascii) (fuel fuel' : nat) (line : string)
      (result : list string) :
  (String.length line <= fuel)%nat -> (String.length line <= fuel')%nat ->
  Universal.LineParser.split_loop fuel d line result =
  Universal.LineParser.split_loop fuel' d line result.
Proof.
  revert fuel' line result. induction fuel as [|fuel IH]; intros fuel' line result H1 H2.
  - destruct line; simpl in H1; [| lia]. destruct fuel'; reflexivity.
  - destruct fuel' as [|fuel'].
    + destruct line; simpl in H2; [reflexivity | lia].
    + destruct line as [|c rest]; [reflexivity |].
      cbn [Universal.LineParser.split_loop].
      pose proof (universal_scan_shorter d (String c rest) EmptyString) as Hs.
      destruct (Universal.LineParser.scan_field d (String c rest) EmptyString)
        as [substring from_index].
      cbn [snd String.length] in Hs, H1, H2.
      pose proof (skip_delims_shorter d (step_over from_index)) as Hk.
      assert (Hlt : (String.length (skip_delims d (step_over from_index))
                     < S (String.length rest))%nat).
      { destruct from_index as [|x r]; simpl in *; lia. }
      apply IH; lia.
Qed.


(** ** The table of part_000 ([Module Owned]) *)

Lemma for_range_vector {A St : Type} (body : A -> St -> outcome St)
      (done todo : list A) (s : St) :
  for_range (length todo) (length done)
    (fun index s => x <- vector_at (done ++ todo) (Z.of_nat index); body x s) s =
  fold_outcome body todo s.
Proof.
  revert done s. induction todo as [|x todo IH]; intros done s; simpl.
  - reflexivity.
  - unfold vector_at at 1. rewrite Nat2Z.id.
    rewrite list_lookup_middle by reflexivity. simpl.
    destruct (body x s) as [s'| | |]; simpl; try reflexivity.
    replace (done ++ x :: todo) with ((done ++ [x]) ++ todo)
      by (rewrite <- app_assoc; reflexivity).
    replace (S (length done)) with (length (done ++ [x]))
      by (rewrite length_app; simpl; lia).
    apply IH.
Qed.

Lemma for_range_whole {A St : Type} (body : A -> St -> outcome St)
      (v : list A) (n : nat) (s : St) :
  n = length v ->
  for_range n 0
    (fun index s => x <- vector_at v (Z.of_nat index); body x s) s =
  fold_outcome body v s.
Proof. intros ->. exact (for_range_vector body [] v s). Qed.

Lemma place_length capacity bs c : length (place capacity bs c) = length bs.
Proof. unfold place. apply length_insert. Qed.

Lemma rehash_chain_Ret (capacity : Z) (chain : list Course) (bs : list (list Course)) :
  0 < capacity -> length bs = Z.to_nat capacity ->
  Owned.rehash_chain capacity chain bs = Ret (fold_left (place capacity) chain bs).
Proof.
  intros Hcap. revert bs. induction chain as [|c chain IH]; intros bs Hlen; simpl.
  - reflexivity.
  - pose proof (hash_range capacity (getName c) Hcap) as Hr.
    assert (Hj : (Z.to_nat (hash capacity (getName c)) < length bs)%nat) by lia.
    destruct (lookup_lt_is_Some_2 bs _ Hj) as [old Hold].
    unfold vector_at. rewrite Hold. simpl.
    rewrite vector_set_in_range by exact Hj. simpl.
    rewrite IH by (rewrite length_insert; exact Hlen).
    assert (Hp : place capacity bs c =
                 <[Z.to_nat (hash capacity (getName c)) := c :: old]> bs).
    { unfold place. rewrite (list_lookup_total_correct _ _ _ Hold). reflexivity. }
    rewrite Hp. reflexivity.
Qed.

Lemma rehash_all_length capacity old fresh :
  length (rehash_all capacity old fresh) = length fresh.
Proof.
  unfold rehash_all. revert fresh. induction old as [|chain old IH]; intros fresh; simpl.
  - reflexivity.
  - rewrite IH. clear IH. revert fresh.
    induction chain as [|c chain IH]; intros fresh; simpl; [reflexivity |].
    rewrite IH. apply place_length.
Qed.

Lemma fold_rehash_Ret (capacity : Z) (old fresh : list (list Course)) :
  0 < capacity -> length fresh = Z.to_nat capacity ->
  fold_outcome (Owned.rehash_chain capacity) old fresh =
  Ret (rehash_all capacity old fresh).
Proof.
  intros Hcap. unfold rehash_all. revert fresh.
  induction old as [|chain old IH]; intros fresh Hlen; simpl.
  - reflexivity.
  - rewrite rehash_chain_Ret by assumption. simpl.
    apply IH.
    change (length (rehash_all capacity [chain] fresh) = Z.to_nat capacity).
    rewrite rehash_all_length. exact Hlen.
Qed.

(** What [resize] does to a table whose vector has [capacity] buckets. *)
Lemma resize_Ret (t : Owned.DataStructure) :
  0 < Owned.capacity t -> 2 * Owned.capacity t <= max_buckets ->
  length (Owned.buckets t) = Z.to_nat (Owned.capacity t) ->
  Owned.resize t =
  Ret (Owned.set_buckets (Owned.set_capacity t (2 * Owned.capacity t))
         (rehash_all (2 * Owned.capacity t) (Owned.buckets t)
                     (replicate (Z.to_nat (2 * Owned.capacity t)) []))).
Proof.
  intros Hpos Hmax Hlen. unfold Owned.resize.
  assert (Hw : wrap64 (Owned.capacity t * 2) = 2 * Owned.capacity t).
  { rewrite wrap64_small; [lia |]. unfold max_buckets in Hmax. lia. }
  rewrite Hw.
  rewrite (proj2 (vector_resize_fresh (2 * Owned.capacity t) []
                    (replicate (Z.to_nat (2 * Owned.capacity t)) [])))
    by (split; [exact Hmax | reflexivity]).
  simpl bind.
  rewrite (for_range_whole (Owned.rehash_chain (2 * Owned.capacity t)))
    by (symmetry; exact Hlen).
  rewrite fold_rehash_Ret by (try rewrite length_replicate; lia).
  reflexivity.
Qed.

Lemma resize_Throws (t : Owned.DataStructure) :
  0 < Owned.capacity t <= max_buckets -> max_buckets < 2 * Owned.capacity t ->
  Owned.resize t = Throws.
Proof.
  intros Hpos Hmax. unfold Owned.resize.
  assert (Hw : wrap64 (Owned.capacity t * 2) = 2 * Owned.capacity t).
  { rewrite wrap64_small; [lia |]. unfold max_buckets in Hpos. lia. }
  rewrite Hw. unfold vector_resize.
  destruct (Z.ltb_spec max_buckets (2 * Owned.capacity t)); [reflexivity | lia].
Qed.

(** *** The rehash keeps every course *)

Lemma concat_insert_cons (bs : list (list Course)) (j : nat) (c : Course) :
  (j < length bs)%nat ->
  concat (<[j := c :: bs !!! j]> bs) ≡ₚ c :: concat bs.
Proof.
  intros Hj. destruct (lookup_lt_is_Some_2 bs j Hj) as [old Hold].
  rewrite (list_lookup_total_correct _ _ _ Hold).
  rewrite insert_take_drop by exact Hj.
  rewrite <- (take_drop_middle bs j old Hold) at 3.
  rewrite !concat_app. simpl.
  symmetry. apply Permutation_middle.
Qed.

Lemma place_Permutation (capacity : Z) (bs : list (list Course)) (c : Course) :
  0 < capacity -> length bs = Z.to_nat capacity ->
  concat (place capacity bs c) ≡ₚ c :: concat bs.
Proof.
  intros Hcap Hlen. unfold place. apply concat_insert_cons.
  pose proof (hash_range capacity (getName c) Hcap). lia.
Qed.

Lemma place_chain_Permutation (capacity : Z) (chain : list Course)
      (bs : list (list Course)) :
  0 < capacity -> length bs = Z.to_nat capacity ->
  concat (fold_left (place capacity) chain bs) ≡ₚ chain ++ concat bs.
Proof.
  intros Hcap. revert bs. induction chain as [|c chain IH]; intros bs Hlen; simpl.
  - reflexivity.
  - rewrite IH by (rewrite place_length; exact Hlen).
    rewrite place_Permutation by assumption.
    symmetry. apply Permutation_middle.
Qed.

Lemma rehash_all_Permutation (capacity : Z) (old fresh : list (list Course)) :
  0 < capacity -> length fresh = Z.to_nat capacity ->
  concat (rehash_all capacity old fresh) ≡ₚ concat old ++ concat fresh.
Proof.
  intros Hcap. unfold rehash_all. revert fresh.
  induction old as [|chain old IH]; intros fresh Hlen; simpl.
  - reflexivity.
  - rewrite IH.
    + rewrite place_chain_Permutation by assumption.
      rewrite <- app_assoc. apply Permutation_app_swap_app.
    + change (length (rehash_all capacity [chain] fresh) = Z.to_nat capacity).
      rewrite rehash_all_length. exact Hlen.
Qed.

Lemma concat_replicate_nil {A : Type} (n : nat) : concat (replicate n (@nil A)) = [].
Proof. induction n; simpl; auto. Qed.

(** *** The rehash puts every course in its bucket *)

Lemma homed_fresh (capacity : Z) (n : nat) : homed capacity (replicate n []).
Proof.
  intros i chain c Hi Hc. apply lookup_replicate_1 in Hi as [-> _].
  inversion Hc.
Qed.

Lemma place_homed (capacity : Z) (bs : list (list Course)) (c : Course) :
  0 < capacity -> homed capacity bs -> homed capacity (place capacity bs c).
Proof.
  intros Hcap Hh i chain x Hi Hx. unfold place in Hi.
  pose proof (hash_range capacity (getName c) Hcap) as Hr.
  destruct (decide (i = Z.to_nat (hash capacity (getName c)))) as [->|Hne].
  - destruct (decide (Z.to_nat (hash capacity (getName c)) < length bs)%nat) as [Hlt|Hge].
    + rewrite list_lookup_insert_eq in Hi by exact Hlt. injection Hi as <-.
      apply elem_of_cons in Hx as [->|Hx]; [lia |].
      destruct (lookup_lt_is_Some_2 bs _ Hlt) as [old Hold].
      rewrite (list_lookup_total_correct _ _ _ Hold) in Hx.
      exact (Hh _ _ _ Hold Hx).
    + rewrite list_insert_ge in Hi by lia. exact (Hh _ _ _ Hi Hx).
  - rewrite list_lookup_insert_ne in Hi by congruence. exact (Hh _ _ _ Hi Hx).
Qed.

Lemma rehash_all_homed (capacity : Z) (old fresh : list (list Course)) :
  0 < capacity -> homed capacity fresh -> homed capacity (rehash_all capacity old fresh).
Proof.
  intros Hcap. unfold rehash_all. revert fresh.
  induction old as [|chain old IH]; intros fresh Hf; simpl; [exact Hf |].
  apply IH. clear IH. revert fresh Hf.
  induction chain as [|c chain IH]; intros fresh Hf; simpl; [exact Hf |].
  apply IH. apply place_homed; assumption.
Qed.

(** *** One node per chain *)

Lemma chains_ok_homed capacity bs : chains_ok capacity bs -> homed capacity bs.
Proof. intros H i chain c Hi Hc. exact (proj2 (H i chain Hi) c Hc). Qed.

Lemma chains_ok_NoDup_offset (f : Course -> Z) (bs : list (list Course)) (k : nat) :
  (forall i chain, bs !! i = Some chain ->
     (length chain <= 1)%nat /\ forall c, c ∈ chain -> f c = Z.of_nat (k + i)) ->
  NoDup (f <$> concat bs) /\ forall c, c ∈ concat bs -> Z.of_nat k <= f c.
Proof.
  revert k. induction bs as [|chain bs IH]; intros k H; simpl.
  - split; [constructor | intros c Hc; inversion Hc].
  - destruct (H 0%nat chain eq_refl) as [Hlen Hhome].
    destruct (IH (S k)) as [Hnd Hge].
    { intros i ch Hi. destruct (H (S i) ch Hi) as [Hl Hh]. split; [exact Hl |].
      intros c Hc. rewrite (Hh c Hc). lia. }
    split.
    + rewrite fmap_app. apply NoDup_app. split; [| split].
      * destruct chain as [|x [|y chain]]; simpl in *; try lia.
        -- constructor.
        -- apply NoDup_singleton.
      * intros v Hv Hv'.
        apply list_elem_of_fmap in Hv as (x & -> & Hx).
        apply list_elem_of_fmap in Hv' as (y & Hxy & Hy).
        specialize (Hhome x Hx). specialize (Hge y Hy). lia.
      * exact Hnd.
    + intros c Hc. apply elem_of_app in Hc as [Hc|Hc].
      * rewrite (Hhome c Hc). lia.
      * specialize (Hge c Hc). lia.
Qed.

Lemma chains_ok_NoDup (capacity : Z) (bs : list (list Course)) :
  chains_ok capacity bs ->
  NoDup ((fun c => hash capacity (getName c)) <$> concat bs).
Proof.
  intros H. apply (chains_ok_NoDup_offset _ bs 0). exact H.
Qed.

Lemma NoDup_concat_lookup {B : Type} (f : Course -> B) (bs : list (list Course))
      (i : nat) (chain : list Course) :
  NoDup (f <$> concat bs) -> bs !! i = Some chain -> NoDup (f <$> chain).
Proof.
  intros Hnd Hi. rewrite <- (take_drop_middle bs i chain Hi) in Hnd.
  rewrite concat_app in Hnd. simpl in Hnd. rewrite !fmap_app in Hnd.
  apply NoDup_app in Hnd as (_ & _ & Hnd).
  apply NoDup_app in Hnd as (Hnd & _ & _). exact Hnd.
Qed.

Lemma homed_NoDup_chains_ok (capacity : Z) (bs : list (list Course)) :
  homed capacity bs ->
  NoDup ((fun c => hash capacity (getName c)) <$> concat bs) ->
  chains_ok capacity bs.
Proof.
  intros Hh Hnd i chain Hi. split; [| intros c Hc; exact (Hh i chain c Hi Hc)].
  pose proof (NoDup_concat_lookup _ bs i chain Hnd Hi) as Hc.
  destruct chain as [|x [|y chain]]; simpl; try lia.
  exfalso. simpl in Hc. apply NoDup_cons in Hc as [Hx _].
  apply Hx. rewrite (Hh i _ x Hi) by (left).
  rewrite <- (Hh i _ y Hi) by (right; left). left.
Qed.

Lemma NoDup_fmap_refine {B : Type} (f f' : Course -> B) (g : B -> B) (l : list Course) :
  (forall x, x ∈ l -> f x = g (f' x)) -> NoDup (f <$> l) -> NoDup (f' <$> l).
Proof.
  induction l as [|x l IH]; simpl; intros Hg Hnd; [constructor |].
  apply NoDup_cons in Hnd as [Hx Hnd]. apply NoDup_cons. split.
  - intros Hin. apply Hx.
    apply list_elem_of_fmap in Hin as (y & Hxy & Hy).
    apply list_elem_of_fmap. exists y. split; [| exact Hy].
    rewrite (Hg x) by left. rewrite (Hg y) by (right; exact Hy). congruence.
  - apply IH; [| exact Hnd]. intros y Hy. apply Hg. right. exact Hy.
Qed.

(** [resize] keeps the one-node chains of a table when doubling refines
    the bucket of every stored name. *)
Lemma rehash_chains_ok (cap : Z) (old : list (list Course)) :
  0 < cap -> 2 * cap <= max_buckets ->
  (forall c, c ∈ concat old -> refines_hash cap (getName c)) ->
  chains_ok cap old ->
  chains_ok (2 * cap) (rehash_all (2 * cap) old (replicate (Z.to_nat (2 * cap)) [])).
Proof.
  intros Hcap Hmax Href Hok.
  apply homed_NoDup_chains_ok.
  - apply rehash_all_homed; [lia | apply homed_fresh].
  - rewrite rehash_all_Permutation by (try rewrite length_replicate; lia).
    rewrite concat_replicate_nil, app_nil_r.
    apply (NoDup_fmap_refine (fun c => hash cap (getName c)) _ (fun v => v mod cap)).
    + intros x Hx. symmetry. apply Href. exact Hx.
    + apply chains_ok_NoDup. exact Hok.
Qed.

(** *** The walks along a chain *)

Lemma duplicate_walk_found (key : string) (chain : list Course) (x : Course) :
  Owned.find_course key chain = Some x ->
  exists rest, Owned.duplicate_walk key chain = (true, x :: rest) /\
               getName x = key.
Proof.
  induction chain as [|y chain IH]; simpl; [discriminate |].
  destruct (String.eqb_spec (getName y) key) as [Heq|Hne].
  - intros [= ->]. eauto.
  - exact IH.
Qed.

Lemma duplicate_walk_not_found (key : string) (chain : list Course) :
  Owned.find_course key chain = None ->
  Owned.duplicate_walk key chain = (false, []).
Proof.
  induction chain as [|y chain IH]; simpl; [reflexivity |].
  destruct (String.eqb (getName y) key); [discriminate | exact IH].
Qed.

Lemma find_course_name (key : string) (chain : list Course) (x : Course) :
  Owned.find_course key chain = Some x -> getName x = key /\ x ∈ chain.
Proof.
  induction chain as [|y chain IH]; simpl; [discriminate |].
  destruct (String.eqb_spec (getName y) key) as [Heq|Hne].
  - intros [= ->]. split; [exact Heq | left].
  - intros H. destruct (IH H). split; [assumption | right; assumption].
Qed.

Lemma inject_walk_Ret (fuel : nat) (key : string) (chain : list Course)
      (remaining : list Course) (printed : list string) :
  Owned.inject_walk fuel key chain = Ret (remaining, printed) ->
  remaining = [] /\ printed = [] /\ Owned.find_course key chain = None.
Proof.
  revert chain remaining printed.
  induction fuel as [|fuel IH]; intros chain remaining printed; simpl; [discriminate |].
  destruct chain as [|x chain]; simpl.
  - intros [= <- <-]. auto.
  - destruct (String.eqb (getName x) key) eqn:Hx.
    + intros H. inv_bind H. destruct a as [r p].
      apply IH in Hret as (_ & _ & Hfind). simpl in Hfind.
      rewrite Hx in Hfind. discriminate.
    + apply IH.
Qed.

Lemma inject_walk_enough (key : string) (chain : list Course) (fuel : nat) :
  Owned.find_course key chain = None -> (length chain < fuel)%nat ->
  Owned.inject_walk fuel key chain = Ret ([], []).
Proof.
  revert chain. induction fuel as [|fuel IH]; intros chain Hfind Hlen; [lia |].
  destruct chain as [|x chain]; simpl in *; [reflexivity |].
  destruct (String.eqb (getName x) key); [discriminate |].
  apply IH; [exact Hfind | lia].
Qed.

(** A duplicate at the head of the chain keeps [inject] in its inner loop
    for ever. *)
Lemma inject_walk_diverges (key : string) (x : Course) (chain : list Course) :
  getName x = key ->
  forall fuel, Owned.inject_walk fuel key (x :: chain) = Timeout.
Proof.
  intros Hx fuel. induction fuel as [|fuel IH]; simpl; [reflexivity |].
  rewrite Hx, String.eqb_refl. rewrite IH. reflexivity.
Qed.

Lemma remove_walk_sub (courseName : string) (chain : list Course) (b : bool)
      (found : bool) (remaining : list Course) :
  Owned.remove_walk courseName chain b = (found, remaining) ->
  (length remaining <= length chain)%nat /\ forall c, c ∈ remaining -> c ∈ chain.
Proof.
  revert b. induction chain as [|x chain IH]; intros b; simpl.
  - intros [= <- <-]. simpl. split; [lia | auto].
  - destruct (String.eqb (getName x) courseName).
    + intros [= <- <-]. destruct b; simpl.
      * split; [lia | intros c Hc; right; exact Hc].
      * split; [lia | auto].
    + intros H. apply IH in H as [Hl Hin]. split; [lia |].
      intros c Hc. right. auto.
Qed.

(** *** The calls on a table with [capacity] buckets *)

Lemma sized_index (t : Owned.DataStructure) (key : string) :
  sized t ->
  (Z.to_nat (hash (Owned.capacity t) key) < length (Owned.buckets t))%nat.
Proof.
  intros [Hcap Hlen].
  pose proof (hash_range (Owned.capacity t) key ltac:(lia)). lia.
Qed.

Lemma sized_bucket (t : Owned.DataStructure) (key : string) :
  sized t ->
  vector_at (Owned.buckets t) (hash (Owned.capacity t) key) =
  Ret (Owned.buckets t !!! Z.to_nat (hash (Owned.capacity t) key)).
Proof.
  intros Hs. pose proof (sized_index t key Hs) as Hi.
  destruct (lookup_lt_is_Some_2 _ _ Hi) as [chain Hc].
  unfold vector_at. rewrite Hc.
  rewrite (list_lookup_total_correct _ _ _ Hc). reflexivity.
Qed.

Lemma get_sized (t : Owned.DataStructure) (courseName : string) :
  sized t ->
  Owned.get t courseName =
  if empty courseName then Ret None
  else Ret (Owned.find_course courseName
              (Owned.buckets t !!! Z.to_nat (hash (Owned.capacity t) courseName))).
Proof.
  intros Hs. unfold Owned.get. destruct (empty courseName); [reflexivity |].
  rewrite sized_bucket by exact Hs. reflexivity.
Qed.

Lemma insert_sized (t : Owned.DataStructure) (c : Course) :
  sized t ->
  let i := Z.to_nat (hash (Owned.capacity t) (getName c)) in
  let bs := Owned.buckets t in
  Owned.insert t (Some c) =
  let '(duplicate, remaining) := Owned.duplicate_walk (getName c) (bs !!! i) in
  if duplicate then
    Ret (Owned.set_buckets t (<[i := remaining]> bs),
         [String.append "Duplicate course: " (getName c)])
  else
    let t1 := Owned.set_size (Owned.set_buckets t (<[i := c :: remaining]> bs))
                             (wrap64 (Owned.size t + 1)) in
    t2 <- (if load_exceeds (Owned.size t1) (Owned.capacity t1)
           then Owned.resize t1 else Ret t1);
    Ret (Owned.set_sorted t2 false, []).
Proof.
  intros Hs i bs. unfold Owned.insert.
  rewrite sized_bucket by exact Hs. simpl bind. fold i. fold bs.
  destruct (Owned.duplicate_walk (getName c) (bs !!! i)) as [dup remaining].
  pose proof (sized_index t (getName c) Hs) as Hi. fold i in Hi. fold bs in Hi.
  rewrite vector_set_in_range by exact Hi. simpl bind. fold i.
  destruct dup; [reflexivity |].
  rewrite vector_set_in_range by (rewrite length_insert; exact Hi).
  simpl bind. fold i. rewrite list_insert_insert_eq. reflexivity.
Qed.

Lemma duplicate_walk_cases (key : string) (chain : list Course) :
  (exists x rest,
      Owned.duplicate_walk key chain = (true, x :: rest) /\
      Owned.find_course key chain = Some x /\
      (length (x :: rest) <= length chain)%nat /\
      forall c, c ∈ x :: rest -> c ∈ chain) \/
  (Owned.duplicate_walk key chain = (false, []) /\
   Owned.find_course key chain = None).
Proof.
  induction chain as [|y chain IH]; simpl.
  - right. auto.
  - destruct (String.eqb (getName y) key).
    + left. exists y, chain. repeat split; auto.
    + destruct IH as [(x & rest & Hw & Hf & Hl & Hin)|[Hw Hf]].
      * left. exists x, rest. repeat split; auto.
        intros c Hc. right. auto.
      * right. auto.
Qed.

Lemma short_chain_cases (chain : list Course) :
  (length chain <= 1)%nat -> chain = [] \/ exists x, chain = [x].
Proof.
  destruct chain as [|x [|y chain]]; simpl; intros H; eauto. lia.
Qed.

Lemma set_buckets_same (t : Owned.DataStructure) :
  Owned.set_buckets t (Owned.buckets t) = t.
Proof. destruct t. reflexivity. Qed.

Lemma resize_cases (t : Owned.DataStructure) :
  sized t ->
  (2 * Owned.capacity t <= max_buckets /\ Owned.resize t = Ret (resized t)) \/
  (max_buckets < 2 * Owned.capacity t /\ Owned.resize t = Throws).
Proof.
  intros [Hcap Hlen].
  destruct (Z_le_gt_dec (2 * Owned.capacity t) max_buckets) as [Hle|Hgt].
  - left. split; [exact Hle |]. apply resize_Ret; [lia | exact Hle | exact Hlen].
  - right. split; [lia |]. apply resize_Throws; lia.
Qed.

Lemma resized_sized (t : Owned.DataStructure) :
  sized t -> 2 * Owned.capacity t <= max_buckets -> sized (resized t).
Proof.
  intros [Hcap Hlen] Hmax. unfold sized, resized. simpl. split; [lia |].
  rewrite rehash_all_length, length_replicate. reflexivity.
Qed.

Lemma resized_entries (t : Owned.DataStructure) :
  sized t -> entries (resized t) ≡ₚ entries t.
Proof.
  intros [Hcap Hlen]. unfold entries, resized. simpl.
  rewrite rehash_all_Permutation by (try rewrite length_replicate; lia).
  rewrite concat_replicate_nil, app_nil_r. reflexivity.
Qed.

Lemma resized_Inv (t : Owned.DataStructure) :
  Inv t -> 2 * Owned.capacity t <= max_buckets -> Inv (resized t).
Proof.
  intros [Hs Hgood Hok] Hmax. constructor.
  - apply resized_sized; assumption.
  - intros c Hc. rewrite (resized_entries t Hs) in Hc.
    simpl. apply good_double. apply Hgood. exact Hc.
  - simpl. destruct Hs as [Hcap _].
    apply rehash_chains_ok; [lia | exact Hmax | | exact Hok].
    intros c Hc. apply good_here; [apply Hgood; exact Hc | exact Hmax].
Qed.

Lemma chains_ok_update (capacity : Z) (bs : list (list Course)) (i : nat)
      (chain : list Course) :
  chains_ok capacity bs ->
  (length chain <= 1)%nat ->
  (forall c, c ∈ chain -> hash capacity (getName c) = Z.of_nat i) ->
  chains_ok capacity (<[i := chain]> bs).
Proof.
  intros Hok Hlen Hhome j ch Hj.
  destruct (decide (i = j)) as [<-|Hne].
  - destruct (decide (i < length bs)%nat) as [Hlt|Hge].
    + rewrite list_lookup_insert_eq in Hj by exact Hlt. injection Hj as <-. auto.
    + rewrite list_insert_ge in Hj by lia. exact (Hok _ _ Hj).
  - rewrite list_lookup_insert_ne in Hj by exact Hne. exact (Hok _ _ Hj).
Qed.

Lemma chains_ok_fresh (capacity : Z) (n : nat) : chains_ok capacity (replicate n []).
Proof.
  intros i chain Hi. apply lookup_replicate_1 in Hi as [-> _]. simpl.
  split; [lia | intros c Hc; inversion Hc].
Qed.

Lemma inserted_sized (t : Owned.DataStructure) (c : Course) :
  sized t -> sized (inserted t c).
Proof.
  intros [Hcap Hlen]. unfold sized, inserted. simpl.
  rewrite length_insert. auto.
Qed.

Lemma elem_of_concat (c : Course) (bs : list (list Course)) :
  c ∈ concat bs <-> exists i chain, bs !! i = Some chain /\ c ∈ chain.
Proof.
  rewrite list_elem_of_In, in_concat. split.
  - intros (chain & Hchain & Hc). apply list_elem_of_In in Hchain.
    apply list_elem_of_lookup in Hchain as [i Hi].
    exists i, chain. split; [exact Hi | apply list_elem_of_In; exact Hc].
  - intros (i & chain & Hi & Hc). exists chain. split.
    + apply list_elem_of_In. eapply list_elem_of_lookup_2. exact Hi.
    + apply list_elem_of_In. exact Hc.
Qed.

(** Overwriting one bucket brings in no course but those of the new
    chain. *)
Lemma elem_of_concat_insert (c : Course) (bs : list (list Course)) (i : nat)
      (chain : list Course) :
  c ∈ concat (<[i := chain]> bs) -> c ∈ chain \/ c ∈ concat bs.
Proof.
  intros Hc. apply elem_of_concat in Hc as (j & ch & Hj & Hc).
  destruct (decide (i = j)) as [<-|Hne].
  - destruct (decide (i < length bs)%nat) as [Hlt|Hge].
    + rewrite list_lookup_insert_eq in Hj by exact Hlt. injection Hj as <-. auto.
    + rewrite list_insert_ge in Hj by lia. right. apply elem_of_concat. eauto.
  - rewrite list_lookup_insert_ne in Hj by exact Hne.
    right. apply elem_of_concat. eauto.
Qed.

Lemma inserted_Inv (t : Owned.DataStructure) (c : Course) :
  Inv t -> good (Owned.capacity t) (getName c) -> Inv (inserted t c).
Proof.
  intros [Hs Hgood Hok] Hc. constructor.
  - apply inserted_sized. exact Hs.
  - intros x Hx. unfold entries, inserted in Hx. cbn [Owned.buckets] in Hx.
    apply elem_of_concat_insert in Hx as [Hx|Hx].
    + apply list_elem_of_singleton in Hx as ->. exact Hc.
    + apply Hgood. exact Hx.
  - unfold inserted. simpl. apply chains_ok_update; [exact Hok | simpl; lia |].
    intros x Hx. apply list_elem_of_singleton in Hx as ->.
    destruct Hs as [Hcap _].
    pose proof (hash_range (Owned.capacity t) (getName c) ltac:(lia)). lia.
Qed.

(** [insert] of a name the chain does not hold, on a table with
    [capacity] buckets whose chain was emptied by the walk. *)
Lemma insert_new (t : Owned.DataStructure) (c : Course) :
  sized t ->
  Owned.find_course (getName c)
    (Owned.buckets t !!! Z.to_nat (hash (Owned.capacity t) (getName c))) = None ->
  Owned.insert t (Some c) =
  t2 <- (if load_exceeds (wrap64 (Owned.size t + 1)) (Owned.capacity t)
         then Owned.resize (inserted t c) else Ret (inserted t c));
  Ret (Owned.set_sorted t2 false, []).
Proof.
  intros Hs Hfind. rewrite insert_sized by exact Hs. cbv zeta.
  rewrite (duplicate_walk_not_found _ _ Hfind). reflexivity.
Qed.

(** [insert] of a name that heads its chain: nothing changes. *)
Lemma insert_duplicate_head (t : Owned.DataStructure) (c x : Course)
      (rest : list Course) :
  sized t ->
  Owned.buckets t !! Z.to_nat (hash (Owned.capacity t) (getName c)) = Some (x :: rest) ->
  getName x = getName c ->
  Owned.insert t (Some c) =
  Ret (t, [String.append "Duplicate course: " (getName c)]).
Proof.
  intros Hs Hb Hx. rewrite insert_sized by exact Hs. cbv zeta.
  rewrite (list_lookup_total_correct _ _ _ Hb). simpl.
  rewrite Hx, String.eqb_refl.
  rewrite list_insert_id by exact Hb. rewrite set_buckets_same. reflexivity.
Qed.

Lemma Inv_chain (t : Owned.DataStructure) (key : string) :
  Inv t ->
  let chain := Owned.buckets t !!! Z.to_nat (hash (Owned.capacity t) key) in
  Owned.buckets t !! Z.to_nat (hash (Owned.capacity t) key) = Some chain /\
  (chain = [] \/ exists x, chain = [x]).
Proof.
  intros [Hs _ Hok] chain.
  pose proof (sized_index t key Hs) as Hi.
  destruct (lookup_lt_is_Some_2 _ _ Hi) as [ch Hc].
  subst chain. rewrite (list_lookup_total_correct _ _ _ Hc).
  split; [exact Hc |]. apply short_chain_cases. exact (proj1 (Hok _ _ Hc)).
Qed.

Lemma insert_Inv (t : Owned.DataStructure) (course : option Course)
      (t' : Owned.DataStructure) (out : list string) :
  Inv t -> (forall c, course = Some c -> good (Owned.capacity t) (getName c)) ->
  Owned.insert t course = Ret (t', out) -> Inv t'.
Proof.
  intros HI Hc H. destruct course as [c|]; [| injection H as <- <-; exact HI].
  specialize (Hc c eq_refl).
  pose proof HI as [Hs Hgood Hok].
  assert (Hnew : forall a,
             (if load_exceeds (wrap64 (Owned.size t + 1)) (Owned.capacity t)
              then Owned.resize (inserted t c) else Ret (inserted t c)) = Ret a ->
             Inv (Owned.set_sorted a false)).
  { intros a Hret.
    assert (Inv a) as [? ? ?]; [| constructor; assumption].
    destruct (load_exceeds _ _).
    - destruct (resize_cases (inserted t c) (inserted_sized t c Hs))
        as [[Hmax Hr]|[_ Hr]]; rewrite Hr in Hret; [| discriminate].
      injection Hret as <-.
      apply resized_Inv; [apply inserted_Inv; assumption | exact Hmax].
    - injection Hret as <-. apply inserted_Inv; assumption. }
  destruct (Inv_chain t (getName c) HI) as [Hb [Hnil|[x Hx]]].
  - rewrite insert_new in H by (try rewrite Hnil; auto).
    inv_bind H. injection H as <- <-. apply Hnew. exact Hret.
  - rewrite Hx in Hb.
    destruct (String.eqb_spec (getName x) (getName c)) as [Heq|Hne].
    + rewrite (insert_duplicate_head t c x [] Hs Hb Heq) in H.
      injection H as <- <-. exact HI.
    + rewrite insert_new in H.
      2: exact Hs.
      2: { rewrite Hx. simpl. apply String.eqb_neq in Hne. rewrite Hne. reflexivity. }
      inv_bind H. injection H as <- <-. apply Hnew. exact Hret.
Qed.

Lemma insert_new_result (t : Owned.DataStructure) (c : Course)
      (t' : Owned.DataStructure) (out : list string) :
  sized t ->
  Owned.find_course (getName c)
    (Owned.buckets t !!! Z.to_nat (hash (Owned.capacity t) (getName c))) = None ->
  Owned.insert t (Some c) = Ret (t', out) ->
  out = [] /\
  ((load_exceeds (wrap64 (Owned.size t + 1)) (Owned.capacity t) = true /\
    2 * Owned.capacity t <= max_buckets /\
    t' = Owned.set_sorted (resized (inserted t c)) false) \/
   (load_exceeds (wrap64 (Owned.size t + 1)) (Owned.capacity t) = false /\
    t' = Owned.set_sorted (inserted t c) false)).
Proof.
  intros Hs Hfind H. rewrite insert_new in H by assumption.
  inv_bind H. injection H as <- <-. split; [reflexivity |].
  destruct (load_exceeds _ _).
  - left. destruct (resize_cases (inserted t c) (inserted_sized t c Hs))
      as [[Hmax Hr]|[_ Hr]]; rewrite Hr in Hret; [| discriminate].
    injection Hret as <-. auto.
  - right. injection Hret as <-. auto.
Qed.

Lemma insert_keeps_sized (t : Owned.DataStructure) (course : option Course)
      (t' : Owned.DataStructure) (out : list string) :
  sized t -> Owned.insert t course = Ret (t', out) -> sized t'.
Proof.
  intros Hs H. destruct course as [c|]; [| injection H as <- <-; exact Hs].
  rewrite insert_sized in H by exact Hs. cbv zeta in H.
  destruct (Owned.duplicate_walk _ _) as [[] remaining].
  - injection H as <- <-. destruct Hs as [Hcap Hlen].
    split; simpl; [exact Hcap | rewrite length_insert; exact Hlen].
  - inv_bind H. injection H as <- <-.
    set (t1 := Owned.set_size _ _) in Hret.
    assert (Hs1 : sized t1).
    { destruct Hs as [Hcap Hlen].
      split; simpl; [exact Hcap | rewrite length_insert; exact Hlen]. }
    assert (sized a) as [? ?]; [| split; assumption].
    destruct (load_exceeds _ _).
    + destruct (resize_cases t1 Hs1) as [[Hmax Hr]|[_ Hr]];
        rewrite Hr in Hret; [| discriminate].
      injection Hret as <-. apply resized_sized; assumption.
    + injection Hret as <-. exact Hs1.
Qed.

Lemma remove_sized (t : Owned.DataStructure) (courseName : string) :
  sized t ->
  let i := Z.to_nat (hash (Owned.capacity t) courseName) in
  Owned.remove t courseName =
  if empty courseName then Ret (t, ["Unable to remove empty course!"])
  else
    let '(found, remaining) :=
      Owned.remove_walk courseName (Owned.buckets t !!! i) true in
    if found then
      Ret (Owned.set_sorted
             (Owned.set_size (Owned.set_buckets t (<[i := remaining]> (Owned.buckets t)))
                             (wrap64 (Owned.size t - 1))) false, [])
    else
      Ret (Owned.set_buckets t (<[i := remaining]> (Owned.buckets t)),
           [String.append "Course not found: " courseName]).
Proof.
  intros Hs i. unfold Owned.remove. destruct (empty courseName); [reflexivity |].
  rewrite sized_bucket by exact Hs. simpl bind. fold i.
  destruct (Owned.remove_walk _ _ _) as [found remaining].
  rewrite vector_set_in_range by (apply sized_index; exact Hs).
  reflexivity.
Qed.

Lemma remove_keeps_sized (t : Owned.DataStructure) (courseName : string)
      (t' : Owned.DataStructure) (out : list string) :
  sized t -> Owned.remove t courseName = Ret (t', out) -> sized t'.
Proof.
  intros Hs H. rewrite remove_sized in H by exact Hs. cbv zeta in H.
  destruct (empty courseName); [injection H as <- <-; exact Hs |].
  destruct (Owned.remove_walk _ _ _) as [[] remaining];
    injection H as <- <-; destruct Hs as [Hcap Hlen];
    (split; simpl; [exact Hcap | rewrite length_insert; exact Hlen]).
Qed.

Lemma remove_Inv (t : Owned.DataStructure) (courseName : string)
      (t' : Owned.DataStructure) (out : list string) :
  Inv t -> Owned.remove t courseName = Ret (t', out) -> Inv t'.
Proof.
  intros HI H. pose proof HI as [Hs Hgood Hok].
  pose proof (remove_keeps_sized _ _ _ _ Hs H) as Hs'.
  rewrite remove_sized in H by exact Hs. cbv zeta in H.
  destruct (empty courseName); [injection H as <- <-; exact HI |].
  destruct (Inv_chain t courseName HI) as [Hb _].
  destruct (Owned.remove_walk _ _ _) as [found remaining] eqn:Hw.
  apply remove_walk_sub in Hw as [Hl Hin].
  destruct (Hok _ _ Hb) as [Hlen Hhome].
  set (i := Z.to_nat (hash (Owned.capacity t) courseName)) in *.
  assert (Hok' : chains_ok (Owned.capacity t) (<[i := remaining]> (Owned.buckets t))).
  { apply chains_ok_update; [exact Hok | lia |].
    intros c Hc. exact (Hhome c (Hin c Hc)). }
  assert (Hgood' : forall c, c ∈ concat (<[i := remaining]> (Owned.buckets t)) ->
                             good (Owned.capacity t) (getName c)).
  { intros c Hc. apply Hgood. apply elem_of_concat_insert in Hc as [Hc|Hc]; [| exact Hc].
    apply elem_of_concat. exists i, (Owned.buckets t !!! i). split; [exact Hb | auto]. }
  destruct found; injection H as <- <-; (constructor; [exact Hs' | exact Hgood' | exact Hok']).
Qed.

Lemma inject_loop_Inv (fuel : nat) (capacity : Z) (newCourses : list (option Course))
      (bs : list (list Course)) (out : list string)
      (bs' : list (list Course)) (out' : list string) :
  0 < capacity -> length bs = Z.to_nat capacity -> chains_ok capacity bs ->
  (forall c, c ∈ concat bs -> good capacity (getName c)) ->
  (forall c, Some c ∈ newCourses -> good capacity (getName c)) ->
  Owned.inject_loop fuel capacity newCourses bs out = Ret (bs', out') ->
  length bs' = Z.to_nat capacity /\ chains_ok capacity bs' /\
  forall c, c ∈ concat bs' -> good capacity (getName c).
Proof.
  intros Hcap. revert bs out.
  induction newCourses as [|[c|] rest IH]; intros bs out Hlen Hok Hgood Hnew; simpl.
  - intros [= <- <-]. auto.
  - intros H. inv_bind H. rename a into chain.
    inv_bind H. destruct a as [remaining printed].
    apply inject_walk_Ret in Hret0 as (-> & -> & _).
    inv_bind H. apply vector_set_Ret in Hret0 as [Hi ->].
    inv_bind H. apply vector_set_Ret in Hret0 as [_ ->].
    rewrite list_insert_insert_eq in H.
    apply IH in H; [exact H | rewrite length_insert; exact Hlen | | |].
    + apply chains_ok_update; [exact Hok | simpl; lia |].
      intros x Hx. apply list_elem_of_singleton in Hx as ->.
      pose proof (hash_range capacity (getName c) Hcap). lia.
    + intros x Hx. apply elem_of_concat_insert in Hx as [Hx|Hx].
      * apply list_elem_of_singleton in Hx as ->. apply Hnew. left.
      * apply Hgood. exact Hx.
    + intros x Hx. apply Hnew. right. exact Hx.
  - apply IH; try assumption. intros x Hx. apply Hnew. right. exact Hx.
Qed.

Lemma inject_fields (fuel : nat) (t : Owned.DataStructure)
      (newCourses : list (option Course)) (t' : Owned.DataStructure)
      (out : list string) :
  Owned.inject fuel t newCourses = Ret (t', out) ->
  Owned.capacity t' = Owned.capacity t /\
  (newCourses = [] -> t' = t) /\
  (newCourses <> [] -> Owned.size t' = 0 /\ Owned.sorted t' = false /\
     exists out0,
       Owned.inject_loop fuel (Owned.capacity t) newCourses
         (replicate (Z.to_nat (Owned.capacity t)) []) [] = Ret (Owned.buckets t', out0)).
Proof.
  unfold Owned.inject. destruct newCourses as [|c rest].
  - intros [= <- <-]. split; [reflexivity |]. split; [reflexivity | congruence].
  - intros H. inv_bind H. apply vector_resize_fresh in Hret as [_ ->].
    inv_bind H. destruct a as [bs out0]. injection H as <- <-. simpl.
    split; [reflexivity |]. split; [discriminate |].
    intros _. repeat split. exists out0. exact Hret.
Qed.

Lemma inject_Inv (fuel : nat) (t : Owned.DataStructure)
      (newCourses : list (option Course)) (t' : Owned.DataStructure)
      (out : list string) :
  Inv t ->
  (forall c, Some c ∈ newCourses -> good (Owned.capacity t) (getName c)) ->
  Owned.inject fuel t newCourses = Ret (t', out) -> Inv t'.
Proof.
  intros HI Hnew H. pose proof HI as [[Hcap Hlen] Hgood Hok].
  apply inject_fields in H as (Hc & Hnil & Hcons).
  destruct newCourses as [|c rest]; [rewrite Hnil by reflexivity; exact HI |].
  destruct Hcons as (_ & _ & out0 & Hloop); [discriminate |].
  apply inject_loop_Inv in Hloop as (Hl' & Hok' & Hgood');
    [| lia | rewrite length_replicate; reflexivity | apply chains_ok_fresh | | exact Hnew].
  - constructor.
    + split; rewrite Hc; assumption.
    + rewrite Hc. exact Hgood'.
    + rewrite Hc. exact Hok'.
  - intros x Hx. rewrite concat_replicate_nil in Hx. inversion Hx.
Qed.

Lemma inject_keeps_sized (fuel : nat) (t : Owned.DataStructure)
      (newCourses : list (option Course)) (t' : Owned.DataStructure)
      (out : list string) :
  sized t -> Owned.inject fuel t newCourses = Ret (t', out) -> sized t'.
Proof.
  intros [Hcap Hlen] H.
  apply inject_fields in H as (Hc & Hnil & Hcons).
  destruct newCourses as [|c rest]; [rewrite Hnil by reflexivity; split; assumption |].
  destruct Hcons as (_ & _ & out0 & Hloop); [discriminate |].
  split; rewrite Hc; [exact Hcap |].
  clear Hnil Hc. revert Hloop.
  generalize (c :: rest) as l. generalize (@nil string) as o.
  assert (Hl0 : length (replicate (Z.to_nat (Owned.capacity t)) (@nil Course)) =
                Z.to_nat (Owned.capacity t)) by apply length_replicate.
  revert Hl0. generalize (replicate (Z.to_nat (Owned.capacity t)) (@nil Course)) as bs.
  intros bs Hl0 o l. revert bs o Hl0.
  induction l as [|[x|] l IH]; intros bs o Hl0; simpl.
  - intros [= <- _]. exact Hl0.
  - intros H. inv_bind H. inv_bind H. destruct a0 as [remaining printed].
    inv_bind H. apply vector_set_Ret in Hret1 as [_ ->].
    inv_bind H. apply vector_set_Ret in Hret1 as [_ ->].
    apply IH in H; [exact H | rewrite !length_insert; exact Hl0].
  - apply IH. exact Hl0.
Qed.

Lemma sort_fields (t t' : Owned.DataStructure) :
  Owned.sort t = Ret t' ->
  Owned.buckets t' = Owned.buckets t /\ Owned.capacity t' = Owned.capacity t /\
  Owned.size t' = Owned.size t /\ Owned.sorted t' = true.
Proof.
  unfold Owned.sort. intros H. inv_bind H. injection H as <-. simpl. auto.
Qed.

Lemma getSorted_fields (t t' : Owned.DataStructure) (view : list Course) :
  Owned.getSorted t = Ret (t', view) ->
  Owned.buckets t' = Owned.buckets t /\ Owned.capacity t' = Owned.capacity t /\
  Owned.size t' = Owned.size t /\ view = Owned.sortedCourses t'.
Proof.
  unfold Owned.getSorted. intros H. inv_bind H. injection H as <- <-.
  destruct (negb (Owned.sorted t)).
  - apply sort_fields in Hret as (? & ? & ? & _). auto.
  - injection Hret as <-. auto.
Qed.

Lemma fresh_Inv (capacity : Z) (size : Z) (view : list Course) (flag : bool) :
  16 <= capacity <= max_buckets ->
  Inv (Owned.mkTable (replicate (Z.to_nat capacity) []) capacity size view flag).
Proof.
  intros Hcap. constructor; cbn [Owned.buckets Owned.capacity].
  - split; cbn [Owned.buckets Owned.capacity]; [exact Hcap | apply length_replicate].
  - intros c Hc. unfold entries in Hc. cbn [Owned.buckets] in Hc.
    rewrite concat_replicate_nil in Hc. inversion Hc.
  - apply chains_ok_fresh.
Qed.

Lemma new_table_Inv (t0 : Owned.DataStructure) : Owned.new_table = Ret t0 -> Inv t0.
Proof.
  unfold Owned.new_table. intros H. inv_bind H.
  apply vector_resize_fresh in Hret as [_ ->]. apply Ret_inj in H. subst t0.
  apply fresh_Inv. unfold max_buckets. lia.
Qed.

Lemma constructed_Inv (t0 : Owned.DataStructure) : Owned.constructed t0 -> Inv t0.
Proof.
  intros [H|(cap & Hcap & H)]; [apply new_table_Inv; exact H |].
  unfold Owned.new_table_with in H. inv_bind H.
  apply vector_resize_fresh in Hret as [Hmax ->]. apply Ret_inj in H. subst t0.
  apply fresh_Inv. destruct (Z.ltb_spec 16 cap); unfold max_buckets in *; lia.
Qed.

Lemma constructed_sized (t0 : Owned.DataStructure) : Owned.constructed t0 -> sized t0.
Proof.
  intros [H|(cap & Hcap & H)].
  - apply new_table_Inv in H. apply H.
  - unfold Owned.new_table_with in H. inv_bind H.
    apply vector_resize_fresh in Hret as [Hmax ->]. injection H as <-.
    split; cbn [Owned.buckets Owned.capacity].
    + destruct (Z.ltb_spec 16 cap); lia.
    + rewrite length_replicate. reflexivity.
Qed.

Lemma reachable_from_sized (t0 t : Owned.DataStructure) :
  sized t0 -> Owned.reachable_from t0 t -> sized t.
Proof.
  intros H0 Hr. induction Hr as [|t c t' out _ IH H|fuel t cs t' out _ IH H
                                 |t n t' out _ IH H|t t' v _ IH H].
  - exact H0.
  - eapply insert_keeps_sized; eassumption.
  - eapply inject_keeps_sized; eassumption.
  - eapply remove_keeps_sized; eassumption.
  - apply getSorted_fields in H as (Hb & Hc & _). destruct IH as [? ?].
    split; rewrite ?Hb, ?Hc; assumption.
Qed.

Lemma insert_capacity (t : Owned.DataStructure) (course : option Course)
      (t' : Owned.DataStructure) (out : list string) :
  sized t -> Owned.insert t course = Ret (t', out) ->
  Owned.capacity t' = Owned.capacity t \/ Owned.capacity t' = 2 * Owned.capacity t.
Proof.
  intros Hs H. destruct course as [c|]; [| injection H as <- <-; auto].
  rewrite insert_sized in H by exact Hs. cbv zeta in H.
  destruct (Owned.duplicate_walk _ _) as [[] remaining].
  - injection H as <- <-. auto.
  - inv_bind H. injection H as <- <-.
    set (t1 := Owned.set_size _ _) in Hret.
    assert (Hs1 : sized t1).
    { destruct Hs as [Hcap Hlen].
      split; simpl; [exact Hcap | rewrite length_insert; exact Hlen]. }
    change (Owned.capacity a = Owned.capacity t1 \/ Owned.capacity a = 2 * Owned.capacity t1).
    destruct (load_exceeds _ _).
    + destruct (resize_cases t1 Hs1) as [[Hmax Hr]|[_ Hr]];
        rewrite Hr in Hret; [| discriminate].
      injection Hret as <-. auto.
    + injection Hret as <-. auto.
Qed.

Lemma remove_capacity (t : Owned.DataStructure) (courseName : string)
      (t' : Owned.DataStructure) (out : list string) :
  sized t -> Owned.remove t courseName = Ret (t', out) ->
  Owned.capacity t' = Owned.capacity t.
Proof.
  intros Hs H. rewrite remove_sized in H by exact Hs. cbv zeta in H.
  destruct (empty courseName); [injection H as <- <-; reflexivity |].
  destruct (Owned.remove_walk _ _ _) as [[] remaining]; injection H as <- <-; reflexivity.
Qed.

(** The invariant holds in every state reached with records whose names
    doubling refines. *)
Lemma reachable_with_Inv (ok : Course -> Prop) (t0 t : Owned.DataStructure) :
  Inv t0 -> (forall c, ok c -> good (Owned.capacity t0) (getName c)) ->
  reachable_with ok t0 t ->
  Inv t /\ forall c, ok c -> good (Owned.capacity t) (getName c).
Proof.
  intros H0 Hok0 Hr.
  induction Hr as [|t c t' out _ [HI Hok] Hc H|fuel t cs t' out _ [HI Hok] Hc H
                   |t n t' out _ [HI Hok] H|t t' v _ [HI Hok] H].
  - auto.
  - split; [eapply insert_Inv; [exact HI | | exact H]; intros x Hx; apply Hok, Hc, Hx |].
    intros x Hx. destruct (insert_capacity _ _ _ _ (inv_sized _ HI) H) as [->| ->];
      [| apply good_double]; apply Hok; exact Hx.
  - split; [eapply inject_Inv; [exact HI | | exact H]; intros x Hx; apply Hok, Hc, Hx |].
    apply inject_fields in H as [-> _]. exact Hok.
  - split; [eapply remove_Inv; eassumption |].
    rewrite (remove_capacity _ _ _ _ (inv_sized _ HI) H). exact Hok.
  - apply getSorted_fields in H as (Hb & Hcap & _). split.
    + destruct HI as [[? ?] ? ?].
      constructor; [split |..]; unfold entries in *; rewrite ?Hb, ?Hcap; assumption.
    + rewrite Hcap. exact Hok.
Qed.

Lemma reachable_from_with (t0 t : Owned.DataStructure) :
  Owned.reachable_from t0 t -> reachable_with (fun _ => True) t0 t.
Proof.
  intros Hr. induction Hr.
  - apply with_start.
  - eapply with_insert; eauto.
  - eapply with_inject; eauto.
  - eapply with_remove; eauto.
  - eapply with_getSorted; eauto.
Qed.

(** The tables of the program: from the default constructor the capacity
    is 1024 times a power of two, and doubling refines every name. *)
Lemma reachable_good (t : Owned.DataStructure) :
  Owned.reachable t -> Inv t /\ forall c, good (Owned.capacity t) (getName c).
Proof.
  intros (t0 & H0 & Hr).
  destruct (reachable_with_Inv (fun _ => True) t0 t) as [HI Hg];
    [apply new_table_Inv; exact H0 | | apply reachable_from_with; exact Hr | auto].
  intros c _. apply power_of_two_good.
  unfold Owned.new_table in H0. inv_bind H0. apply Ret_inj in H0. subst t0.
  exists 10. split; [lia | reflexivity].
Qed.

Lemma reachable_Inv (t : Owned.DataStructure) : Owned.reachable t -> Inv t.
Proof. intros Hr. apply reachable_good. exact Hr. Qed.

(** From either constructor, when every record handed in has a name of
    bytes below 128 (every valid identifier is one). *)
Lemma reachable_plain_good (t0 t : Owned.DataStructure) :
  Owned.constructed t0 -> reachable_with (fun c => plain (getName c)) t0 t ->
  Inv t /\ forall c, plain (getName c) -> good (Owned.capacity t) (getName c).
Proof.
  intros H0 Hr. pose proof (constructed_Inv t0 H0) as HI0.
  apply (reachable_with_Inv _ t0 t HI0); [| exact Hr].
  intros c Hc. apply plain_good; [| exact Hc].
  destruct HI0 as [[Hcap _] _ _]. lia.
Qed.

(** *** Lookup, insertion and removal on the tables of the program *)

Lemma name_not_empty (s : string) : s <> EmptyString -> empty s = false.
Proof. destruct s; [congruence | reflexivity]. Qed.

(** A stored course is found under its name. *)
Lemma get_stored (t : Owned.DataStructure) (c : Course) :
  Inv t -> c ∈ entries t -> getName c <> EmptyString ->
  Owned.get t (getName c) = Ret (Some c).
Proof.
  intros HI Hc Hne. pose proof HI as [Hs _ Hok].
  apply elem_of_concat in Hc as (i & chain & Hi & Hc).
  destruct (Hok i chain Hi) as [Hlen Hhome].
  rewrite get_sized by exact Hs. rewrite name_not_empty by exact Hne.
  rewrite (Hhome c Hc), Nat2Z.id.
  rewrite (list_lookup_total_correct _ _ _ Hi).
  destruct (short_chain_cases chain Hlen) as [->|[x ->]]; [inversion Hc |].
  apply list_elem_of_singleton in Hc as ->. simpl.
  rewrite String.eqb_refl. reflexivity.
Qed.

(** What lookup finds is stored, under the name asked for. *)
Lemma get_found (t : Owned.DataStructure) (courseName : string) (e : Course) :
  sized t -> Owned.get t courseName = Ret (Some e) ->
  courseName <> EmptyString /\ getName e = courseName /\ e ∈ entries t.
Proof.
  intros Hs H. rewrite get_sized in H by exact Hs.
  destruct courseName as [|a s]; [discriminate |]. simpl empty in H. cbv iota in H.
  apply Ret_inj in H. apply find_course_name in H as [Hn He].
  split; [discriminate |]. split; [exact Hn |].
  apply elem_of_concat. eexists _, _. split; [| exact He].
  apply list_lookup_lookup_total_lt. apply sized_index. exact Hs.
Qed.

Lemma inserted_holds (t : Owned.DataStructure) (c : Course) :
  sized t -> c ∈ entries (inserted t c).
Proof.
  intros Hs. apply elem_of_concat.
  exists (Z.to_nat (hash (Owned.capacity t) (getName c))), [c]. split; [| left].
  unfold inserted. cbn [Owned.buckets].
  apply list_lookup_insert_eq. apply sized_index. exact Hs.
Qed.

Lemma set_sorted_entries (t : Owned.DataStructure) (b : bool) :
  entries (Owned.set_sorted t b) = entries t.
Proof. reflexivity. Qed.

(** After a new name was inserted the table holds the course. *)
Lemma insert_new_holds (t : Owned.DataStructure) (c : Course)
      (t' : Owned.DataStructure) (out : list string) :
  sized t ->
  Owned.find_course (getName c)
    (Owned.buckets t !!! Z.to_nat (hash (Owned.capacity t) (getName c))) = None ->
  Owned.insert t (Some c) = Ret (t', out) ->
  c ∈ entries t'.
Proof.
  intros Hs Hfind H.
  apply insert_new_result in H as (_ & [(_ & _ & ->)|(_ & ->)]); try assumption.
  - rewrite set_sorted_entries.
    rewrite (resized_entries _ (inserted_sized t c Hs)).
    apply inserted_holds. exact Hs.
  - rewrite set_sorted_entries. apply inserted_holds. exact Hs.
Qed.

(** Removing the only node of a chain empties the bucket. *)
Lemma remove_stored (t : Owned.DataStructure) (c : Course) :
  Inv t -> c ∈ entries t -> getName c <> EmptyString ->
  exists t', Owned.remove t (getName c) = Ret (t', []) /\
             Owned.get t' (getName c) = Ret None /\
             Owned.capacity t' = Owned.capacity t /\
             Owned.size t' = wrap64 (Owned.size t - 1) /\
             Owned.sorted t' = false.
Proof.
  intros HI Hc Hne. pose proof HI as [Hs _ Hok].
  apply elem_of_concat in Hc as (i & chain & Hi & Hc).
  destruct (Hok i chain Hi) as [Hlen Hhome].
  destruct (short_chain_cases chain Hlen) as [->|[x ->]]; [inversion Hc |].
  apply list_elem_of_singleton in Hc as ->.
  specialize (Hhome x ltac:(left)).
  rewrite remove_sized by exact Hs. cbv zeta.
  rewrite name_not_empty by exact Hne.
  rewrite Hhome, Nat2Z.id. rewrite (list_lookup_total_correct _ _ _ Hi).
  simpl Owned.remove_walk. rewrite String.eqb_refl.
  eexists. split; [reflexivity |]. split; [| auto].
  assert (Hs' : sized (Owned.set_sorted
             (Owned.set_size (Owned.set_buckets t (<[i := []]> (Owned.buckets t)))
                (wrap64 (Owned.size t - 1))) false)).
  { destruct Hs as [Hcap Hl]. split; cbn [Owned.buckets Owned.capacity Owned.set_sorted
      Owned.set_size Owned.set_buckets]; [exact Hcap | rewrite length_insert; exact Hl]. }
  rewrite get_sized by exact Hs'. rewrite name_not_empty by exact Hne.
  cbn [Owned.buckets Owned.capacity Owned.set_sorted Owned.set_size Owned.set_buckets].
  rewrite Hhome, Nat2Z.id.
  rewrite list_lookup_total_insert_eq by (eapply lookup_lt_Some; exact Hi).
  reflexivity.
Qed.

(** The duplicate rule on the tables of the program: a record whose name
    the lookup finds is rejected and the table is left as it was. *)
Lemma owned_insert_duplicate (t : Owned.DataStructure) (c e : Course) :
  Inv t ->
  Owned.get t (getName c) = Ret (Some e) ->
  Owned.insert t (Some c) =
  Ret (t, [String.append "Duplicate course: " (getName c)]).
Proof.
  intros HI Hget. pose proof HI as [Hs _ _].
  rewrite get_sized in Hget by exact Hs.
  destruct (empty (getName c)); [discriminate |]. apply Ret_inj in Hget.
  destruct (Inv_chain t (getName c) HI) as [Hb [Hnil|[x Hx]]].
  - rewrite Hnil in Hget. discriminate.
  - rewrite Hx in Hget, Hb. simpl in Hget.
    destruct (String.eqb_spec (getName x) (getName c)) as [Heq|]; [| discriminate].
    apply (insert_duplicate_head t c x []); assumption.
Qed.

(** Insert, look up, remove, look up again, on the tables of the program. *)
Lemma owned_insert_get_remove (t : Owned.DataStructure) (c : Course)
      (t1 : Owned.DataStructure) (out : list string) :
  Inv t -> good (Owned.capacity t) (getName c) ->
  getName c <> EmptyString ->
  Owned.get t (getName c) = Ret None ->
  Owned.insert t (Some c) = Ret (t1, out) ->
  Owned.get t1 (getName c) = Ret (Some c) /\
  exists t2, Owned.remove t1 (getName c) = Ret (t2, []) /\
             Owned.get t2 (getName c) = Ret None.
Proof.
  intros HI Hgc Hne Hget Hins. pose proof HI as [Hs _ _].
  rewrite get_sized in Hget by exact Hs.
  rewrite name_not_empty in Hget by exact Hne. apply Ret_inj in Hget.
  assert (HI1 : Inv t1).
  { apply (insert_Inv _ _ _ _ HI) in Hins; [exact Hins |]. intros x [= <-]. exact Hgc. }
  pose proof (insert_new_holds _ _ _ _ Hs Hget Hins) as Hc.
  split; [apply get_stored; assumption |].
  destruct (remove_stored t1 c HI1 Hc Hne) as (t2 & Hrem & Hget2 & _).
  exists t2. auto.
Qed.

(** The same on the tables of the program, built by [DataStructure()], ... *)
Lemma owned_lookup_after_remove (t : Owned.DataStructure) (c : Course)
      (t1 : Owned.DataStructure) (out : list string) :
  Owned.reachable t ->
  getName c <> EmptyString ->
  Owned.get t (getName c) = Ret None ->
  Owned.insert t (Some c) = Ret (t1, out) ->
  Owned.get t1 (getName c) = Ret (Some c) /\
  exists t2, Owned.remove t1 (getName c) = Ret (t2, []) /\
             Owned.get t2 (getName c) = Ret None.
Proof.
  intros Hr. apply reachable_good in Hr as [HI Hg].
  apply owned_insert_get_remove; [exact HI | apply Hg].
Qed.

(** ... and from either constructor with names of bytes below 128. *)
Lemma owned_lookup_after_remove_plain (t0 t : Owned.DataStructure) (c : Course)
      (t1 : Owned.DataStructure) (out : list string) :
  Owned.constructed t0 -> reachable_with (fun c => plain (getName c)) t0 t ->
  plain (getName c) ->
  getName c <> EmptyString ->
  Owned.get t (getName c) = Ret None ->
  Owned.insert t (Some c) = Ret (t1, out) ->
  Owned.get t1 (getName c) = Ret (Some c) /\
  exists t2, Owned.remove t1 (getName c) = Ret (t2, []) /\
             Owned.get t2 (getName c) = Ret None.
Proof.
  intros H0 Hr Hc. destruct (reachable_plain_good t0 t H0 Hr) as [HI Hg].
  apply owned_insert_get_remove; [exact HI | apply Hg; exact Hc].
Qed.

(** The insert of a new name returns unless the doubled vector would not
    fit. *)
Lemma owned_insert_returns (t : Owned.DataStructure) (c : Course) :
  sized t -> 2 * Owned.capacity t <= max_buckets ->
  exists t' out, Owned.insert t (Some c) = Ret (t', out).
Proof.
  intros Hs Hmax. rewrite insert_sized by exact Hs. cbv zeta.
  destruct (Owned.duplicate_walk _ _) as [[] remaining]; [eauto |].
  set (t1 := Owned.set_size _ _).
  assert (Hs1 : sized t1).
  { destruct Hs as [Hcap Hlen].
    split; simpl; [exact Hcap | rewrite length_insert; exact Hlen]. }
  destruct (load_exceeds _ _); [| simpl; eauto].
  destruct (resize_cases t1 Hs1) as [[_ Hr]|[Hgt _]]; [| simpl in Hgt; lia].
  rewrite Hr. simpl. eauto.
Qed.

(** *** The load factor along a sequence of inserts *)

Lemma load_exceeds_spec (size capacity : Z) :
  load_exceeds size capacity = true <-> 3 * capacity < 4 * size.
Proof. unfold load_exceeds. apply Z.ltb_lt. Qed.

Lemma load_exceeds_false (size capacity : Z) :
  load_exceeds size capacity = false <-> 4 * size <= 3 * capacity.
Proof. unfold load_exceeds. apply Z.ltb_ge. Qed.

Lemma insert_load (t : Owned.DataStructure) (course : option Course)
      (t' : Owned.DataStructure) (out : list string) :
  sized t -> load_ok (Owned.size t) (Owned.capacity t) ->
  Owned.insert t course = Ret (t', out) ->
  load_ok (Owned.size t') (Owned.capacity t').
Proof.
  intros Hs [Hsz Hload] H. destruct course as [c|]; [| injection H as <- <-; split; assumption].
  pose proof Hs as [Hcap Hlen]. unfold max_buckets in Hcap.
  rewrite insert_sized in H by exact Hs. cbv zeta in H.
  destruct (Owned.duplicate_walk _ _) as [[] remaining].
  - injection H as <- <-. split; assumption.
  - inv_bind H. injection H as <- <-.
    set (t1 := Owned.set_size _ _) in Hret.
    assert (Hs1 : sized t1).
    { split; simpl; [unfold max_buckets; lia | rewrite length_insert; exact Hlen]. }
    assert (Hsize : Owned.size t1 = Owned.size t + 1).
    { simpl. apply wrap64_small. lia. }
    change (load_ok (Owned.size a) (Owned.capacity a)).
    destruct (load_exceeds (Owned.size t1) (Owned.capacity t1)) eqn:Hle.
    + destruct (resize_cases t1 Hs1) as [[Hmax Hr]|[_ Hr]];
        rewrite Hr in Hret; [| discriminate].
      injection Hret as <-. simpl in Hsize |- *. rewrite Hsize. split; lia.
    + injection Hret as <-. apply load_exceeds_false in Hle.
      rewrite Hsize in *. simpl in Hle |- *. split; lia.
Qed.

(** After every insert of a sequence that starts at a new table the load
    factor is at most 0.75. *)
Lemma owned_load_factor (t0 t : Owned.DataStructure) :
  Owned.constructed t0 -> inserts_from t0 t ->
  sized t /\ load_ok (Owned.size t) (Owned.capacity t).
Proof.
  intros H0 Hr. induction Hr as [|t course t' out _ [Hs Hl] H].
  - split; [apply constructed_sized; exact H0 |].
    destruct H0 as [H|(cap & _ & H)].
    + unfold Owned.new_table in H. inv_bind H. apply Ret_inj in H. subst t0.
      split; simpl; lia.
    + unfold Owned.new_table_with in H. inv_bind H. apply Ret_inj in H. subst t0.
      apply vector_resize_fresh in Hret as [_ _].
      split; cbn [Owned.size Owned.capacity]; destruct (Z.ltb_spec 16 cap); lia.
  - split; [eapply insert_keeps_sized | eapply insert_load]; eassumption.
Qed.

(** The capacity doubles exactly when the new size would exceed 0.75 of
    it, and the rehash keeps every course. *)
Lemma owned_resize_trigger (t : Owned.DataStructure) (c : Course)
      (t' : Owned.DataStructure) (out : list string) :
  sized t -> load_ok (Owned.size t) (Owned.capacity t) ->
  Owned.get t (getName c) = Ret None -> getName c <> EmptyString ->
  Owned.insert t (Some c) = Ret (t', out) ->
  Owned.size t' = Owned.size t + 1 /\
  entries t' ≡ₚ entries (inserted t c) /\
  (3 * Owned.capacity t < 4 * (Owned.size t + 1) ->
     Owned.capacity t' = 2 * Owned.capacity t) /\
  (4 * (Owned.size t + 1) <= 3 * Owned.capacity t ->
     Owned.capacity t' = Owned.capacity t).
Proof.
  intros Hs [Hsz Hload] Hget Hne H.
  pose proof Hs as [Hcap Hlen]. unfold max_buckets in Hcap.
  rewrite get_sized in Hget by exact Hs.
  rewrite name_not_empty in Hget by exact Hne. apply Ret_inj in Hget.
  assert (Hw : wrap64 (Owned.size t + 1) = Owned.size t + 1)
    by (apply wrap64_small; lia).
  apply insert_new_result in H as (_ & [(Hle & _ & ->)|(Hle & ->)]); try assumption;
    rewrite Hw in Hle.
  - apply load_exceeds_spec in Hle. simpl. rewrite Hw.
    split; [reflexivity |]. split; [| split; [reflexivity | lia]].
    apply (resized_entries _ (inserted_sized t c Hs)).
  - apply load_exceeds_false in Hle. simpl. rewrite Hw.
    split; [reflexivity |]. split; [reflexivity |]. split; [lia | reflexivity].
Qed.

(** *** The sorted view *)

Lemma sorted_insert_Permutation (c : Course) (l : list Course) :
  sorted_insert c l ≡ₚ c :: l.
Proof.
  induction l as [|x l IH]; simpl; [reflexivity |].
  destruct (name_lt x c); [| reflexivity].
  rewrite IH. apply perm_swap.
Qed.

Lemma std_sort_Permutation (l : list Course) : std_sort l ≡ₚ l.
Proof.
  induction l as [|c l IH]; simpl; [reflexivity |].
  rewrite sorted_insert_Permutation, IH. reflexivity.
Qed.

Lemma name_lt_le (a b : Course) : name_lt a b = true -> name_le a b.
Proof.
  unfold name_lt, name_le, String.ltb, String.leb.
  destruct (String.compare (getName a) (getName b)); congruence.
Qed.

Lemma name_not_lt_le (a b : Course) : name_lt a b = false -> name_le b a.
Proof.
  unfold name_lt, name_le, String.ltb, String.leb.
  rewrite (String.compare_antisym (getName a) (getName b)).
  destruct (String.compare (getName b) (getName a)); simpl; congruence.
Qed.

Lemma sorted_insert_Sorted (c : Course) (l : list Course) :
  Sorted name_le l -> Sorted name_le (sorted_insert c l).
Proof.
  induction l as [|x l IH]; simpl; intros Hs.
  - repeat constructor.
  - destruct (name_lt x c) eqn:Hlt.
    + apply Sorted_inv in Hs as [Hs Hhd]. constructor; [apply IH; exact Hs |].
      destruct l as [|y l]; simpl.
      * constructor. apply name_lt_le. exact Hlt.
      * destruct (name_lt y c).
        -- constructor. apply HdRel_inv in Hhd. exact Hhd.
        -- constructor. apply name_lt_le. exact Hlt.
    + constructor; [exact Hs |]. constructor. apply name_not_lt_le. exact Hlt.
Qed.

Lemma std_sort_Sorted (l : list Course) : Sorted name_le (std_sort l).
Proof.
  induction l as [|c l IH]; simpl; [constructor |].
  apply sorted_insert_Sorted. exact IH.
Qed.

Lemma collect_all (bs : list (list Course)) (acc : list Course) :
  fold_outcome (fun chain acc => Ret (acc ++ chain)) bs acc = Ret (acc ++ concat bs).
Proof.
  revert acc. induction bs as [|chain bs IH]; intros acc; simpl.
  - rewrite app_nil_r. reflexivity.
  - rewrite IH, <- app_assoc. reflexivity.
Qed.

(** When [sort] runs, the view becomes the courses of the table in
    ascending order of name. *)
Lemma sort_sized (t : Owned.DataStructure) :
  sized t ->
  Owned.sort t =
  Ret (Owned.set_sorted (Owned.set_sortedCourses t (std_sort (entries t))) true).
Proof.
  intros [_ Hlen]. unfold Owned.sort.
  rewrite (for_range_whole (fun chain acc => Ret (acc ++ chain)))
    by (symmetry; exact Hlen).
  rewrite collect_all. reflexivity.
Qed.

Lemma getSorted_recomputed (t : Owned.DataStructure) :
  sized t -> Owned.sorted t = false ->
  exists t', Owned.getSorted t = Ret (t', std_sort (entries t)) /\
             entries t' = entries t /\
             Sorted name_le (std_sort (entries t)) /\
             std_sort (entries t) ≡ₚ entries t.
Proof.
  intros Hs Hflag. unfold Owned.getSorted. rewrite Hflag. simpl negb. cbv iota.
  rewrite sort_sized by exact Hs. simpl. eexists. split; [reflexivity |].
  split; [reflexivity |]. split; [apply std_sort_Sorted | apply std_sort_Permutation].
Qed.

(** *** Fuel in [inject] *)

Lemma owned_inject_walk_refines (fuel fuel' : nat) (key : string) (chain : list Course) :
  (fuel <= fuel')%nat ->
  refines (Owned.inject_walk fuel key chain) (Owned.inject_walk fuel' key chain).
Proof.
  revert fuel' chain. induction fuel as [|fuel IH]; intros fuel' chain Hle;
    [apply refines_Timeout |].
  destruct fuel' as [|fuel']; [lia |]. simpl.
  destruct chain as [|x chain]; [apply refines_refl |].
  destruct (String.eqb _ _).
  - apply bind_refines; [apply IH; lia | intros [r o]; apply refines_refl].
  - apply IH. lia.
Qed.

Lemma owned_inject_loop_refines (fuel fuel' : nat) capacity cs bs out :
  (fuel <= fuel')%nat ->
  refines (Owned.inject_loop fuel capacity cs bs out)
          (Owned.inject_loop fuel' capacity cs bs out).
Proof.
  intros Hle. revert bs out. induction cs as [|[c|] cs IH]; intros bs out; simpl.
  - apply refines_refl.
  - apply bind_refines; [apply refines_refl |]. intros chain.
    apply bind_refines; [apply owned_inject_walk_refines; exact Hle |].
    intros [remaining printed].
    apply bind_refines; [apply refines_refl |]. intros bs1.
    apply bind_refines; [apply refines_refl |]. intros bs2. apply IH.
  - apply IH.
Qed.

Lemma owned_inject_refines (fuel fuel' : nat) t cs :
  (fuel <= fuel')%nat ->
  refines (Owned.inject fuel t cs) (Owned.inject fuel' t cs).
Proof.
  intros Hle. unfold Owned.inject. destruct cs as [|c cs]; [apply refines_refl |].
  apply bind_refines; [apply refines_refl |]. intros fresh.
  apply bind_refines; [apply owned_inject_loop_refines; exact Hle |].
  intros [bs out]. apply refines_refl.
Qed.

Lemma inject_walk_cases (fuel : nat) (key : string) (chain : list Course) :
  Owned.inject_walk fuel key chain = Ret ([], []) \/
  Owned.inject_walk fuel key chain = Timeout.
Proof.
  revert chain. induction fuel as [|fuel IH]; intros chain; simpl; [auto |].
  destruct chain as [|x chain]; [auto |].
  destruct (String.eqb_spec (getName x) key) as [Hx|Hx]; [| apply IH].
  right. rewrite (inject_walk_diverges key x chain Hx). reflexivity.
Qed.

(** Two records of one name, one right after the other, keep [inject] in
    its inner loop for ever, whatever the table was. *)
Lemma owned_inject_duplicate_diverges (t : Owned.DataStructure) (c1 c2 : Course)
      (rest : list (option Course)) :
  sized t -> getName c1 = getName c2 ->
  forall fuel, Owned.inject fuel t (Some c1 :: Some c2 :: rest) = Timeout.
Proof.
  intros [Hcap Hlen] Hname fuel. unfold Owned.inject.
  rewrite (proj2 (vector_resize_fresh (Owned.capacity t) []
                    (replicate (Z.to_nat (Owned.capacity t)) [])))
    by (split; [lia | reflexivity]).
  simpl bind. cbn [Owned.inject_loop].
  set (fresh := replicate (Z.to_nat (Owned.capacity t)) []).
  assert (Hi : (Z.to_nat (hash (Owned.capacity t) (getName c1)) < length fresh)%nat).
  { unfold fresh. rewrite length_replicate.
    pose proof (hash_range (Owned.capacity t) (getName c1) ltac:(lia)). lia. }
  destruct (lookup_lt_is_Some_2 _ _ Hi) as [chain Hchain].
  unfold vector_at at 1. rewrite Hchain. simpl bind.
  destruct (inject_walk_cases fuel (getName c1) chain) as [Hw|Hw]; rewrite Hw;
    [| reflexivity].
  simpl bind. rewrite vector_set_in_range by exact Hi. simpl bind.
  rewrite vector_set_in_range by (rewrite length_insert; exact Hi). simpl bind.
  rewrite list_insert_insert_eq. rewrite <- Hname.
  unfold vector_at. rewrite list_lookup_insert_eq by exact Hi. simpl bind.
  rewrite (inject_walk_diverges (getName c1) c1 [] eq_refl). reflexivity.
Qed.

(** The duplicate rule stated on the stored courses: a record whose name
    is the name of a stored course is rejected and nothing changes. *)
Lemma owned_insert_duplicate_stored (t : Owned.DataStructure) (c e : Course) :
  Inv t -> e ∈ entries t -> getName e = getName c ->
  Owned.insert t (Some c) =
  Ret (t, [String.append "Duplicate course: " (getName c)]).
Proof.
  intros HI He Hname. pose proof HI as [Hs _ Hok].
  apply elem_of_concat in He as (i & chain & Hi & He).
  destruct (Hok i chain Hi) as [Hlen Hhome].
  destruct (short_chain_cases chain Hlen) as [->|[x ->]]; [inversion He |].
  apply list_elem_of_singleton in He as ->.
  specialize (Hhome x ltac:(left)). rewrite Hname in Hhome.
  apply (insert_duplicate_head t c x []); [exact Hs | | exact Hname].
  rewrite Hhome, Nat2Z.id. exact Hi.
Qed.


(** ** The table of ProjectTwoUniversal.cpp ([Module Universal]) *)

Lemma for_range_invariant {St : Type} (P : St -> Prop) (n start : nat)
      (body : nat -> St -> outcome St) (s s' : St) :
  (forall i s s', P s -> body i s = Ret s' -> P s') ->
  P s -> for_range n start body s = Ret s' -> P s'.
Proof.
  intros Hbody. revert start s. induction n as [|n IH]; intros start s Hs; simpl.
  - intros [= <-]. exact Hs.
  - intros H. inv_bind H. eapply IH; [| exact H]. eapply Hbody; eassumption.
Qed.

Lemma urehash_chain_length (fuel : nat) (capacity : Z) (cur : option Universal.addr)
      (h h' : list (option Universal.DataNode)) (bs bs' : list (option Universal.addr)) :
  Universal.rehash_chain fuel capacity cur h bs = Ret (h', bs') ->
  length bs' = length bs.
Proof.
  revert cur h bs. induction fuel as [|fuel IH]; intros cur h bs; simpl; [discriminate |].
  destruct cur as [a|]; [| intros [= _ <-]; reflexivity].
  intros H. inv_bind H. inv_bind H. inv_bind H.
  apply vector_set_Ret in Hret1 as [_ ->].
  apply IH in H. rewrite H. apply length_insert.
Qed.

Lemma uresize_sized (fuel : nat) (t t' : Universal.DataStructure) :
  usized t -> Universal.resize fuel t = Ret t' -> usized t'.
Proof.
  intros [Hcap Hlen] H. unfold Universal.resize in H.
  inv_bind H. rename a into grown.
  apply vector_resize_length in Hret as [Hmax Hgrown].
  inv_bind H. destruct a as [h bs]. apply Ret_inj in H. subst t'.
  assert (Hw : wrap64 (Universal.capacity t * 2) = 2 * Universal.capacity t).
  { unfold max_buckets in Hcap. rewrite wrap64_small; lia. }
  rewrite Hw in Hmax, Hgrown. rewrite Hw.
  assert (Hbs : length bs = length grown).
  { revert Hret.
    apply (for_range_invariant (fun s => length (snd s) = length grown)); [| reflexivity].
    intros i [h1 bs1] [h2 bs2] Hl Hb. simpl in *. inv_bind Hb.
    apply urehash_chain_length in Hb. congruence. }
  split; cbn [Universal.capacity Universal.buckets Universal.set_buckets
              Universal.set_heap Universal.set_capacity]; [lia | congruence].
Qed.

Lemma uinsert_sized (fuel : nat) (t : Universal.DataStructure) (c : option Course)
      (t' : Universal.DataStructure) (out : list string) :
  usized t -> Universal.insert fuel t c = Ret (t', out) -> usized t'.
Proof.
  intros Hs H. destruct c as [c|]; [| injection H as <- <-; exact Hs].
  simpl in H. inv_bind H. inv_bind H. destruct a0 as [n|].
  - injection H as <- <-. exact Hs.
  - inv_bind H. apply vector_set_Ret in Hret1 as [_ ->].
    inv_bind H. injection H as <- <-.
    set (t1 := Universal.set_size _ _) in Hret1.
    assert (Hs1 : usized t1).
    { destruct Hs as [Hcap Hlen].
      split; simpl; [exact Hcap | rewrite length_insert; exact Hlen]. }
    destruct (load_exceeds _ _).
    + eapply uresize_sized; eassumption.
    + injection Hret1 as <-. exact Hs1.
Qed.

Lemma uinject_loop_length (fuel : nat) (capacity : Z) (cs : list (option Course))
      (h : list (option Universal.DataNode)) (bs : list (option Universal.addr))
      (out : list string) h' bs' out' :
  Universal.inject_loop fuel capacity cs h bs out = Ret (h', bs', out') ->
  length bs' = length bs.
Proof.
  revert h bs out. induction cs as [|[c|] cs IH]; intros h bs out; simpl.
  - intros [= _ <- _]. reflexivity.
  - intros H. inv_bind H. inv_bind H. destruct a0 as [n|].
    + apply IH in H. exact H.
    + inv_bind H. apply vector_set_Ret in Hret1 as [_ ->].
      apply IH in H. rewrite H. apply length_insert.
  - apply IH.
Qed.

Lemma udestroy_fields (fuel : nat) (t t' : Universal.DataStructure) :
  Universal.destroy fuel t = Ret t' ->
  Universal.buckets t' = Universal.buckets t /\
  Universal.capacity t' = Universal.capacity t.
Proof.
  unfold Universal.destroy. intros H. inv_bind H. injection H as <-. auto.
Qed.

Lemma uinject_sized (fuel : nat) (t : Universal.DataStructure)
      (cs : list (option Course)) (t' : Universal.DataStructure) (out : list string) :
  usized t -> Z.of_nat (length cs) <= max_buckets ->
  Universal.inject fuel t cs = Ret (t', out) -> usized t'.
Proof.
  intros Hs Hn H. unfold Universal.inject in H.
  destruct cs as [|c cs]; [injection H as <- <-; exact Hs |].
  inv_bind H. rename a into t1. inv_bind H. rename a into bs.
  apply vector_resize_length in Hret0 as [Hmax Hbs].
  inv_bind H. destruct a as [[h bs'] out0]. apply Ret_inj in H.
  injection H as <- <-.
  apply uinject_loop_length in Hret0.
  change (Z.of_nat (S (length cs))) with (Z.of_nat (length (c :: cs))).
  set (count := Z.of_nat (length (c :: cs))) in *.
  assert (Hw : wrap64 (count * 2) = count * 2).
  { apply wrap64_small. unfold max_buckets in Hn. lia. }
  rewrite Hw in Hmax, Hbs. rewrite Hw.
  split; cbn [Universal.capacity Universal.buckets].
  - destruct (Z.ltb_spec 1024 count); lia.
  - congruence.
Qed.

Lemma uremove_walk_length (fuel : nat) (name : string) (index : Z)
      (cur prev : option Universal.addr) h bs found h' bs' :
  Universal.remove_walk fuel name index cur prev h bs = Ret (found, h', bs') ->
  length bs' = length bs.
Proof.
  revert cur prev. induction fuel as [|fuel IH]; intros cur prev; simpl; [discriminate |].
  destruct cur as [a|]; [| intros [= _ _ <-]; reflexivity].
  intros H. inv_bind H. destruct (String.eqb _ _).
  - destruct prev as [p|].
    + inv_bind H. injection H as _ _ <-. reflexivity.
    + inv_bind H. apply vector_set_Ret in Hret0 as [_ ->].
      injection H as _ _ <-. apply length_insert.
  - eapply IH. exact H.
Qed.

Lemma uremove_sized (fuel : nat) (t : Universal.DataStructure) (name : string)
      (t' : Universal.DataStructure) (out : list string) :
  usized t -> Universal.remove fuel t name = Ret (t', out) -> usized t'.
Proof.
  intros Hs H. unfold Universal.remove in H.
  destruct (empty name); [injection H as <- <-; exact Hs |].
  inv_bind H. inv_bind H. destruct a0 as [[found h] bs].
  apply uremove_walk_length in Hret0.
  destruct found; injection H as <- <-; [| exact Hs].
  destruct Hs as [Hcap Hlen]. split; simpl; [exact Hcap | congruence].
Qed.

Lemma ugetSorted_fields (fuel : nat) (t t' : Universal.DataStructure) (v : list Course) :
  Universal.getSorted fuel t = Ret (t', v) ->
  Universal.buckets t' = Universal.buckets t /\
  Universal.capacity t' = Universal.capacity t.
Proof.
  unfold Universal.getSorted, Universal.sort. intros H.
  inv_bind H. inv_bind Hret. injection Hret as <-. injection H as <- _. auto.
Qed.

Lemma uconstructed_sized (t0 : Universal.DataStructure) :
  Universal.constructed t0 -> usized t0.
Proof.
  intros [H|(cap & Hcap & H)].
  - unfold Universal.new_table in H. inv_bind H.
    apply vector_resize_fresh in Hret as [_ ->]. apply Ret_inj in H. subst t0.
    split; cbn [Universal.capacity Universal.buckets];
      [unfold max_buckets; lia | apply length_replicate].
  - unfold Universal.new_table_with in H. inv_bind H.
    apply vector_resize_fresh in Hret as [Hmax ->]. apply Ret_inj in H. subst t0.
    split; cbn [Universal.capacity Universal.buckets].
    + destruct (Z.ltb_spec 16 cap); lia.
    + apply length_replicate.
Qed.

Lemma ureachable_from_sized (t0 t : Universal.DataStructure) :
  usized t0 -> Universal.reachable_from t0 t -> usized t.
Proof.
  intros H0 Hr. induction Hr as [|fuel t c t' out _ IH H|fuel t cs t' out _ IH Hn H
                                 |fuel t n t' out _ IH H|fuel t t' v _ IH H].
  - exact H0.
  - eapply uinsert_sized; eassumption.
  - eapply uinject_sized; eassumption.
  - eapply uremove_sized; eassumption.
  - apply ugetSorted_fields in H as (Hb & Hc). destruct IH as [? ?].
    split; rewrite ?Hb, ?Hc; assumption.
Qed.

(** The duplicate rule: a record whose name the lookup finds is rejected
    and the table, free store included, is left as it was. *)
Lemma universal_insert_duplicate (fuel : nat) (t : Universal.DataStructure)
      (c e : Course) :
  Universal.get fuel t (getName c) = Ret (Some e) ->
  Universal.insert fuel t (Some c) =
  Ret (t, [String.append "Duplicate course: " (getName c)]).
Proof.
  unfold Universal.get, Universal.insert. intros H.
  destruct (empty (getName c)); [discriminate |].
  inv_bind H. rewrite Hret. simpl bind.
  inv_bind H. rewrite Hret0. simpl bind.
  destruct a0 as [n|]; [reflexivity | discriminate].
Qed.

(** *** Fuel

    A walk that ended, by returning or by undefined behaviour, ends the
    same way with more fuel; only [Timeout] depends on the fuel. *)

Lemma chain_find_refines (fuel fuel' : nat) h cur key :
  (fuel <= fuel')%nat ->
  refines (Universal.chain_find fuel h cur key) (Universal.chain_find fuel' h cur key).
Proof.
  revert fuel' cur. induction fuel as [|fuel IH]; intros fuel' cur Hle;
    [apply refines_Timeout |].
  destruct fuel' as [|fuel']; [lia |]. simpl.
  destruct cur as [a|]; [| apply refines_refl].
  apply bind_refines; [apply refines_refl |]. intros n.
  destruct (String.eqb _ _); [apply refines_refl | apply IH; lia].
Qed.

Lemma rehash_chain_refines (fuel fuel' : nat) capacity cur h bs :
  (fuel <= fuel')%nat ->
  refines (Universal.rehash_chain fuel capacity cur h bs)
          (Universal.rehash_chain fuel' capacity cur h bs).
Proof.
  revert fuel' cur h bs. induction fuel as [|fuel IH]; intros fuel' cur h bs Hle;
    [apply refines_Timeout |].
  destruct fuel' as [|fuel']; [lia |]. simpl.
  destruct cur as [a|]; [| apply refines_refl].
  apply bind_refines; [apply refines_refl |]. intros n.
  apply bind_refines; [apply refines_refl |]. intros new_head.
  apply bind_refines; [apply refines_refl |]. intros bs'.
  apply IH. lia.
Qed.

Lemma destroy_chain_refines (fuel fuel' : nat) cur h :
  (fuel <= fuel')%nat ->
  refines (Universal.destroy_chain fuel cur h) (Universal.destroy_chain fuel' cur h).
Proof.
  revert fuel' cur h. induction fuel as [|fuel IH]; intros fuel' cur h Hle;
    [apply refines_Timeout |].
  destruct fuel' as [|fuel']; [lia |]. simpl.
  destruct cur as [a|]; [| apply refines_refl].
  apply bind_refines; [apply refines_refl |]. intros n. apply IH. lia.
Qed.

Lemma collect_chain_refines (fuel fuel' : nat) h cur acc :
  (fuel <= fuel')%nat ->
  refines (Universal.collect_chain fuel h cur acc)
          (Universal.collect_chain fuel' h cur acc).
Proof.
  revert fuel' cur acc. induction fuel as [|fuel IH]; intros fuel' cur acc Hle;
    [apply refines_Timeout |].
  destruct fuel' as [|fuel']; [lia |]. simpl.
  destruct cur as [a|]; [| apply refines_refl].
  apply bind_refines; [apply refines_refl |]. intros n.
  apply bind_refines; [apply refines_refl |]. intros acc'. apply IH. lia.
Qed.

Lemma remove_walk_refines (fuel fuel' : nat) name index cur prev h bs :
  (fuel <= fuel')%nat ->
  refines (Universal.remove_walk fuel name index cur prev h bs)
          (Universal.remove_walk fuel' name index cur prev h bs).
Proof.
  revert fuel' cur prev. induction fuel as [|fuel IH]; intros fuel' cur prev Hle;
    [apply refines_Timeout |].
  destruct fuel' as [|fuel']; [lia |]. simpl.
  destruct cur as [a|]; [| apply refines_refl].
  apply bind_refines; [apply refines_refl |]. intros n.
  destruct (String.eqb _ _); [apply refines_refl | apply IH; lia].
Qed.

Lemma resize_refines (fuel fuel' : nat) t :
  (fuel <= fuel')%nat ->
  refines (Universal.resize fuel t) (Universal.resize fuel' t).
Proof.
  intros Hle. unfold Universal.resize.
  apply bind_refines; [apply refines_refl |]. intros grown.
  apply bind_refines; [| intros [h bs]; apply refines_refl].
  apply for_range_refines. intros i [h bs].
  apply bind_refines; [apply refines_refl |]. intros cur.
  apply rehash_chain_refines. exact Hle.
Qed.

Lemma insert_refines (fuel fuel' : nat) t c :
  (fuel <= fuel')%nat ->
  refines (Universal.insert fuel t c) (Universal.insert fuel' t c).
Proof.
  intros Hle. destruct c as [c|]; [| apply refines_refl]. simpl.
  apply bind_refines; [apply refines_refl |]. intros head.
  apply bind_refines; [apply chain_find_refines; exact Hle |]. intros [n|];
    [apply refines_refl |].
  apply bind_refines; [apply refines_refl |]. intros bs.
  apply bind_refines; [| intros t2; apply refines_refl].
  destruct (load_exceeds _ _); [apply resize_refines; exact Hle | apply refines_refl].
Qed.

Lemma destroy_refines (fuel fuel' : nat) t :
  (fuel <= fuel')%nat ->
  refines (Universal.destroy fuel t) (Universal.destroy fuel' t).
Proof.
  intros Hle. unfold Universal.destroy.
  apply bind_refines; [| intros h; apply refines_refl].
  apply for_range_refines. intros i h.
  apply bind_refines; [apply refines_refl |]. intros cur.
  apply destroy_chain_refines. exact Hle.
Qed.

Lemma inject_loop_refines (fuel fuel' : nat) capacity cs h bs out :
  (fuel <= fuel')%nat ->
  refines (Universal.inject_loop fuel capacity cs h bs out)
          (Universal.inject_loop fuel' capacity cs h bs out).
Proof.
  intros Hle. revert h bs out. induction cs as [|[c|] cs IH]; intros h bs out; simpl.
  - apply refines_refl.
  - apply bind_refines; [apply refines_refl |]. intros head.
    apply bind_refines; [apply chain_find_refines; exact Hle |]. intros [n|];
      [apply IH |].
    apply bind_refines; [apply refines_refl |]. intros bs'. apply IH.
  - apply IH.
Qed.

Lemma inject_refines (fuel fuel' : nat) t cs :
  (fuel <= fuel')%nat ->
  refines (Universal.inject fuel t cs) (Universal.inject fuel' t cs).
Proof.
  intros Hle. unfold Universal.inject. destruct cs as [|c cs]; [apply refines_refl |].
  apply bind_refines; [apply destroy_refines; exact Hle |]. intros t1.
  apply bind_refines; [apply refines_refl |]. intros bs.
  apply bind_refines; [apply inject_loop_refines; exact Hle |].
  intros [[h bs'] out]. apply refines_refl.
Qed.

Lemma remove_refines (fuel fuel' : nat) t name :
  (fuel <= fuel')%nat ->
  refines (Universal.remove fuel t name) (Universal.remove fuel' t name).
Proof.
  intros Hle. unfold Universal.remove. destruct (empty name); [apply refines_refl |].
  apply bind_refines; [apply refines_refl |]. intros head.
  apply bind_refines; [apply remove_walk_refines; exact Hle |].
  intros [[found h] bs]. apply refines_refl.
Qed.

Lemma get_refines (fuel fuel' : nat) t name :
  (fuel <= fuel')%nat ->
  refines (Universal.get fuel t name) (Universal.get fuel' t name).
Proof.
  intros Hle. unfold Universal.get. destruct (empty name); [apply refines_refl |].
  apply bind_refines; [apply refines_refl |]. intros head.
  apply bind_refines; [apply chain_find_refines; exact Hle |].
  intros found. apply refines_refl.
Qed.

Lemma getSorted_refines (fuel fuel' : nat) t :
  (fuel <= fuel')%nat ->
  refines (Universal.getSorted fuel t) (Universal.getSorted fuel' t).
Proof.
  intros Hle. unfold Universal.getSorted, Universal.sort.
  apply bind_refines; [| intros t'; apply refines_refl].
  apply bind_refines; [| intros l; apply refines_refl].
  apply for_range_refines. intros i acc.
  apply bind_refines; [apply refines_refl |]. intros cur.
  apply collect_chain_refines. exact Hle.
Qed.

(** *** Walks that never end *)

Lemma chain_find_self_loop (h : list (option Universal.DataNode))
      (a : Universal.addr) (n : Universal.DataNode) (key : string) :
  h !! a = Some (Some n) -> Universal.nextNode n = Some a ->
  String.eqb (getName (Universal.course n)) key = false ->
  forall fuel, Universal.chain_find fuel h (Some a) key = Timeout.
Proof.
  intros Ha Hnext Hkey fuel. induction fuel as [|fuel IH]; simpl; [reflexivity |].
  unfold Universal.deref. rewrite Ha. simpl. rewrite Hkey, Hnext. exact IH.
Qed.

(** Round a cycle the traversal of [sort] pushes to the view until the
    vector cannot grow. *)
Lemma collect_chain_self_loop (h : list (option Universal.DataNode))
      (a : Universal.addr) (n : Universal.DataNode) :
  h !! a = Some (Some n) -> Universal.nextNode n = Some a ->
  forall fuel acc,
    Z.of_nat (length acc) <= max_buckets ->
    Universal.collect_chain fuel h (Some a) acc =
    if Z.of_nat (length acc) + Z.of_nat fuel <=? max_buckets then Timeout else Throws.
Proof.
  intros Ha Hnext fuel. induction fuel as [|fuel IH]; intros acc Hacc.
  - cbn [Universal.collect_chain].
    destruct (Z.leb_spec (Z.of_nat (length acc) + Z.of_nat 0) max_buckets);
      [reflexivity | lia].
  - cbn [Universal.collect_chain]. unfold Universal.deref. rewrite Ha. cbn [bind].
    unfold vector_push_back.
    destruct (Z.leb_spec max_buckets (Z.of_nat (length acc))) as [Hfull|Hroom]; cbn [bind].
    + destruct (Z.leb_spec (Z.of_nat (length acc) + Z.of_nat (S fuel)) max_buckets);
        [lia | reflexivity].
    + rewrite Hnext, IH by (rewrite length_app; cbn [length]; lia).
      rewrite length_app. cbn [length].
      replace (Z.of_nat (length acc + 1) + Z.of_nat fuel)
        with (Z.of_nat (length acc) + Z.of_nat (S fuel)) by lia.
      reflexivity.
Qed.

Lemma insert_never_returns (t : Universal.DataStructure) (c : Course)
      (a : Universal.addr) (n : Universal.DataNode) :
  vector_at (Universal.buckets t) (hash (Universal.capacity t) (getName c)) =
    Ret (Some a) ->
  Universal.heap t !! a = Some (Some n) -> Universal.nextNode n = Some a ->
  String.eqb (getName (Universal.course n)) (getName c) = false ->
  forall fuel, Universal.insert fuel t (Some c) = Timeout.
Proof.
  intros Hb Ha Hnext Hkey fuel. unfold Universal.insert. rewrite Hb. simpl bind.
  rewrite (chain_find_self_loop _ _ _ _ Ha Hnext Hkey). reflexivity.
Qed.

Lemma getSorted_never_returns (t : Universal.DataStructure)
      (a : Universal.addr) (n : Universal.DataNode) :
  (0 < Z.to_nat (Universal.capacity t))%nat ->
  vector_at (Universal.buckets t) 0 = Ret (Some a) ->
  Universal.heap t !! a = Some (Some n) -> Universal.nextNode n = Some a ->
  forall fuel,
    Universal.getSorted fuel t =
    if Z.of_nat fuel <=? max_buckets then Timeout else Throws.
Proof.
  intros Hcap Hb Ha Hnext fuel. unfold Universal.getSorted, Universal.sort.
  destruct (Z.to_nat (Universal.capacity t)) as [|k]; [lia |].
  cbn [for_range]. change (Z.of_nat 0) with 0. rewrite Hb. cbn [bind].
  rewrite (collect_chain_self_loop _ _ _ Ha Hnext)
    by (cbn [length]; unfold max_buckets; lia).
  cbn [length]. change (Z.of_nat 0 + Z.of_nat fuel) with (Z.of_nat fuel).
  destruct (Z.of_nat fuel <=? max_buckets); reflexivity.
Qed.

Lemma get_dangling (t : Universal.DataStructure) (name : string)
      (a b : Universal.addr) (n : Universal.DataNode) :
  empty name = false ->
  vector_at (Universal.buckets t) (hash (Universal.capacity t) name) = Ret (Some a) ->
  Universal.heap t !! a = Some (Some n) ->
  String.eqb (getName (Universal.course n)) name = false ->
  Universal.nextNode n = Some b ->
  Universal.heap t !! b = Some None ->
  forall fuel, Universal.get (S (S fuel)) t name = Undefined.
Proof.
  intros He Hb Ha Hkey Hnext Hdead fuel. unfold Universal.get. rewrite He, Hb.
  simpl. unfold Universal.deref. rewrite Ha. simpl. rewrite Hkey, Hnext.
  rewrite Hdead. reflexivity.
Qed.


(** ** The two tables at work *)

Lemma universal_new_built : Universal.new_table = Ret universal_new.
Proof. reflexivity. Qed.

Lemma owned_new_built : Owned.new_table = Ret owned_new.
Proof. reflexivity. Qed.

Lemma table768_built : universal_after 768 = Ret table768.
Proof. vm_compute. reflexivity. Qed.

Lemma table769_built :
  Universal.insert 8 table768 (Some (sample_course 768)) = Ret (table769, []).
Proof. vm_compute. reflexivity. Qed.

Lemma table769_resized :
  Universal.capacity table768 = 1024 /\ Universal.size table768 = 768 /\
  Universal.capacity table769 = 2048 /\ Universal.size table769 = 769.
Proof. vm_compute. auto. Qed.

(** After the resize the node of CSCI710 heads bucket 0 and is its own
    successor. *)
Lemma table769_cycle :
  vector_at (Universal.buckets table769) 0 = Ret (Some 710%nat) /\
  Universal.heap table769 !! 710%nat =
    Some (Some (Universal.mkNode (sample_course 710) (Some 710%nat))).
Proof. vm_compute. auto. Qed.

(** CSCI952 hashes to bucket 0 as well, so inserting it walks the chain of
    CSCI710 without end. *)
Lemma table769_insert_diverges :
  forall fuel, Universal.insert fuel table769 (Some (sample_course 952)) = Timeout.
Proof.
  apply (insert_never_returns table769 (sample_course 952) 710%nat
           (Universal.mkNode (sample_course 710) (Some 710%nat))).
  - vm_compute. reflexivity.
  - vm_compute. reflexivity.
  - reflexivity.
  - vm_compute. reflexivity.
Qed.

Lemma table769_getSorted_diverges :
  forall fuel,
    Universal.getSorted fuel table769 =
    if Z.of_nat fuel <=? max_buckets then Timeout else Throws.
Proof.
  apply (getSorted_never_returns table769 710%nat
           (Universal.mkNode (sample_course 710) (Some 710%nat))).
  - apply Nat.ltb_lt. vm_compute. reflexivity.
  - vm_compute. reflexivity.
  - vm_compute. reflexivity.
  - reflexivity.
Qed.

Lemma table769_lookup :
  Universal.get 8 table768 (numbered "CSCI" 768) = Ret None /\
  Universal.get 8 table769 (numbered "CSCI" 768) = Ret (Some (sample_course 768)).
Proof. vm_compute. auto. Qed.

Lemma table769_removed_built :
  Universal.remove 8 table769 (numbered "CSCI" 768) = Ret (table769_removed, []).
Proof. vm_compute. reflexivity. Qed.

(** The removed node is still linked from the node of CSCI526, so the next
    lookup reads a deleted node. *)
Lemma table769_removed_lookup :
  forall fuel,
    Universal.get (S (S fuel)) table769_removed (numbered "CSCI" 768) = Undefined.
Proof.
  apply (get_dangling table769_removed (numbered "CSCI" 768) 526%nat 768%nat
           (Universal.mkNode (sample_course 526) (Some 768%nat))).
  - reflexivity.
  - vm_compute. reflexivity.
  - vm_compute. reflexivity.
  - vm_compute. reflexivity.
  - reflexivity.
  - vm_compute. reflexivity.
Qed.

Lemma owned_one_built :
  Owned.insert owned_new (Some (sample_course 0)) = Ret (owned_one, []).
Proof. vm_compute. reflexivity. Qed.

Lemma owned_one_viewed_built :
  Owned.getSorted owned_one = Ret (owned_one_viewed, [sample_course 0]).
Proof. vm_compute. reflexivity. Qed.

(** CSCI121 is not in the table, but its name hashes to the bucket of
    CSCI000: the walk of [remove] destroys that chain, reports that the
    course was not found, and leaves the cache marked valid. *)
Lemma owned_one_emptied_built :
  Owned.remove owned_one_viewed (numbered "CSCI" 121) =
  Ret (owned_one_emptied, ["Course not found: CSCI121"]).
Proof. vm_compute. reflexivity. Qed.

Lemma owned_one_emptied_view :
  entries owned_one_emptied = [] /\
  Owned.getSorted owned_one_emptied = Ret (owned_one_emptied, [sample_course 0]).
Proof. vm_compute. auto. Qed.

Lemma owned_new_sized : sized owned_new.
Proof. split; [unfold max_buckets; simpl; lia | reflexivity]. Qed.

(** Two records whose names share a bucket: the second replaces the
    first. *)
Lemma owned_inject_collision :
  forall fuel,
    exists t,
      Owned.inject (4 + fuel) owned_new
        [Some (sample_course 0); Some (sample_course 121)] = Ret (t, []) /\
      entries t = [sample_course 121].
Proof.
  intros fuel.
  assert (H4 : exists t,
             Owned.inject 4 owned_new
               [Some (sample_course 0); Some (sample_course 121)] = Ret (t, []) /\
             entries t = [sample_course 121]).
  { eexists. split; vm_compute; reflexivity. }
  destruct H4 as (t & H4 & He). exists t. split; [| exact He].
  rewrite <- H4. apply owned_inject_refines; [lia |]. rewrite H4. discriminate.
Qed.

Lemma universal_one_built :
  Universal.insert 8 universal_new (Some (sample_course 0)) = Ret (universal_one, []).
Proof. vm_compute. reflexivity. Qed.

(** [inject] on a table that holds a course: [destroy] deletes the node
    and leaves its bucket pointing at it, and the duplicate check then
    reads the deleted node. *)
Lemma universal_inject_dangling :
  forall fuel,
    Universal.inject (8 + fuel) universal_one [Some (sample_course 0)] = Undefined.
Proof.
  intros fuel.
  assert (H8 : Universal.inject 8 universal_one [Some (sample_course 0)] = Undefined)
    by (vm_compute; reflexivity).
  rewrite <- H8. apply inject_refines; [lia |]. rewrite H8. discriminate.
Qed.

(** [inject] on a new table: of two records of one name the first is
    kept; the count of courses stays 0. *)
Lemma universal_inject_new :
  exists t,
    Universal.inject 8 universal_new
      [Some (sample_course 0); Some (sample_course 121);
       Some (mkCourse (numbered "CSCI" 0) "Another title" [])] =
      Ret (t, ["Duplicate course: CSCI000 ; skipping"]) /\
    Universal.get 8 t (numbered "CSCI" 0) = Ret (Some (sample_course 0)) /\
    Universal.get 8 t (numbered "CSCI" 121) = Ret (Some (sample_course 121)) /\
    Universal.heap t =
      [Some (Universal.mkNode (sample_course 0) None);
       Some (Universal.mkNode (sample_course 121) (Some 0%nat))] /\
    Universal.size t = 0.
Proof.
  eexists. split; [vm_compute; reflexivity |].
  repeat split; vm_compute; reflexivity.
Qed.

(** Where the one-node chains end: on a table built with
    [DataStructure(17)], with a name that has a byte above 127, the
    thirteenth insert doubles the capacity to 34 and brings two courses
    into one bucket; the insert of a record named as the second of them
    then reports the duplicate and destroys the first. *)
Lemma owned_insert_two_node_chain :
  exists t0 t t',
    Owned.new_table_with 17 = Ret t0 /\
    owned_insert_each t0 thirteen = Ret t /\
    Owned.capacity t = 34 /\
    Owned.buckets t !! 28%nat = Some [byte_course [51%nat; 233%nat]; byte_course [62%nat]] /\
    Owned.insert t (Some (byte_course [62%nat])) = Ret (t', ["Duplicate course: >"]) /\
    Owned.buckets t' !! 28%nat = Some [byte_course [62%nat]].
Proof.
  eexists. eexists. eexists.
  split; [vm_compute; reflexivity |].
  split; [vm_compute; reflexivity |].
  split; [reflexivity |].
  split; [reflexivity |].
  split; [vm_compute; reflexivity | reflexivity].
Qed.

(** On an empty sequence [inject] prints its warning and changes nothing,
    in both files. *)
Lemma inject_empty_unchanged :
  (forall fuel t,
      Owned.inject fuel t [] =
      Ret (t, ["Warning: Empty or null course list. No change made."])) /\
  (forall fuel t,
      Universal.inject fuel t [] =
      Ret (t, ["Warning: Empty or null course list. No change made."])).
Proof. split; reflexivity. Qed.


(** ** The claims about the table *)

(** C1. bulkReplace ([DataStructure::inject]) is meant to replace the table
    by the incoming records, the first of each name winning.  The code does
    not: in part_000 a record whose name shares a bucket with an earlier
    record replaces it (CSCI000 is lost to CSCI121), and two records of one
    name keep the call in its inner loop for ever; in
    ProjectTwoUniversal.cpp a call on a table that holds a course reads the
    node it has just deleted. *)
Theorem C1_bulkReplace_failures :
  (forall fuel, exists t,
      Owned.inject (4 + fuel) owned_new
        [Some (sample_course 0); Some (sample_course 121)] = Ret (t, []) /\
      entries t = [sample_course 121]) /\
  (forall fuel,
      Owned.inject fuel owned_new
        [Some (sample_course 0); Some (sample_course 0)] = Timeout) /\
  (Universal.insert 8 universal_new (Some (sample_course 0)) = Ret (universal_one, []) /\
   forall fuel,
     Universal.inject (8 + fuel) universal_one [Some (sample_course 0)] = Undefined).
Proof.
  split; [exact owned_inject_collision |]. split.
  - apply owned_inject_duplicate_diverges; [exact owned_new_sized | reflexivity].
  - split; [exact universal_one_built | exact universal_inject_dangling].
Qed.

(** C2. In ProjectTwoUniversal.cpp the 769th insert into a new table
    doubles the capacity, but the rehash leaves the node of CSCI710 as its
    own successor: the insert of CSCI952 that follows never returns. *)
Theorem C2_resize_breaks_chains :
  universal_after 768 = Ret table768 /\
  Universal.insert 8 table768 (Some (sample_course 768)) = Ret (table769, []) /\
  Universal.capacity table769 = 2 * Universal.capacity table768 /\
  Universal.heap table769 !! 710%nat =
    Some (Some (Universal.mkNode (sample_course 710) (Some 710%nat))) /\
  (forall fuel, Universal.insert fuel table769 (Some (sample_course 952)) = Timeout).
Proof.
  split; [exact table768_built |]. split; [exact table769_built |].
  split; [vm_compute; reflexivity |].
  split; [exact (proj2 table769_cycle) | exact table769_insert_diverges].
Qed.

(** Where the duplicate rule holds in part_000: on the tables of the
    program, built by [DataStructure()], and on the tables built by either
    constructor from records whose names have bytes below 128 only. *)
Lemma owned_duplicate_rejected :
  (forall t c e,
      Owned.reachable t -> e ∈ entries t -> getName e = getName c ->
      Owned.insert t (Some c) =
      Ret (t, [String.append "Duplicate course: " (getName c)])) /\
  (forall t0 t c e,
      Owned.constructed t0 -> reachable_with (fun x => plain (getName x)) t0 t ->
      e ∈ entries t -> getName e = getName c ->
      Owned.insert t (Some c) =
      Ret (t, [String.append "Duplicate course: " (getName c)])).
Proof.
  split.
  - intros t c e Hr. apply owned_insert_duplicate_stored, reachable_Inv, Hr.
  - intros t0 t c e H0 Hr. apply owned_insert_duplicate_stored.
    apply (reachable_plain_good t0 t H0 Hr).
Qed.

(** C3. In part_000 the duplicate check of [insert] walks through a
    reference to the bucket and destroys the nodes it passes.  On the table
    built by [DataStructure(17)] and thirteen inserts, the lookup finds the
    course named [3] and the byte 233 and the course named [>], both in
    bucket 28; the insert of a record named [>] is rejected as a duplicate,
    and afterwards the table is another one: the first course is no longer
    found.  A null record is answered with the diagnostic and no change. *)
Theorem C3_duplicate_destroys_entry :
  Owned.new_table_with 17 = Ret owned_new17 /\
  owned_insert_each owned_new17 thirteen = Ret owned17_full /\
  Owned.get owned17_full (getName (byte_course [51%nat; 233%nat])) =
    Ret (Some (byte_course [51%nat; 233%nat])) /\
  Owned.get owned17_full ">" = Ret (Some (byte_course [62%nat])) /\
  Owned.insert owned17_full (Some (byte_course [62%nat])) =
    Ret (owned17_after, ["Duplicate course: >"]) /\
  owned17_after <> owned17_full /\
  Owned.get owned17_after (getName (byte_course [51%nat; 233%nat])) = Ret None /\
  Owned.insert owned17_full None = Ret (owned17_full, ["Unable to insert empty course!"]).
Proof.
  split; [reflexivity |]. split; [vm_compute; reflexivity |].
  split; [vm_compute; reflexivity |]. split; [vm_compute; reflexivity |].
  split; [vm_compute; reflexivity |].
  split; [intros H; vm_compute in H; discriminate H |].
  split; [vm_compute; reflexivity | reflexivity].
Qed.

(** C4. The cached view of part_000 can be stale: after [remove] was
    asked for CSCI121, which is not stored but shares the bucket of
    CSCI000, the table holds no course while [getSorted] still returns
    CSCI000.  In ProjectTwoUniversal.cpp, which has no cache, [getSorted]
    returns no view once the resize has run: the traversal goes round the
    cycle, pushing to the vector in every round, until the vector cannot
    grow and the call ends in an exception. *)
Theorem C4_stale_sorted_view :
  Owned.insert owned_new (Some (sample_course 0)) = Ret (owned_one, []) /\
  Owned.getSorted owned_one = Ret (owned_one_viewed, [sample_course 0]) /\
  Owned.remove owned_one_viewed (numbered "CSCI" 121) =
    Ret (owned_one_emptied, ["Course not found: CSCI121"]) /\
  entries owned_one_emptied = [] /\
  Owned.getSorted owned_one_emptied = Ret (owned_one_emptied, [sample_course 0]) /\
  (forall fuel,
      Universal.getSorted fuel table769 =
      if Z.of_nat fuel <=? max_buckets then Timeout else Throws).
Proof.
  split; [exact owned_one_built |]. split; [exact owned_one_viewed_built |].
  split; [exact owned_one_emptied_built |].
  split; [exact (proj1 owned_one_emptied_view) |].
  split; [exact (proj2 owned_one_emptied_view) | exact table769_getSorted_diverges].
Qed.

(** C5. The [split] of ProjectTwoUniversal.cpp does not look at quotes: on
    the line CS10101,"Intro, to CS", it cuts at the comma inside the quoted
    title and keeps the quotation marks, where the [split] of part_000
    gives the title whole. *)
Theorem C5_split_ignores_quotes :
  Universal.LineParser.split quoted_line "," =
    ["CS10101"; String ch_dquote "Intro";
     String.append " to CS" (String ch_dquote EmptyString)] /\
  Owned.LineParser.split quoted_line "," = ["CS10101"; "Intro, to CS"] /\
  Universal.LineParser.split quoted_line "," <> spec_split quoted_line ",".
Proof.
  split; [reflexivity |]. split; [reflexivity |].
  rewrite <- owned_split_refines. vm_compute. discriminate.
Qed.

(** C6. In ProjectTwoUniversal.cpp, when the insert of a record triggers
    the resize, the lookup finds the record, but after it was removed the
    next lookup of its name reads the deleted node instead of reporting
    that nothing was found. *)
Theorem C6_lookup_after_remove :
  Universal.get 8 table768 (numbered "CSCI" 768) = Ret None /\
  Universal.insert 8 table768 (Some (sample_course 768)) = Ret (table769, []) /\
  Universal.get 8 table769 (numbered "CSCI" 768) = Ret (Some (sample_course 768)) /\
  Universal.remove 8 table769 (numbered "CSCI" 768) = Ret (table769_removed, []) /\
  (forall fuel,
      Universal.get (S (S fuel)) table769_removed (numbered "CSCI" 768) = Undefined).
Proof.
  split; [exact (proj1 table769_lookup) |]. split; [exact table769_built |].
  split; [exact (proj2 table769_lookup) |].
  split; [exact table769_removed_built | exact table769_removed_lookup].
Qed.

(** [inject] of part_000 has no capacity reset: the capacity stays. *)
Lemma owned_inject_capacity (fuel : nat) (t : Owned.DataStructure)
      (cs : list (option Course)) (t' : Owned.DataStructure) (out : list string) :
  Owned.inject fuel t cs = Ret (t', out) -> Owned.capacity t' = Owned.capacity t.
Proof. intros H. apply inject_fields in H as [Hc _]. exact Hc. Qed.

Lemma six_hundred_injected :
  exists t out,
    Universal.inject 8 universal_new six_hundred = Ret (t, out) /\
    Universal.capacity t = 1024.
Proof. eexists. eexists. split; [vm_compute; reflexivity | reflexivity]. Qed.

(** The capacity [inject] of ProjectTwoUniversal.cpp sets, when the
    call returns: 2 * n for more than 1024 records, 1024 otherwise. *)
Lemma universal_inject_capacity (fuel : nat) (t : Universal.DataStructure)
      (cs : list (option Course)) (t' : Universal.DataStructure) (out : list string) :
  cs <> [] -> Z.of_nat (length cs) <= max_buckets ->
  Universal.inject fuel t cs = Ret (t', out) ->
  Universal.capacity t' =
  if 1024 <? Z.of_nat (length cs) then 2 * Z.of_nat (length cs) else 1024.
Proof.
  intros Hne Hn H. unfold Universal.inject in H.
  destruct cs as [|c cs]; [congruence |].
  inv_bind H. inv_bind H. inv_bind H. destruct a1 as [[h bs'] out0].
  apply Ret_inj in H. injection H as <- <-. cbn [Universal.capacity].
  change (Z.of_nat (S (length cs))) with (Z.of_nat (length (c :: cs))).
  destruct (1024 <? Z.of_nat (length (c :: cs))); [| reflexivity].
  unfold max_buckets in Hn. rewrite wrap64_small; lia.
Qed.

(** C9. [inject] of part_000 has no capacity reset: a table built by
    [DataStructure(17)] still has capacity 17 after a bulk replace by one
    record, where the claim requires max(1024, 2 * 1) = 1024, as
    ProjectTwoUniversal.cpp gives on that input.  ProjectTwoUniversal.cpp
    resets to 1024 and grows only for more than 1024 records: for 600
    records it gives 1024, not max(1024, 2 * 600) = 1200. *)
Theorem C9_capacity_not_reset :
  Owned.new_table_with 17 = Ret owned_new17 /\
  (exists t,
      Owned.inject 2 owned_new17 [Some (sample_course 0)] = Ret (t, []) /\
      Owned.capacity t = 17 /\
      Owned.capacity t <> Z.max 1024 (2 * 1)) /\
  (exists t,
      Universal.inject 8 universal_new [Some (sample_course 0)] = Ret (t, []) /\
      Universal.capacity t = Z.max 1024 (2 * 1)) /\
  (exists t out,
      Universal.inject 8 universal_new six_hundred = Ret (t, out) /\
      Z.of_nat (length six_hundred) = 600 /\
      Universal.capacity t = 1024 /\
      Universal.capacity t <> Z.max 1024 (2 * 600)).
Proof.
  split; [reflexivity |]. split.
  { eexists. split; [vm_compute; reflexivity |]. split; [reflexivity |].
    vm_compute. discriminate. }
  split.
  { eexists. split; [vm_compute; reflexivity | reflexivity]. }
  destruct six_hundred_injected as (t & out & H & Hc).
  exists t, out. split; [exact H |]. split; [reflexivity |].
  split; [exact Hc |]. rewrite Hc. vm_compute. discriminate.
Qed.

(** C10. In every state a table reaches from either constructor, the hash
    of every key, the empty one included, is below the capacity, and the
    bucket at that index exists: the access is never out of range. *)
Theorem C10_hash_in_bounds :
  (forall t0 t key,
      Owned.constructed t0 -> Owned.reachable_from t0 t ->
      0 <= hash (Owned.capacity t) key < Owned.capacity t /\
      exists chain,
        vector_at (Owned.buckets t) (hash (Owned.capacity t) key) = Ret chain) /\
  (forall t0 t key,
      Universal.constructed t0 -> Universal.reachable_from t0 t ->
      0 <= hash (Universal.capacity t) key < Universal.capacity t /\
      exists head,
        vector_at (Universal.buckets t) (hash (Universal.capacity t) key) = Ret head).
Proof.
  split.
  - intros t0 t key H0 Hr.
    pose proof (reachable_from_sized t0 t (constructed_sized t0 H0) Hr) as Hs.
    split; [apply hash_range; destruct Hs; lia |].
    eexists. apply sized_bucket. exact Hs.
  - intros t0 t key H0 Hr.
    pose proof (ureachable_from_sized t0 t (uconstructed_sized t0 H0) Hr) as [Hcap Hlen].
    pose proof (hash_range (Universal.capacity t) key ltac:(lia)) as Hh.
    split; [exact Hh |].
    destruct (lookup_lt_is_Some_2 (Universal.buckets t)
                (Z.to_nat (hash (Universal.capacity t) key)) ltac:(lia)) as [head Hhead].
    exists head. unfold vector_at. rewrite Hhead. reflexivity.
Qed.

Lemma C10_hash_in_bounds_witness :
  (0 <= hash (Owned.capacity owned_one) EmptyString < Owned.capacity owned_one /\
   exists chain,
     vector_at (Owned.buckets owned_one) (hash (Owned.capacity owned_one) EmptyString) =
     Ret chain) /\
  (0 <= hash (Universal.capacity universal_one) "CSCI952"
     < Universal.capacity universal_one /\
   exists head,
     vector_at (Universal.buckets universal_one)
               (hash (Universal.capacity universal_one) "CSCI952") = Ret head).
Proof.
  split.
  - apply (proj1 C10_hash_in_bounds owned_new owned_one EmptyString).
    + left. reflexivity.
    + apply (Owned.reach_insert owned_new owned_new (Some (sample_course 0)) owned_one []).
      * apply Owned.reach_start.
      * vm_compute. reflexivity.
  - apply (proj2 C10_hash_in_bounds universal_new universal_one "CSCI952").
    + left. reflexivity.
    + apply (Universal.reach_insert universal_new 8%nat universal_new
               (Some (sample_course 0)) universal_one []).
      * apply Universal.reach_start.
      * vm_compute. reflexivity.
Defined.


(** * More of the program *)

(** ** Strings *)

Lemma append_cons (x : ascii) (a b : string) :
  String.append (String x a) b = String x (String.append a b).
Proof. reflexivity. Qed.

Lemma append_nil_l (b : string) : String.append EmptyString b = b.
Proof. reflexivity. Qed.

Lemma append_nil_r (s : string) : String.append s EmptyString = s.
Proof.
  induction s as [|c s IH]; [reflexivity |]. rewrite append_cons. now rewrite IH.
Qed.

Lemma append_assoc (a b c : string) :
  String.append (String.append a b) c = String.append a (String.append b c).
Proof.
  induction a as [|x a IH]; [reflexivity |]. rewrite !append_cons. now rewrite IH.
Qed.

Lemma length_append (a b : string) :
  String.length (String.append a b) = (String.length a + String.length b)%nat.
Proof.
  induction a as [|x a IH]; [reflexivity |].
  rewrite append_cons. cbn [String.length]. now rewrite IH.
Qed.

Lemma occurs_in_cons (c x : ascii) (s : string) :
  occurs_in c (String x s) <-> x = c \/ occurs_in c s.
Proof. unfold occurs_in. cbn [list_ascii_of_string In]. tauto. Qed.

Lemma occurs_in_nil (c : ascii) : ~ occurs_in c EmptyString.
Proof. intros []. Qed.

Lemma occurs_in_append (c : ascii) (a b : string) :
  occurs_in c (String.append a b) <-> occurs_in c a \/ occurs_in c b.
Proof.
  induction a as [|x a IH].
  - rewrite append_nil_l. pose proof (occurs_in_nil c). tauto.
  - rewrite append_cons, !occurs_in_cons, IH. tauto.
Qed.

Lemma push_char_cons (x : ascii) (s : string) (c : ascii) :
  push_char (String x s) c = String x (push_char s c).
Proof. reflexivity. Qed.

Lemma append_push_char (a b : string) (c : ascii) :
  String.append a (push_char b c) = push_char (String.append a b) c.
Proof. unfold push_char. now rewrite append_assoc. Qed.

Lemma char_at_append_r (a b : string) (i : nat) :
  char_at (String.append a b) (String.length a + i) = char_at b i.
Proof.
  induction a as [|x a IH]; [reflexivity |].
  rewrite append_cons. exact IH.
Qed.

Lemma char_at_append_l (a b : string) (i : nat) :
  (i < String.length a)%nat -> char_at (String.append a b) i = char_at a i.
Proof.
  revert i. induction a as [|x a IH]; intros i Hi; cbn [String.length] in Hi; [lia |].
  rewrite append_cons.
  destruct i as [|i]; [reflexivity |]. apply (IH i). lia.
Qed.

Lemma substring_append (a b c : string) :
  String.substring (String.length a) (String.length b)
                   (String.append a (String.append b c)) = b.
Proof.
  induction a as [|x a IH].
  - rewrite append_nil_l. cbn [String.length]. clear.
    induction b as [|y b IH].
    + rewrite append_nil_l. destruct c; reflexivity.
    + rewrite append_cons. cbn [String.length String.substring]. now rewrite IH.
  - rewrite append_cons. exact IH.
Qed.

(** ** [Course::toString] *)

Lemma toString_loop_concat (done todo : list string) (acc : string) :
  toString_loop (length todo) (done ++ todo) (length done) acc =
  String.append acc (String.concat ", " todo).
Proof.
  revert done acc. induction todo as [|x todo IH]; intros done acc.
  - cbn [length toString_loop String.concat]. symmetry. apply append_nil_r.
  - cbn [length toString_loop]. rewrite nth_middle.
    replace (done ++ x :: todo) with ((done ++ [x]) ++ todo)
      by (rewrite <- app_assoc; reflexivity).
    replace (S (length done)) with (length (done ++ [x]))
      by (rewrite length_app; simpl; lia).
    rewrite IH.
    rewrite !length_app. cbn [length].
    destruct todo as [|y todo]; cbn [length String.concat].
    + destruct (Nat.ltb_spec (length done) (length done + 1 + 0 - 1)); [lia |].
      now rewrite append_nil_r.
    + destruct (Nat.ltb_spec (length done) (length done + 1 + S (length todo) - 1)); [| lia].
      now rewrite !append_assoc.
Qed.

(** X1. [toString] gives the name, the title and the prerequisites
    joined by a comma and a space, with no separator after the last one;
    a course without prerequisites shows the word None. *)
Theorem X1_toString_format (c : Course) :
  toString c =
  String.append (getName c)
    (String.append ": "
       (String.append (getTitle c)
          (String.append "; Prerequisites: "
             (match getPrerequisites c with
              | [] => "None"
              | _ :: _ => String.concat ", " (getPrerequisites c)
              end)))).
Proof.
  unfold toString. do 4 f_equal.
  destruct (getPrerequisites c) as [|p ps] eqn:Hp.
  - reflexivity.
  - rewrite bool_decide_eq_false_2 by discriminate. cbn [negb].
    exact (toString_loop_concat [] (p :: ps) EmptyString).
Qed.

(** ** [CourseBuilder::filter] *)

Lemma filter_step_dropped (output : string) (c : ascii) :
  CourseBuilder.filter_step output c =
  if dropped c then output else push_char output c.
Proof.
  unfold CourseBuilder.filter_step, dropped.
  destruct (Ascii.eqb c ch_dquote), (Ascii.eqb c ch_squote), (Ascii.eqb c ch_newline),
    (Ascii.eqb c ch_return), (Ascii.eqb c ch_tab); reflexivity.
Qed.

Lemma filter_loop_list (s acc : string) :
  list_ascii_of_string (for_chars CourseBuilder.filter_step s acc) =
  list_ascii_of_string acc ++
  List.filter (fun c => negb (dropped c)) (list_ascii_of_string s).
Proof.
  revert acc. induction s as [|c s IH]; intros acc;
    cbn [for_chars list_ascii_of_string List.filter].
  - now rewrite app_nil_r.
  - rewrite IH, filter_step_dropped. destruct (dropped c); cbn [negb].
    + reflexivity.
    + rewrite list_ascii_push, <- app_assoc. reflexivity.
Qed.

Lemma filter_list (s : string) :
  list_ascii_of_string (CourseBuilder.filter s) =
  List.filter (fun c => negb (dropped c)) (list_ascii_of_string s).
Proof.
  unfold CourseBuilder.filter. destruct s as [|c s]; [reflexivity |].
  cbn [empty]. apply filter_loop_list.
Qed.

Lemma list_ascii_inj (a b : string) :
  list_ascii_of_string a = list_ascii_of_string b -> a = b.
Proof.
  intros H. rewrite <- (string_of_list_ascii_of_string a),
              <- (string_of_list_ascii_of_string b). now rewrite H.
Qed.

Lemma filter_occurs (s : string) (c : ascii) :
  occurs_in c (CourseBuilder.filter s) <-> occurs_in c s /\ dropped c = false.
Proof.
  unfold occurs_in. rewrite filter_list, filter_In.
  destruct (dropped c); cbn [negb]; intuition congruence.
Qed.

(** A string without the bytes [filter] drops is left as it is. *)
Lemma filter_clean (s : string) :
  (forall c, occurs_in c s -> dropped c = false) -> CourseBuilder.filter s = s.
Proof.
  intros H. apply list_ascii_inj. rewrite filter_list.
  unfold occurs_in in H. induction (list_ascii_of_string s) as [|x l IH];
    cbn [List.filter]; [reflexivity |].
  rewrite (H x) by (left; reflexivity). cbn [negb].
  f_equal. apply IH. intros c Hc. apply H. right. exact Hc.
Qed.

Lemma filter_idempotent (s : string) :
  CourseBuilder.filter (CourseBuilder.filter s) = CourseBuilder.filter s.
Proof. apply filter_clean. intros c Hc. apply filter_occurs in Hc. tauto. Qed.

(** X2. [filter] keeps, in their order, exactly the bytes that are not a
    quotation mark, apostrophe, newline, carriage return or tab; filtering
    a second time changes nothing. *)
Theorem X2_filter_keeps (s : string) :
  list_ascii_of_string (CourseBuilder.filter s) =
    List.filter (fun c => negb (dropped c)) (list_ascii_of_string s) /\
  CourseBuilder.filter (CourseBuilder.filter s) = CourseBuilder.filter s.
Proof.
  split; [apply filter_list | apply filter_idempotent].
Qed.

(** ** [CourseBuilder::trim] *)

Lemma all_space_nil : all_space EmptyString.
Proof. intros c Hc. destruct Hc. Qed.

Lemma all_space_cons (c : ascii) (s : string) :
  all_space (String c s) <-> isspace c = true /\ all_space s.
Proof.
  unfold all_space. split.
  - intros H. split; [apply H, occurs_in_cons; auto |].
    intros x Hx. apply H, occurs_in_cons. auto.
  - intros [Hc Hs] x Hx. apply occurs_in_cons in Hx as [<-|Hx]; auto.
Qed.

Lemma all_space_append (a b : string) :
  all_space (String.append a b) <-> all_space a /\ all_space b.
Proof.
  unfold all_space. split.
  - intros H. split; intros c Hc; apply H, occurs_in_append; auto.
  - intros [Ha Hb] c Hc. apply occurs_in_append in Hc as [Hc|Hc]; auto.
Qed.

Lemma string_rev_ind (P : string -> Prop) :
  P EmptyString -> (forall s c, P s -> P (push_char s c)) -> forall s, P s.
Proof.
  intros Hnil Hpush s.
  rewrite <- (string_of_list_ascii_of_string s).
  induction (list_ascii_of_string s) as [|c l IH] using rev_ind; [exact Hnil |].
  replace (string_of_list_ascii (l ++ [c]))
    with (push_char (string_of_list_ascii l) c); [apply Hpush, IH |].
  apply list_ascii_inj.
  rewrite list_ascii_push, !list_ascii_of_string_of_list_ascii. reflexivity.
Qed.

Lemma length_push_char (s : string) (c : ascii) :
  String.length (push_char s c) = S (String.length s).
Proof. unfold push_char. rewrite length_append. cbn [String.length]. lia. Qed.

Lemma char_at_append_0 (a b : string) :
  char_at (String.append a b) (String.length a) = char_at b 0.
Proof.
  rewrite <- (char_at_append_r a b 0). f_equal. lia.
Qed.

(** The first loop of [trim] stops at the first byte that is not white
    space. *)
Lemma trim_start_spec (fuel : nat) (pre lead rest : string) :
  all_space lead ->
  rest = EmptyString \/ isspace (char_at rest 0) = false ->
  (String.length lead <= fuel)%nat ->
  CourseBuilder.trim_start fuel
    (String.append pre (String.append lead rest)) (String.length pre) =
  (String.length pre + String.length lead)%nat.
Proof.
  revert fuel pre. induction lead as [|c lead IH]; intros fuel pre Hlead Hrest Hfuel.
  - rewrite append_nil_l. cbn [String.length]. rewrite Nat.add_0_r.
    destruct fuel as [|fuel]; [reflexivity |]. cbn [CourseBuilder.trim_start].
    destruct Hrest as [-> | Hrest].
    + rewrite append_nil_r. rewrite Nat.ltb_irrefl. reflexivity.
    + rewrite char_at_append_0, Hrest, andb_false_r. reflexivity.
  - apply all_space_cons in Hlead as [Hc Hlead].
    cbn [String.length] in Hfuel. destruct fuel as [|fuel]; [lia |].
    cbn [CourseBuilder.trim_start].
    rewrite char_at_append_0. rewrite append_cons. cbn [char_at String.get]. rewrite Hc.
    rewrite length_append. cbn [String.length].
    destruct (Nat.ltb_spec (String.length pre)
                (String.length pre + S (String.length (String.append lead rest))));
      [| lia].
    cbn [andb].
    replace (String.append pre (String c (String.append lead rest)))
      with (String.append (push_char pre c) (String.append lead rest))
      by (unfold push_char; rewrite append_assoc; reflexivity).
    replace (S (String.length pre)) with (String.length (push_char pre c))
      by apply length_push_char.
    rewrite IH; [| exact Hlead | exact Hrest | lia].
    rewrite length_push_char. cbn [String.length]. lia.
Qed.

(** The second loop stops at the last byte that is not white space. *)
Lemma trim_end_spec (fuel start : nat) (pre core trail extra : string) :
  core <> EmptyString ->
  isspace (char_at core (String.length core - 1)) = false ->
  all_space trail ->
  (start <= String.length pre + String.length core - 1)%nat ->
  (String.length trail <= fuel)%nat ->
  CourseBuilder.trim_end fuel
    (String.append pre (String.append core (String.append trail extra))) start
    (String.length pre + String.length core + String.length trail - 1) =
  (String.length pre + String.length core - 1)%nat.
Proof.
  intros Hne Hlast. revert fuel extra.
  assert (Hlen : (0 < String.length core)%nat).
  { destruct core; [congruence | cbn [String.length]; lia]. }
  induction trail as [|trail c IH] using string_rev_ind;
    intros fuel extra Htrail Hstart Hfuel.
  - cbn [String.length]. rewrite Nat.add_0_r, append_nil_l.
    destruct fuel as [|fuel]; [reflexivity |]. cbn [CourseBuilder.trim_end].
    replace (String.length pre + String.length core - 1)%nat
      with (String.length pre + (String.length core - 1))%nat by lia.
    rewrite char_at_append_r, char_at_append_l by lia.
    rewrite Hlast, andb_false_r. reflexivity.
  - rewrite length_push_char in Hfuel |- *.
    destruct fuel as [|fuel]; [lia |]. cbn [CourseBuilder.trim_end].
    apply all_space_append in Htrail as [Htrail Hc].
    assert (Hsp : isspace c = true).
    { apply Hc. apply occurs_in_cons. auto. }
    assert (Hin : String.append pre (String.append core
                     (String.append (push_char trail c) extra)) =
                  String.append (String.append pre (String.append core trail))
                     (String c extra)).
    { unfold push_char. rewrite !append_assoc. reflexivity. }
    rewrite Hin.
    replace (String.length pre + String.length core + S (String.length trail) - 1)%nat
      with (String.length (String.append pre (String.append core trail)))
      by (rewrite !length_append; lia).
    rewrite char_at_append_0. cbn [char_at String.get]. rewrite Hsp.
    destruct (Nat.leb_spec start
                (String.length (String.append pre (String.append core trail))));
      [| rewrite !length_append in *; lia].
    cbn [andb].
    rewrite !append_assoc.
    replace (String.length (String.append pre (String.append core trail)) - 1)%nat
      with (String.length pre + String.length core + String.length trail - 1)%nat
      by (rewrite !length_append; lia).
    apply IH; [exact Htrail | exact Hstart | lia].
Qed.

Lemma trim_all_space (s : string) : all_space s -> CourseBuilder.trim s = EmptyString.
Proof.
  intros Hs. unfold CourseBuilder.trim.
  destruct (empty s) eqn:He; [destruct s; [reflexivity | discriminate He] |].
  pose proof (trim_start_spec (String.length s) EmptyString s EmptyString) as H.
  rewrite append_nil_r, append_nil_l in H. cbn [String.length Nat.add] in H.
  rewrite H by auto. rewrite Nat.eqb_refl. reflexivity.
Qed.

(** [trim] takes the white space off both ends and nothing else. *)
Lemma trim_decomposed (lead core trail : string) :
  all_space lead -> all_space trail -> tight core ->
  CourseBuilder.trim (String.append lead (String.append core trail)) = core.
Proof.
  intros Hlead Htrail Hcore.
  destruct (String.eqb_spec core EmptyString) as [-> | Hne].
  { rewrite append_nil_l. apply trim_all_space, all_space_append. auto. }
  destruct Hcore as [-> | [Hfirst Hlast]]; [congruence |].
  unfold CourseBuilder.trim.
  set (input := String.append lead (String.append core trail)).
  assert (Hlen : (0 < String.length core)%nat).
  { destruct core; [congruence | cbn [String.length]; lia]. }
  assert (Hlen_in : String.length input =
                    (String.length lead + String.length core + String.length trail)%nat).
  { subst input. rewrite !length_append. lia. }
  destruct (empty input) eqn:He.
  { destruct input; [cbn [String.length] in Hlen_in; lia | discriminate He]. }
  assert (Hs : CourseBuilder.trim_start (String.length input) input 0 =
               String.length lead).
  { subst input.
    pose proof (trim_start_spec
                  (String.length (String.append lead (String.append core trail)))
                  EmptyString lead (String.append core trail)) as H.
    rewrite append_nil_l in H. cbn [String.length Nat.add] in H.
    apply H; [exact Hlead | | rewrite length_append; lia].
    right. rewrite char_at_append_l by lia. exact Hfirst. }
  rewrite Hs.
  destruct (Nat.eqb_spec (String.length lead) (String.length input)); [lia |].
  assert (He2 : CourseBuilder.trim_end (String.length input) input
                  (String.length lead) (String.length input - 1) =
                (String.length lead + String.length core - 1)%nat).
  { rewrite Hlen_in at 2. subst input.
    pose proof (trim_end_spec
                  (String.length (String.append lead (String.append core trail)))
                  (String.length lead) lead core trail EmptyString) as H.
    rewrite append_nil_r in H.
    apply H; [exact Hne | exact Hlast | exact Htrail | lia |].
    rewrite !length_append. lia. }
  rewrite He2.
  replace (String.length lead + String.length core - 1 - String.length lead + 1)%nat
    with (String.length core) by lia.
  subst input. apply substring_append.
Qed.

Lemma char_at_last_cons (c : ascii) (s : string) :
  s <> EmptyString ->
  char_at (String c s) (String.length (String c s) - 1) =
  char_at s (String.length s - 1).
Proof.
  intros Hne. destruct s as [|x s]; [congruence |]. cbn [String.length].
  replace (S (S (String.length s)) - 1)%nat with (S (String.length s)) by lia.
  replace (S (String.length s) - 1)%nat with (String.length s) by lia.
  reflexivity.
Qed.

(** Every string is white space, a tight core and white space. *)
Lemma tight_decomposition (s : string) :
  exists lead core trail,
    s = String.append lead (String.append core trail) /\
    all_space lead /\ all_space trail /\ tight core.
Proof.
  induction s as [|c s (lead & core & trail & -> & Hlead & Htrail & Hcore)].
  - exists EmptyString, EmptyString, EmptyString.
    split; [reflexivity |]. repeat split; try apply all_space_nil. left. reflexivity.
  - destruct (isspace c) eqn:Hc.
    + exists (String c lead), core, trail. split; [reflexivity |].
      split; [apply all_space_cons; auto | auto].
    + destruct (String.eqb_spec core EmptyString) as [-> | Hne].
      * exists EmptyString, (String c EmptyString), (String.append lead trail).
        split; [reflexivity |]. split; [apply all_space_nil |].
        split; [apply all_space_append; auto |].
        right. split; exact Hc.
      * exists EmptyString, (String c (String.append lead core)), trail.
        split; [rewrite append_nil_l, append_cons, append_assoc; reflexivity |].
        split; [apply all_space_nil |]. split; [exact Htrail |].
        right. split; [exact Hc |].
        destruct Hcore as [-> | [_ Hlast]]; [congruence |].
        assert (Hlen : (0 < String.length core)%nat).
        { destruct core; [congruence | cbn [String.length]; lia]. }
        rewrite char_at_last_cons.
        -- rewrite length_append.
           replace (String.length lead + String.length core - 1)%nat
             with (String.length lead + (String.length core - 1))%nat by lia.
           rewrite char_at_append_r. exact Hlast.
        -- intros H. apply (f_equal String.length) in H.
           rewrite length_append in H. cbn [String.length] in H. lia.
Qed.

Lemma trim_ends (input : string) :
  (exists lead trail,
      input = String.append lead (String.append (CourseBuilder.trim input) trail) /\
      all_space lead /\ all_space trail) /\
  tight (CourseBuilder.trim input) /\
  CourseBuilder.trim (CourseBuilder.trim input) = CourseBuilder.trim input.
Proof.
  destruct (tight_decomposition input) as (lead & core & trail & -> & Hl & Ht & Hc).
  rewrite (trim_decomposed lead core trail Hl Ht Hc).
  split; [exists lead, trail; auto |]. split; [exact Hc |].
  pose proof (trim_decomposed EmptyString core EmptyString all_space_nil all_space_nil Hc)
    as H.
  rewrite append_nil_l, append_nil_r in H. exact H.
Qed.

(** X3. [trim] removes the white space at both ends and nothing else:
    every input is white space, then the result, then white space, and
    the result neither starts nor ends with white space.  Trimming a
    second time changes nothing. *)
Theorem X3_trim_ends (input : string) :
  (exists lead trail,
      input = String.append lead (String.append (CourseBuilder.trim input) trail) /\
      all_space lead /\ all_space trail) /\
  tight (CourseBuilder.trim input) /\
  CourseBuilder.trim (CourseBuilder.trim input) = CourseBuilder.trim input.
Proof. exact (trim_ends input). Qed.

(** ** Sanitizing and trimming, said without the code *)

Lemma dropped_removed (c : ascii) :
  dropped c = existsb (Ascii.eqb c) removed_bytes.
Proof.
  unfold dropped, removed_bytes. cbn [map existsb].
  change (ascii_of_nat 34) with ch_dquote. change (ascii_of_nat 39) with ch_squote.
  change (ascii_of_nat 10) with ch_newline. change (ascii_of_nat 13) with ch_return.
  change (ascii_of_nat 9) with ch_tab.
  destruct (Ascii.eqb c ch_dquote), (Ascii.eqb c ch_squote), (Ascii.eqb c ch_newline),
    (Ascii.eqb c ch_return), (Ascii.eqb c ch_tab); reflexivity.
Qed.

Lemma isspace_white (c : ascii) : isspace c = true <-> In c white_bytes.
Proof.
  assert (H : isspace c = existsb (Ascii.eqb c) white_bytes).
  { destruct c as [[] [] [] [] [] [] [] []]; reflexivity. }
  rewrite H, existsb_exists. split.
  - intros (x & Hx & Heq). apply Ascii.eqb_eq in Heq. now subst.
  - intros Hc. exists c. split; [exact Hc | apply Ascii.eqb_refl].
Qed.

Lemma filter_sanitized (item : string) : sanitized item (CourseBuilder.filter item).
Proof.
  unfold sanitized. rewrite filter_list.
  apply List.filter_ext. intros c. now rewrite dropped_removed.
Qed.

Lemma all_space_white (s : string) : all_space s -> white s.
Proof. intros H c Hc. apply isspace_white, H, Hc. Qed.

Lemma trim_trimmed (text : string) : trimmed text (CourseBuilder.trim text).
Proof.
  destruct (trim_ends text) as ((lead & trail & Htext & Hl & Ht) & Htight & _).
  split.
  - exists lead, trail. split; [exact Htext |].
    split; apply all_space_white; assumption.
  - destruct Htight as [H | [Hfirst Hlast]]; [left; exact H | right].
    split; intros Hw; apply isspace_white in Hw; congruence.
Qed.

Lemma cleaned_fields (input : list string) : Forall2 cleaned_field input (cleaned input).
Proof.
  unfold cleaned. induction input as [|item input IH]; cbn [map]; constructor; [| exact IH].
  exists (CourseBuilder.filter item). split; [apply filter_sanitized | apply trim_trimmed].
Qed.

(** C7. [build] ([CourseBuilder::builder]) sanitizes then trims each field:
    each field it works on is the raw field without quotation marks,
    apostrophes, newlines, carriage returns and tabs, and then without the
    white space at its two ends.  It returns no record exactly when fewer
    than two fields remain, or field 0 fails the identifier check, or field 1
    fails the text check; otherwise the record's prerequisites are exactly
    the fields of index 2 and up that pass the identifier check, in order,
    the failing ones being dropped. *)
Theorem C7_builder_spec (input : list string) :
  let fields := cleaned input in
  Forall2 cleaned_field input fields /\
  (CourseBuilder.builder input = None <->
     (length fields < 2)%nat \/
     CourseBuilder.courseNameValidator (nth 0 fields EmptyString) = false \/
     CourseBuilder.courseDataValidator (nth 1 fields EmptyString) = false) /\
  (forall c, CourseBuilder.builder input = Some c ->
     getName c = nth 0 fields EmptyString /\
     getTitle c = nth 1 fields EmptyString /\
     getPrerequisites c =
       List.filter CourseBuilder.courseNameValidator (skipn 2 fields)).
Proof.
  intros fields. subst fields. split; [apply cleaned_fields |].
  rewrite builder_unfold.
  destruct (Nat.ltb_spec (length (cleaned input)) 2) as [Hlt|Hge].
  - split; [split; auto | discriminate].
  - destruct (CourseBuilder.courseNameValidator (nth 0 (cleaned input) EmptyString))
      eqn:Hn; cbn [negb].
    + destruct (CourseBuilder.courseDataValidator (nth 1 (cleaned input) EmptyString))
        eqn:Ht; cbn [negb].
      * split.
        -- split; [discriminate | intros [H|[H|H]]; [lia | discriminate | discriminate]].
        -- intros c Hc. injection Hc as <-. simpl. auto.
      * split; [split; auto | discriminate].
    + split; [split; auto | discriminate].
Qed.

(** ** [CourseBuilder::builder] *)

Lemma trim_occurs (s : string) (c : ascii) :
  occurs_in c (CourseBuilder.trim s) -> occurs_in c s.
Proof.
  intros Hc.
  destruct (tight_decomposition s) as (lead & core & trail & Hs & Hl & Ht & Hcore).
  rewrite Hs in Hc |- *. rewrite trim_decomposed in Hc by assumption.
  apply occurs_in_append. right. apply occurs_in_append. left. exact Hc.
Qed.

Lemma trim_tight (s : string) : tight s -> CourseBuilder.trim s = s.
Proof.
  intros Hs.
  pose proof (trim_decomposed EmptyString s EmptyString all_space_nil all_space_nil Hs)
    as H.
  rewrite append_nil_l, append_nil_r in H. exact H.
Qed.

Lemma cleaned_occurs (s : string) (c : ascii) :
  occurs_in c (CourseBuilder.trim (CourseBuilder.filter s)) -> dropped c = false.
Proof. intros Hc. apply trim_occurs, filter_occurs in Hc. tauto. Qed.

(** A cleaned field is left as it is by a second cleaning. *)
Lemma cleaned_fixed (s : string) :
  (forall c, occurs_in c s -> dropped c = false) -> tight s ->
  CourseBuilder.trim (CourseBuilder.filter s) = s.
Proof. intros Hd Ht. rewrite filter_clean by exact Hd. apply trim_tight, Ht. Qed.

Lemma cleaned_idempotent (s : string) :
  let field := CourseBuilder.trim (CourseBuilder.filter s) in
  CourseBuilder.trim (CourseBuilder.filter field) = field.
Proof.
  intros field. apply cleaned_fixed.
  - intros c. apply cleaned_occurs.
  - apply trim_ends.
Qed.

Lemma occurs_in_char_at (s : string) (i : nat) :
  (i < String.length s)%nat -> occurs_in (char_at s i) s.
Proof.
  revert i. induction s as [|c s IH]; intros i Hi; cbn [String.length] in Hi; [lia |].
  apply occurs_in_cons. destruct i as [|i]; [left; reflexivity | right].
  apply (IH i). lia.
Qed.

Lemma occurs_in_index (s : string) (c : ascii) :
  occurs_in c s -> exists i, (i < String.length s)%nat /\ char_at s i = c.
Proof.
  induction s as [|x s IH]; intros Hc; [destruct Hc |].
  apply occurs_in_cons in Hc as [->|Hc].
  - exists 0%nat. cbn [String.length]. split; [lia | reflexivity].
  - destruct (IH Hc) as (i & Hi & Hci). exists (S i).
    cbn [String.length]. split; [lia | exact Hci].
Qed.

(** A letter or digit is an ASCII byte that [filter] keeps and [trim]
    does not take for white space. *)
Lemma alnum_kept (c : ascii) :
  isalpha c = true \/ isdigit c = true ->
  dropped c = false /\ isspace c = false /\ code c < 128.
Proof.
  destruct c as [[] [] [] [] [] [] [] []]; vm_compute; intuition congruence.
Qed.

Lemma valid_alnum (s : string) (c : ascii) :
  CourseBuilder.courseNameValidator s = true -> occurs_in c s ->
  isalpha c = true \/ isdigit c = true.
Proof.
  intros Hv Hc. apply courseNameValidator_shape in Hv as (Hlen & Ha & Hd).
  apply occurs_in_index in Hc as (i & Hi & <-).
  destruct (Nat.lt_ge_cases i 4).
  - left. apply isalpha_letters, Ha. lia.
  - right. apply isdigit_digits, Hd. lia.
Qed.

Lemma valid_tight (s : string) : CourseBuilder.courseNameValidator s = true -> tight s.
Proof.
  intros Hv. pose proof (proj1 (courseNameValidator_shape s) Hv) as (Hlen & _ & _).
  right. split.
  - apply (alnum_kept (char_at s 0)), (valid_alnum s); [exact Hv |].
    apply occurs_in_char_at. lia.
  - apply (alnum_kept (char_at s (String.length s - 1))), (valid_alnum s); [exact Hv |].
    apply occurs_in_char_at. lia.
Qed.

(** A valid identifier is its own cleaned form. *)
Lemma valid_cleaned (s : string) :
  CourseBuilder.courseNameValidator s = true ->
  CourseBuilder.trim (CourseBuilder.filter s) = s.
Proof.
  intros Hv. apply cleaned_fixed; [| apply valid_tight, Hv].
  intros c Hc. apply (alnum_kept c), (valid_alnum s); assumption.
Qed.

Lemma no_escape_clean (s : string) :
  (forall c, occurs_in c s -> dropped c = false) -> CourseBuilder.no_escape s = true.
Proof.
  induction s as [|c s IH]; intros H; cbn [CourseBuilder.no_escape]; [reflexivity |].
  assert (Hc : dropped c = false) by (apply H, occurs_in_cons; auto).
  unfold dropped in Hc.
  destruct (Ascii.eqb c ch_dquote), (Ascii.eqb c ch_squote), (Ascii.eqb c ch_newline),
    (Ascii.eqb c ch_return), (Ascii.eqb c ch_tab); try discriminate Hc.
  cbn [orb]. apply IH. intros x Hx. apply H, occurs_in_cons. auto.
Qed.

(** After the cleaning, the text check of [builder] can fail on an empty
    field only. *)
Lemma courseDataValidator_cleaned (s : string) :
  let field := CourseBuilder.trim (CourseBuilder.filter s) in
  CourseBuilder.courseDataValidator field = negb (empty field).
Proof.
  intros field. unfold CourseBuilder.courseDataValidator.
  destruct (empty field); [reflexivity |]. cbn [negb].
  apply no_escape_clean. intros c. apply cleaned_occurs.
Qed.

Lemma nth_cleaned (input : list string) (i : nat) :
  (i < length input)%nat ->
  nth i (cleaned input) EmptyString =
  CourseBuilder.trim (CourseBuilder.filter (nth i input EmptyString)).
Proof.
  intros Hi. unfold cleaned.
  rewrite (nth_indep _ EmptyString
             (CourseBuilder.trim (CourseBuilder.filter EmptyString)))
    by (rewrite length_map; exact Hi).
  apply (map_nth (fun item => CourseBuilder.trim (CourseBuilder.filter item))).
Qed.

Lemma cleaned_length (input : list string) : length (cleaned input) = length input.
Proof. apply length_map. Qed.

(** What [builder] returns is well formed. *)
Lemma builder_well_formed (input : list string) (c : Course) :
  CourseBuilder.builder input = Some c ->
  CourseBuilder.courseNameValidator (getName c) = true /\
  getTitle c <> EmptyString /\
  (forall ch, occurs_in ch (getTitle c) -> dropped ch = false) /\
  tight (getTitle c) /\
  Forall (fun p => CourseBuilder.courseNameValidator p = true) (getPrerequisites c).
Proof.
  rewrite builder_unfold. intros H.
  destruct (Nat.ltb_spec (length (cleaned input)) 2) as [|Hlen]; [discriminate |].
  destruct (CourseBuilder.courseNameValidator (nth 0 (cleaned input) EmptyString))
    eqn:Hn; [| discriminate].
  destruct (CourseBuilder.courseDataValidator (nth 1 (cleaned input) EmptyString))
    eqn:Ht; [| discriminate].
  cbn [negb] in H. injection H as <-. cbn [getName getTitle getPrerequisites].
  rewrite cleaned_length in Hlen.
  rewrite (nth_cleaned input 1) in Ht |- * by lia.
  split; [exact Hn |]. split.
  - intros He. rewrite He in Ht. discriminate Ht.
  - split; [intros ch; apply cleaned_occurs |]. split; [apply trim_ends |].
    apply Forall_forall. intros p Hp. apply list_elem_of_In, filter_In in Hp. tauto.
Qed.

Lemma filter_all {A : Type} (f : A -> bool) (l : list A) :
  Forall (fun x => f x = true) l -> List.filter f l = l.
Proof.
  induction 1 as [|x l Hx _ IH]; cbn [List.filter]; [reflexivity |].
  rewrite Hx, IH. reflexivity.
Qed.

Lemma cleaned_valid (l : list string) :
  Forall (fun p => CourseBuilder.courseNameValidator p = true) l -> cleaned l = l.
Proof.
  induction 1 as [|x l Hx _ IH]; [reflexivity |].
  unfold cleaned in *. cbn [map]. rewrite IH, valid_cleaned by exact Hx. reflexivity.
Qed.

(** [builder] on fields that are already clean. *)
Lemma builder_clean (name title : string) (prereqs : list string) :
  CourseBuilder.courseNameValidator name = true ->
  title <> EmptyString ->
  (forall ch, occurs_in ch title -> dropped ch = false) ->
  tight title ->
  Forall (fun p => CourseBuilder.courseNameValidator p = true) prereqs ->
  CourseBuilder.builder (name :: title :: prereqs) = Some (mkCourse name title prereqs).
Proof.
  intros Hn Hne Hd Ht Hp. rewrite builder_unfold.
  assert (Hc : cleaned (name :: title :: prereqs) = name :: title :: prereqs).
  { unfold cleaned. cbn [map]. fold (cleaned prereqs).
    rewrite valid_cleaned by exact Hn. rewrite cleaned_fixed by assumption.
    rewrite cleaned_valid by exact Hp. reflexivity. }
  rewrite Hc. cbn [length nth skipn].
  destruct (Nat.ltb_spec (S (S (length prereqs))) 2); [lia |].
  rewrite Hn. cbn [negb].
  unfold CourseBuilder.courseDataValidator.
  destruct title as [|t0 title]; [congruence |]. cbn [empty].
  rewrite no_escape_clean by exact Hd. cbn [negb].
  rewrite filter_all by exact Hp. reflexivity.
Qed.

(** X4. A record [builder] returns has a valid identifier, a title that
    is not empty, holds none of the bytes [filter] drops and neither
    starts nor ends with white space, and prerequisites that are all
    valid identifiers. *)
Theorem X4_builder_well_formed (input : list string) (c : Course) :
  CourseBuilder.builder input = Some c ->
  CourseBuilder.courseNameValidator (getName c) = true /\
  getTitle c <> EmptyString /\
  (forall ch, occurs_in ch (getTitle c) -> dropped ch = false) /\
  tight (getTitle c) /\
  Forall (fun p => CourseBuilder.courseNameValidator p = true) (getPrerequisites c).
Proof. apply builder_well_formed. Qed.

Lemma X4_builder_well_formed_witness :
  CourseBuilder.courseNameValidator "CSCI101" = true /\
  "Intro to CS" <> EmptyString /\
  (forall ch, occurs_in ch "Intro to CS" -> dropped ch = false) /\
  tight "Intro to CS" /\
  Forall (fun p => CourseBuilder.courseNameValidator p = true) ["MATH101"; "CSCI100"].
Proof.
  apply (X4_builder_well_formed
           ["CSCI101"; " Intro to CS "; "MATH101"; "bad"; "CSCI100"]
           (mkCourse "CSCI101" "Intro to CS" ["MATH101"; "CSCI100"])).
  reflexivity.
Defined.

(** X5. Building again from the fields of a record that [builder]
    returned gives the same record. *)
Theorem X5_builder_round_trip (input : list string) (c : Course) :
  CourseBuilder.builder input = Some c ->
  CourseBuilder.builder (getName c :: getTitle c :: getPrerequisites c) = Some c.
Proof.
  intros H. apply builder_well_formed in H as (Hn & Hne & Hd & Ht & Hp).
  destruct c as [name title prereqs]. cbn [getName getTitle getPrerequisites] in *.
  apply builder_clean; assumption.
Qed.

Lemma X5_builder_round_trip_witness :
  CourseBuilder.builder ["CSCI101"; "Intro to CS"; "MATH101"; "CSCI100"] =
  Some (mkCourse "CSCI101" "Intro to CS" ["MATH101"; "CSCI100"]).
Proof.
  apply (X5_builder_round_trip
           ["CSCI101"; " Intro to CS "; "MATH101"; "bad"; "CSCI100"]
           (mkCourse "CSCI101" "Intro to CS" ["MATH101"; "CSCI100"])).
  reflexivity.
Defined.

(** X6. Inside [builder] the title check fails exactly when nothing is
    left of the field after cleaning: the test of [courseDataValidator]
    for newline, carriage return and tab never fails there, and [builder]
    returns no record exactly when there are fewer than two fields, the
    cleaned first field is not a valid identifier or the cleaned second
    field is empty. *)
Theorem X6_builder_title_check (input : list string) :
  (forall field,
      CourseBuilder.courseDataValidator
        (CourseBuilder.trim (CourseBuilder.filter field)) =
      negb (empty (CourseBuilder.trim (CourseBuilder.filter field)))) /\
  (CourseBuilder.builder input = None <->
     (length input < 2)%nat \/
     CourseBuilder.courseNameValidator (nth 0 (cleaned input) EmptyString) = false \/
     nth 1 (cleaned input) EmptyString = EmptyString).
Proof.
  split; [intros field; apply courseDataValidator_cleaned |].
  rewrite builder_unfold, cleaned_length.
  destruct (Nat.ltb_spec (length input) 2) as [Hlt|Hge]; [split; auto |].
  destruct (CourseBuilder.courseNameValidator (nth 0 (cleaned input) EmptyString));
    cbn [negb]; [| split; auto].
  rewrite (nth_cleaned input 1) by lia. rewrite courseDataValidator_cleaned.
  destruct (CourseBuilder.trim (CourseBuilder.filter (nth 1 input EmptyString)));
    cbn [empty negb].
  - split; auto.
  - split; [discriminate | intros [H|[H|H]]; [lia | discriminate | discriminate]].
Qed.

(** ** [DataStructure::hash] *)

Lemma hash_fold_polynomial (capacity : Z) (key : string) (h p : Z) :
  0 < capacity <= max_buckets -> plain key ->
  0 <= h < capacity -> h = p mod capacity ->
  for_chars (fun hashValue c => wrap64 (hashValue * 31 + size_t_of_char c) mod capacity)
            key h =
  for_chars (fun h c => h * 31 + code c) key p mod capacity.
Proof.
  intros Hcap. unfold max_buckets in Hcap. revert h p.
  induction key as [|c key IH]; intros h p Hplain Hh Heq; cbn [for_chars].
  - exact Heq.
  - destruct Hplain as [Hc Hplain].
    pose proof (size_t_of_char_plain c Hc) as Hx.
    assert (Hsc : size_t_of_char c = code c).
    { unfold size_t_of_char. destruct (Z.ltb_spec (code c) 128); [reflexivity | lia]. }
    rewrite wrap64_small by lia.
    apply IH; [exact Hplain | apply Z.mod_pos_bound; lia |].
    rewrite Hsc, Heq.
    rewrite <- (Zplus_mod_idemp_l (p mod capacity * 31) _ capacity).
    rewrite Zmult_mod_idemp_l.
    rewrite Zplus_mod_idemp_l. reflexivity.
Qed.

(** X7. For a key of ASCII bytes and every capacity a table can have,
    [hash] is the base-31 polynomial of the bytes reduced modulo the
    capacity: no step of the loop wraps around. *)
Theorem X7_hash_polynomial (capacity : Z) (key : string) :
  0 < capacity <= max_buckets -> plain key ->
  hash capacity key = polynomial key mod capacity.
Proof.
  intros Hcap Hplain. unfold hash, polynomial.
  apply hash_fold_polynomial; [exact Hcap | exact Hplain | lia |].
  symmetry. apply Z.mod_0_l. lia.
Qed.

Lemma X7_hash_polynomial_witness :
  hash 1024 "CSCI000" = polynomial "CSCI000" mod 1024.
Proof.
  apply (X7_hash_polynomial 1024 "CSCI000").
  - unfold max_buckets. lia.
  - vm_compute. repeat split; reflexivity.
Defined.

(** X8. When the capacity doubles, a key of ASCII bytes stays in its
    bucket or moves up by the old capacity. *)
Theorem X8_hash_after_doubling (capacity : Z) (key : string) :
  0 < capacity -> 2 * capacity <= max_buckets -> plain key ->
  hash (2 * capacity) key = hash capacity key \/
  hash (2 * capacity) key = hash capacity key + capacity.
Proof.
  intros Hcap Hmax Hplain.
  pose proof (plain_refines_hash capacity key Hcap Hmax Hplain) as Href.
  unfold refines_hash in Href.
  pose proof (hash_range (2 * capacity) key ltac:(lia)) as H2.
  pose proof (hash_range capacity key Hcap) as H1.
  rewrite <- Href.
  pose proof (Z.div_mod (hash (2 * capacity) key) capacity ltac:(lia)) as Hdm.
  assert (Hq : 0 <= hash (2 * capacity) key / capacity < 2).
  { split; [apply Z.div_pos; lia | apply Z.div_lt_upper_bound; lia]. }
  assert (Hcase : hash (2 * capacity) key / capacity = 0 \/
                  hash (2 * capacity) key / capacity = 1) by lia.
  destruct Hcase as [Hz|Hz]; rewrite Hz in Hdm; [left | right]; lia.
Qed.

Lemma X8_hash_after_doubling_witness :
  hash (2 * 1024) "CSCI768" = hash 1024 "CSCI768" \/
  hash (2 * 1024) "CSCI768" = hash 1024 "CSCI768" + 1024.
Proof.
  apply (X8_hash_after_doubling 1024 "CSCI768").
  - lia.
  - unfold max_buckets. lia.
  - vm_compute. repeat split; reflexivity.
Defined.

(** ** [LineParser::split] of ProjectTwoUniversal.cpp *)

Lemma uscan_field_stop (d : ascii) (field rest substring : string) :
  ~ occurs_in d field ->
  rest = EmptyString \/ (exists r, rest = String d r) ->
  Universal.LineParser.scan_field d (String.append field rest) substring =
  (String.append substring field, rest).
Proof.
  revert substring. induction field as [|c field IH]; intros substring Hd Hrest.
  - rewrite append_nil_l, append_nil_r.
    destruct Hrest as [-> | [r ->]]; cbn [Universal.LineParser.scan_field];
      [reflexivity |].
    rewrite Ascii.eqb_refl. reflexivity.
  - rewrite append_cons. cbn [Universal.LineParser.scan_field].
    destruct (Ascii.eqb_spec c d) as [->|Hne].
    + exfalso. apply Hd, occurs_in_cons. auto.
    + cbn [negb]. rewrite IH; [| | exact Hrest].
      * unfold push_char. rewrite append_assoc. reflexivity.
      * intros H. apply Hd, occurs_in_cons. auto.
Qed.

Lemma skip_delims_plain (d : ascii) (field rest : string) :
  plain_field d field -> skip_delims d (String.append field rest) = String.append field rest.
Proof.
  intros [Hne Hd]. destruct field as [|c field]; [congruence |].
  rewrite append_cons. cbn [skip_delims].
  destruct (Ascii.eqb_spec c d) as [->|]; [| reflexivity].
  exfalso. apply Hd, occurs_in_cons. auto.
Qed.

Lemma concat_cons2 (sep x y : string) (l : list string) :
  String.concat sep (x :: y :: l) =
  String.append x (String.append sep (String.concat sep (y :: l))).
Proof. reflexivity. Qed.

Lemma concat_plain_first (d : ascii) (y : string) (l : list string) :
  plain_field d y ->
  exists rest, String.concat (String d EmptyString) (y :: l) = String.append y rest.
Proof.
  intros _. destruct l as [|z l].
  - exists EmptyString. cbn [String.concat]. now rewrite append_nil_r.
  - rewrite concat_cons2. eauto.
Qed.

Lemma usplit_loop_join (d : ascii) (fields : list string) (fuel : nat)
      (result : list string) :
  Forall (plain_field d) fields ->
  (String.length (String.concat (String d EmptyString) fields) <= fuel)%nat ->
  Universal.LineParser.split_loop fuel d
    (String.concat (String d EmptyString) fields) result = result ++ fields.
Proof.
  revert fuel result. induction fields as [|x fields IH]; intros fuel result Hok Hfuel.
  - cbn [String.concat]. destruct fuel; cbn [Universal.LineParser.split_loop];
      now rewrite app_nil_r.
  - apply Forall_cons in Hok as [Hx Hok].
    pose proof Hx as [Hne Hd].
    destruct fields as [|y fields].
    + cbn [String.concat] in *.
      destruct x as [|c x]; [congruence |].
      cbn [String.length] in Hfuel. destruct fuel as [|fuel]; [lia |].
      cbn [Universal.LineParser.split_loop].
      pose proof (uscan_field_stop d (String c x) EmptyString EmptyString Hd) as Hs.
      rewrite append_nil_r, append_nil_l in Hs. rewrite Hs by auto.
      cbn [step_over skip_delims].
      destruct fuel; reflexivity.
    + rewrite concat_cons2 in *.
      destruct x as [|c x]; [congruence |].
      rewrite append_cons in *. cbn [String.length] in Hfuel.
      destruct fuel as [|fuel]; [lia |].
      cbn [Universal.LineParser.split_loop].
      rewrite <- append_cons.
      rewrite (uscan_field_stop d (String c x) _ EmptyString Hd)
        by (right; rewrite append_cons; eauto).
      rewrite append_nil_l. rewrite append_cons. cbn [step_over].
      rewrite append_nil_l.
      apply Forall_cons in Hok as Hok'. destruct Hok' as [Hy _].
      destruct (concat_plain_first d y fields Hy) as [rest Hrest].
      rewrite Hrest at 1. rewrite skip_delims_plain by exact Hy. rewrite <- Hrest.
      rewrite IH; [rewrite <- app_assoc; reflexivity | exact Hok |].
      rewrite length_append, append_cons, append_nil_l in Hfuel.
      cbn [String.length] in Hfuel. lia.
Qed.

Lemma universal_split_fields_join (delimiter : string) (fields : list string) :
  let d := char_at delimiter 0 in
  Forall (plain_field d) fields ->
  Universal.LineParser.split (String.concat (String d EmptyString) fields) delimiter =
  fields.
Proof.
  intros d Hok. unfold Universal.LineParser.split.
  destruct (empty (String.concat (String d EmptyString) fields)) eqn:He.
  - destruct fields as [|x fields]; [reflexivity |]. exfalso.
    apply Forall_cons in Hok as [Hx _].
    destruct (concat_plain_first d x fields Hx) as [rest Hrest].
    rewrite Hrest in He. destruct Hx as [Hne _].
    destruct x; [congruence | discriminate He].
  - fold d. rewrite usplit_loop_join by (auto; lia). reflexivity.
Qed.

(** X9. Joining fields that are not empty and free of the delimiter and
    splitting the line again gives the fields back. *)
Theorem X9_universal_split_join (delimiter : string) (fields : list string) :
  let d := char_at delimiter 0 in
  Forall (plain_field d) fields ->
  Universal.LineParser.split (String.concat (String d EmptyString) fields) delimiter =
  fields.
Proof. exact (universal_split_fields_join delimiter fields). Qed.

Lemma X9_universal_split_join_witness :
  Universal.LineParser.split "CSCI101,Intro to CS,MATH101" "," =
  ["CSCI101"; "Intro to CS"; "MATH101"].
Proof.
  apply (X9_universal_split_join "," ["CSCI101"; "Intro to CS"; "MATH101"]).
  repeat constructor; try discriminate;
    (intros H; vm_compute in H; intuition discriminate).
Defined.

Lemma uscan_field_cut (d : ascii) (line substring : string) :
  exists field rest,
    Universal.LineParser.scan_field d line substring =
      (String.append substring field, rest) /\
    line = String.append field rest /\
    ~ occurs_in d field /\
    (rest = EmptyString \/ exists r, rest = String d r).
Proof.
  revert substring. induction line as [|c line IH]; intros substring.
  - exists EmptyString, EmptyString. cbn [Universal.LineParser.scan_field].
    rewrite append_nil_r. repeat split; auto; try apply occurs_in_nil.
  - cbn [Universal.LineParser.scan_field].
    destruct (Ascii.eqb_spec c d) as [->|Hne]; cbn [negb].
    + exists EmptyString, (String d line). rewrite append_nil_r.
      repeat split; eauto; try apply occurs_in_nil.
    + destruct (IH (push_char substring c)) as (field & rest & Hs & -> & Hd & Hrest).
      exists (String c field), rest. rewrite Hs. unfold push_char.
      rewrite append_assoc. repeat split; auto.
      intros H. apply occurs_in_cons in H as [H|H]; [congruence | auto].
Qed.

Lemma without_append (d : ascii) (field rest : string) :
  ~ occurs_in d field ->
  without d (String.append field rest) = String.append field (without d rest).
Proof.
  induction field as [|c field IH]; intros Hd; [reflexivity |].
  rewrite !append_cons. cbn [without].
  destruct (Ascii.eqb_spec c d) as [->|Hne].
  - exfalso. apply Hd, occurs_in_cons. auto.
  - rewrite IH; [reflexivity |]. intros H. apply Hd, occurs_in_cons. auto.
Qed.

Lemma without_skip_delims (d : ascii) (s : string) :
  without d (skip_delims d s) = without d s.
Proof.
  induction s as [|c s IH]; [reflexivity |]. cbn [skip_delims without].
  destruct (Ascii.eqb c d) eqn:Hc; [exact IH |].
  cbn [without]. rewrite Hc. reflexivity.
Qed.

Lemma without_step_over (d : ascii) (rest : string) :
  rest = EmptyString \/ (exists r, rest = String d r) ->
  without d (step_over rest) = without d rest.
Proof.
  intros [-> | [r ->]]; [reflexivity |]. cbn [step_over without].
  rewrite Ascii.eqb_refl. reflexivity.
Qed.

Lemma skip_delims_not_led (d : ascii) (s : string) : not_led_by d (skip_delims d s).
Proof.
  induction s as [|c s IH]; [exact I |]. cbn [skip_delims].
  destruct (Ascii.eqb_spec c d); [exact IH | assumption].
Qed.

Lemma concat_empty_sep (x : string) (l : list string) :
  String.concat EmptyString (x :: l) = String.append x (String.concat EmptyString l).
Proof.
  destruct l as [|y l]; [cbn [String.concat]; now rewrite append_nil_r |].
  rewrite concat_cons2, append_nil_l. reflexivity.
Qed.

(** The outer loop of [split] on any text. *)
Lemma usplit_loop_fields (d : ascii) (fuel : nat) (line : string) (result : list string) :
  (String.length line <= fuel)%nat ->
  exists fields,
    Universal.LineParser.split_loop fuel d line result = result ++ fields /\
    Forall (fun field => ~ occurs_in d field) fields /\
    String.concat EmptyString fields = without d line /\
    Forall (fun field => field <> EmptyString) (tail fields) /\
    (not_led_by d line -> Forall (fun field => field <> EmptyString) fields).
Proof.
  revert line result. induction fuel as [|fuel IH]; intros line result Hfuel.
  - destruct line; cbn [String.length] in Hfuel; [| lia].
    exists []. cbn [Universal.LineParser.split_loop]. rewrite app_nil_r.
    repeat split; constructor.
  - destruct line as [|c line].
    + exists []. cbn [Universal.LineParser.split_loop]. rewrite app_nil_r.
      repeat split; constructor.
    + cbn [Universal.LineParser.split_loop].
      destruct (uscan_field_cut d (String c line) EmptyString)
        as (field & rest & Hs & Hline & Hd & Hrest).
      rewrite Hs, append_nil_l.
      assert (Hlen : (String.length (skip_delims d (step_over rest)) <= fuel)%nat).
      { pose proof (skip_delims_shorter d (step_over rest)).
        pose proof (step_over_le rest).
        apply (f_equal String.length) in Hline. rewrite length_append in Hline.
        cbn [String.length] in Hline, Hfuel.
        destruct Hrest as [-> | [r ->]]; cbn [step_over String.length] in *; lia. }
      destruct (IH (skip_delims d (step_over rest)) (result ++ [field]) Hlen)
        as (fields & Hloop & Hno & Hcat & _ & Hfull).
      exists (field :: fields). rewrite Hloop, <- app_assoc.
      split; [reflexivity |]. split; [constructor; assumption |].
      split.
      { rewrite concat_empty_sep, Hcat, Hline, without_append by exact Hd.
        rewrite without_skip_delims, without_step_over by exact Hrest. reflexivity. }
      assert (Htail : Forall (fun f => f <> EmptyString) fields).
      { apply Hfull, skip_delims_not_led. }
      split; [exact Htail |].
      intros Hled. constructor; [| exact Htail].
      intros ->. rewrite append_nil_l in Hline. subst rest.
      cbn [not_led_by] in Hled.
      destruct Hrest as [H | [r H]]; [discriminate H | injection H as -> _; congruence].
Qed.

Lemma universal_split_fields (input delimiter : string) :
  let d := char_at delimiter 0 in
  let fields := Universal.LineParser.split input delimiter in
  Forall (fun field => ~ occurs_in d field) fields /\
  String.concat EmptyString fields = without d input /\
  Forall (fun field => field <> EmptyString) (tail fields) /\
  (not_led_by d input -> Forall (fun field => field <> EmptyString) fields).
Proof.
  intros d fields. subst fields. unfold Universal.LineParser.split.
  destruct (empty input) eqn:He.
  - destruct input; [| discriminate He]. repeat split; constructor.
  - fold d.
    destruct (usplit_loop_fields d (String.length input) input [] (Nat.le_refl _))
      as (fields & -> & H). exact H.
Qed.

(** X10. On every line, the fields [split] of ProjectTwoUniversal.cpp
    produces hold no delimiter byte and, put together, are the line
    without its delimiter bytes; every field after the first is not
    empty (a run of delimiters counts once, a delimiter at the end adds
    nothing), and the first is empty only when the line starts with the
    delimiter. *)
Theorem X10_universal_split_fields (input delimiter : string) :
  let d := char_at delimiter 0 in
  let fields := Universal.LineParser.split input delimiter in
  Forall (fun field => ~ occurs_in d field) fields /\
  String.concat EmptyString fields = without d input /\
  Forall (fun field => field <> EmptyString) (tail fields) /\
  (not_led_by d input -> Forall (fun field => field <> EmptyString) fields).
Proof. exact (universal_split_fields input delimiter). Qed.

(** ** [LineParser::split] of part_000 *)

Lemma list_ascii_append (a b : string) :
  list_ascii_of_string (String.append a b) =
  list_ascii_of_string a ++ list_ascii_of_string b.
Proof.
  induction a as [|x a IH]; [reflexivity |].
  rewrite append_cons. cbn [list_ascii_of_string]. now rewrite IH.
Qed.

Lemma strip_step_quote (acc : string) (c : ascii) :
  Owned.LineParser.strip_step acc c = if is_quote c then acc else push_char acc c.
Proof.
  unfold Owned.LineParser.strip_step, is_quote.
  destruct (Ascii.eqb c ch_dquote), (Ascii.eqb c ch_squote); reflexivity.
Qed.

Lemma strip_loop_list (s acc : string) :
  list_ascii_of_string (for_chars Owned.LineParser.strip_step s acc) =
  list_ascii_of_string acc ++
  List.filter (fun c => negb (is_quote c)) (list_ascii_of_string s).
Proof.
  revert acc. induction s as [|c s IH]; intros acc;
    cbn [for_chars list_ascii_of_string List.filter].
  - now rewrite app_nil_r.
  - rewrite IH, strip_step_quote. destruct (is_quote c); cbn [negb].
    + reflexivity.
    + rewrite list_ascii_push, <- app_assoc. reflexivity.
Qed.

Lemma strip_quotes_list (s : string) :
  list_ascii_of_string (Owned.LineParser.strip_quotes s) =
  List.filter (fun c => negb (is_quote c)) (list_ascii_of_string s).
Proof. unfold Owned.LineParser.strip_quotes. apply strip_loop_list. Qed.

Lemma filter_none {A : Type} (f : A -> bool) (l : list A) :
  (forall x, In x l -> f x = true) -> List.filter f l = l.
Proof.
  induction l as [|x l IH]; intros H; cbn [List.filter]; [reflexivity |].
  rewrite (H x) by (left; reflexivity). f_equal. apply IH.
  intros y Hy. apply H. right. exact Hy.
Qed.

Lemma strip_quotes_plain (s : string) :
  (forall c, occurs_in c s -> is_quote c = false) ->
  Owned.LineParser.strip_quotes s = s.
Proof.
  intros H. apply list_ascii_inj. rewrite strip_quotes_list.
  apply filter_none. intros x Hx. rewrite (H x Hx). reflexivity.
Qed.

Lemma strip_quotes_cell (d : ascii) (c : cell) :
  cell_ok d c -> Owned.LineParser.strip_quotes (cell_text c) = cell_field c.
Proof.
  intros [Hf Hc]. destruct c as [field | q field]; cbn [cell_text cell_field] in *.
  - apply strip_quotes_plain, Hf.
  - apply list_ascii_inj. rewrite strip_quotes_list.
    cbn [list_ascii_of_string List.filter]. rewrite Hc. cbn [negb].
    rewrite list_ascii_append, List.filter_app.
    cbn [list_ascii_of_string List.filter]. rewrite Hc. cbn [negb].
    rewrite app_nil_r. apply filter_none.
    intros x Hx. rewrite (Hf x Hx). reflexivity.
Qed.

Lemma oscan_quoted_run (d q : ascii) (field rest substring : string) :
  (forall x, occurs_in x field -> is_quote x = false) ->
  Owned.LineParser.scan_field d (String.append field rest) true q substring =
  Owned.LineParser.scan_field d rest true q (String.append substring field).
Proof.
  revert substring. induction field as [|c field IH]; intros substring Hf.
  - now rewrite append_nil_l, append_nil_r.
  - rewrite append_cons. cbn [Owned.LineParser.scan_field].
    rewrite (Hf c) by (apply occurs_in_cons; auto).
    rewrite andb_false_r.
    rewrite IH by (intros x Hx; apply Hf, occurs_in_cons; auto).
    unfold push_char. rewrite append_assoc. reflexivity.
Qed.

Lemma oscan_plain_run (d : ascii) (field rest substring : string) :
  (forall x, occurs_in x field -> is_quote x = false) ->
  ~ occurs_in d field ->
  Owned.LineParser.scan_field d (String.append field rest) false ch_nul substring =
  Owned.LineParser.scan_field d rest false ch_nul (String.append substring field).
Proof.
  revert substring. induction field as [|c field IH]; intros substring Hf Hd.
  - now rewrite append_nil_l, append_nil_r.
  - rewrite append_cons. cbn [Owned.LineParser.scan_field].
    rewrite (Hf c) by (apply occurs_in_cons; auto).
    destruct (Ascii.eqb_spec c d) as [->|Hne].
    + exfalso. apply Hd, occurs_in_cons. auto.
    + cbn [andb].
      rewrite IH; [unfold push_char; rewrite append_assoc; reflexivity | |].
      * intros x Hx. apply Hf, occurs_in_cons. auto.
      * intros H. apply Hd, occurs_in_cons. auto.
Qed.

Lemma oscan_stop (d : ascii) (rest substring : string) :
  is_quote d = false ->
  rest = EmptyString \/ (exists r, rest = String d r) ->
  Owned.LineParser.scan_field d rest false ch_nul substring = (substring, rest).
Proof.
  intros Hd [-> | [r ->]]; cbn [Owned.LineParser.scan_field]; [reflexivity |].
  rewrite Hd, Ascii.eqb_refl. reflexivity.
Qed.

(** The inner loop reads one written field, up to the delimiter that
    follows it. *)
Lemma oscan_cell (d : ascii) (c : cell) (rest : string) :
  is_quote d = false -> cell_ok d c ->
  rest = EmptyString \/ (exists r, rest = String d r) ->
  Owned.LineParser.scan_field d (String.append (cell_text c) rest) false ch_nul
                              EmptyString =
  (cell_text c, rest).
Proof.
  intros Hd [Hf Hc] Hrest. destruct c as [field | q field]; cbn [cell_text cell_field] in *.
  - destruct Hc as [_ Hnd].
    rewrite oscan_plain_run by assumption. rewrite append_nil_l.
    apply oscan_stop; assumption.
  - rewrite append_cons. cbn [Owned.LineParser.scan_field]. rewrite Hc. cbn [negb].
    rewrite append_assoc, oscan_quoted_run by exact Hf.
    rewrite append_cons, append_nil_l. cbn [Owned.LineParser.scan_field].
    rewrite Hc. cbn [negb]. rewrite Ascii.eqb_refl.
    rewrite oscan_stop by assumption.
    unfold push_char. rewrite append_nil_l, !append_cons, append_nil_l. reflexivity.
Qed.

Lemma cell_text_led (d : ascii) (c : cell) (rest : string) :
  is_quote d = false -> cell_ok d c ->
  skip_delims d (String.append (cell_text c) rest) = String.append (cell_text c) rest.
Proof.
  intros Hd [Hf Hc]. destruct c as [field | q field]; cbn [cell_text cell_field] in *.
  - apply skip_delims_plain, Hc.
  - rewrite append_cons. cbn [skip_delims].
    destruct (Ascii.eqb_spec q d) as [->|]; [congruence | reflexivity].
Qed.

Lemma cell_text_length (d : ascii) (c : cell) :
  cell_ok d c -> (0 < String.length (cell_text c))%nat.
Proof.
  intros [_ Hc]. destruct c as [field | q field]; cbn [cell_text String.length]; [| lia].
  destruct Hc as [Hne _]. destruct field; [congruence | cbn [String.length]; lia].
Qed.

Lemma concat_first (sep y : string) (l : list string) :
  exists rest, String.concat sep (y :: l) = String.append y rest.
Proof.
  destruct l as [|z l].
  - exists EmptyString. cbn [String.concat]. now rewrite append_nil_r.
  - rewrite concat_cons2. eauto.
Qed.

Lemma osplit_loop_join (d : ascii) (cells : list cell) (fuel : nat)
      (result : list string) :
  is_quote d = false ->
  Forall (cell_ok d) cells ->
  (String.length (String.concat (String d EmptyString) (map cell_text cells)) <= fuel)%nat ->
  Owned.LineParser.split_loop fuel d
    (String.concat (String d EmptyString) (map cell_text cells)) result =
  result ++ map cell_field cells.
Proof.
  intros Hd. revert fuel result.
  induction cells as [|x cells IH]; intros fuel result Hok Hfuel.
  - cbn [map String.concat]. destruct fuel; cbn [Owned.LineParser.split_loop];
      now rewrite app_nil_r.
  - apply Forall_cons in Hok as [Hx Hok].
    pose proof (cell_text_length d x Hx) as Hlen.
    cbn [map] in *.
    destruct cells as [|y cells].
    + cbn [map String.concat] in *.
      destruct fuel as [|fuel]; [lia |].
      destruct (cell_text x) as [|c0 text] eqn:Htext; [cbn [String.length] in Hlen; lia |].
      cbn [Owned.LineParser.split_loop]. rewrite <- Htext.
      pose proof (oscan_cell d x EmptyString Hd Hx) as Hs.
      rewrite append_nil_r in Hs. rewrite Hs by auto.
      cbn [step_over skip_delims]. rewrite (strip_quotes_cell d) by exact Hx.
      destruct fuel; reflexivity.
    + cbn [map] in *. rewrite concat_cons2 in *.
      set (tail_text := String.concat (String d EmptyString)
                          (cell_text y :: map cell_text cells)) in *.
      rewrite length_append, append_cons, append_nil_l in Hfuel.
      cbn [String.length] in Hfuel.
      destruct fuel as [|fuel]; [lia |].
      destruct (cell_text x) as [|c0 text] eqn:Htext; [cbn [String.length] in Hlen; lia |].
      rewrite append_cons. cbn [Owned.LineParser.split_loop].
      rewrite <- append_cons, <- Htext.
      rewrite (oscan_cell d x _ Hd Hx) by (right; rewrite append_cons; eauto).
      rewrite append_cons, append_nil_l. cbn [step_over].
      apply Forall_cons in Hok as Hok'. destruct Hok' as [Hy _].
      destruct (concat_first (String d EmptyString) (cell_text y) (map cell_text cells))
        as [rest Hrest].
      fold tail_text in Hrest. rewrite Hrest at 1.
      rewrite (cell_text_led d y) by assumption. rewrite <- Hrest.
      rewrite (strip_quotes_cell d) by exact Hx.
      subst tail_text.
      rewrite (IH fuel (result ++ [cell_field x]) Hok) by lia.
      rewrite <- app_assoc. reflexivity.
Qed.

Lemma owned_split_join (delimiter : string) (cells : list cell) :
  let d := char_at delimiter 0 in
  is_quote d = false ->
  Forall (cell_ok d) cells ->
  Owned.LineParser.split
    (String.concat (String d EmptyString) (map cell_text cells)) delimiter =
  map cell_field cells.
Proof.
  intros d Hd Hok. unfold Owned.LineParser.split.
  destruct (empty (String.concat (String d EmptyString) (map cell_text cells))) eqn:He.
  - destruct cells as [|x cells]; [reflexivity |]. exfalso.
    apply Forall_cons in Hok as [Hx _].
    pose proof (cell_text_length d x Hx) as Hlen. cbn [map] in He.
    destruct (concat_first (String d EmptyString) (cell_text x) (map cell_text cells))
      as [rest Hrest].
    rewrite Hrest in He.
    destruct (cell_text x); [cbn [String.length] in Hlen; lia | discriminate He].
  - fold d. rewrite osplit_loop_join by (auto; lia). reflexivity.
Qed.

(** X11. In part_000, a line of fields written bare (not empty, free of
    the delimiter) or between quotation marks (then free to hold the
    delimiter, or to be empty), none of them holding a quotation mark
    itself, is split into exactly these fields. *)
Theorem X11_owned_split_join (delimiter : string) (cells : list cell) :
  let d := char_at delimiter 0 in
  is_quote d = false ->
  Forall (cell_ok d) cells ->
  Owned.LineParser.split
    (String.concat (String d EmptyString) (map cell_text cells)) delimiter =
  map cell_field cells.
Proof. exact (owned_split_join delimiter cells). Qed.

Lemma X11_owned_split_join_witness :
  Owned.LineParser.split
    (String.concat ","
       (map cell_text [Bare "CS10101"; Quoted ch_dquote "Intro, to CS"; Bare "MATH101"]))
    "," =
  ["CS10101"; "Intro, to CS"; "MATH101"].
Proof.
  apply (X11_owned_split_join ","
           [Bare "CS10101"; Quoted ch_dquote "Intro, to CS"; Bare "MATH101"]).
  - reflexivity.
  - repeat constructor; try discriminate; try reflexivity;
      try (intros x Hx; vm_compute in Hx;
           repeat (destruct Hx as [<- | Hx]; [reflexivity |]); destruct Hx);
      (intros H; vm_compute in H; intuition discriminate).
Defined.

Lemma oscan_no_quotes (d : ascii) (line substring : string) :
  (forall x, occurs_in x line -> is_quote x = false) ->
  Owned.LineParser.scan_field d line false ch_nul substring =
  Universal.LineParser.scan_field d line substring.
Proof.
  revert substring. induction line as [|c line IH]; intros substring Hq; [reflexivity |].
  cbn [Owned.LineParser.scan_field Universal.LineParser.scan_field].
  rewrite (Hq c) by (apply occurs_in_cons; auto).
  rewrite andb_true_r.
  destruct (Ascii.eqb c d); cbn [negb]; [reflexivity |].
  apply IH. intros x Hx. apply Hq, occurs_in_cons. auto.
Qed.

Lemma step_over_occurs (s : string) (x : ascii) :
  occurs_in x (step_over s) -> occurs_in x s.
Proof. destruct s; [auto |]. cbn [step_over]. intros H. apply occurs_in_cons. auto. Qed.

Lemma skip_delims_occurs (d : ascii) (s : string) (x : ascii) :
  occurs_in x (skip_delims d s) -> occurs_in x s.
Proof.
  induction s as [|c s IH]; [auto |]. cbn [skip_delims].
  destruct (Ascii.eqb c d); [| auto].
  intros H. apply occurs_in_cons. auto.
Qed.

Lemma split_loop_no_quotes (d : ascii) (fuel : nat) (line : string)
      (result : list string) :
  (forall x, occurs_in x line -> is_quote x = false) ->
  Owned.LineParser.split_loop fuel d line result =
  Universal.LineParser.split_loop fuel d line result.
Proof.
  revert line result. induction fuel as [|fuel IH]; intros line result Hq; [reflexivity |].
  destruct line as [|c line]; [reflexivity |].
  cbn [Owned.LineParser.split_loop Universal.LineParser.split_loop].
  rewrite oscan_no_quotes by exact Hq.
  destruct (uscan_field_cut d (String c line) EmptyString)
    as (field & rest & Hs & Hline & _ & _).
  rewrite Hs, append_nil_l.
  rewrite strip_quotes_plain.
  - apply IH. intros x Hx. apply Hq. rewrite Hline.
    apply skip_delims_occurs, step_over_occurs in Hx.
    apply occurs_in_append. auto.
  - intros x Hx. apply Hq. rewrite Hline. apply occurs_in_append. auto.
Qed.

Lemma split_no_quotes (input delimiter : string) :
  (forall x, occurs_in x input -> is_quote x = false) ->
  Owned.LineParser.split input delimiter = Universal.LineParser.split input delimiter.
Proof.
  intros Hq. unfold Owned.LineParser.split, Universal.LineParser.split.
  destruct (empty input); [reflexivity |]. apply split_loop_no_quotes, Hq.
Qed.

(** X12. On a line without quotation marks the two files split alike. *)
Theorem X12_split_agree (input delimiter : string) :
  (forall x, occurs_in x input -> is_quote x = false) ->
  Owned.LineParser.split input delimiter = Universal.LineParser.split input delimiter.
Proof. exact (split_no_quotes input delimiter). Qed.

Lemma X12_split_agree_witness :
  Owned.LineParser.split "CSCI101,Intro to CS,,MATH101," "," =
  Universal.LineParser.split "CSCI101,Intro to CS,,MATH101," ",".
Proof.
  apply (X12_split_agree "CSCI101,Intro to CS,,MATH101," ",").
  intros x Hx. vm_compute in Hx.
  repeat (destruct Hx as [<- | Hx]; [reflexivity |]). destruct Hx.
Defined.

(** ** [LineParser::parse] *)

Lemma alnum_not_separator (c : ascii) :
  isalpha c = true \/ isdigit c = true -> c <> comma /\ is_quote c = false.
Proof.
  destruct c as [[] [] [] [] [] [] [] []]; vm_compute; intuition congruence.
Qed.

Lemma valid_plain_field (name : string) :
  CourseBuilder.courseNameValidator name = true -> plain_field comma name.
Proof.
  intros Hv. split.
  - intros ->. discriminate Hv.
  - intros Hc. apply (valid_alnum name comma Hv) in Hc.
    apply alnum_not_separator in Hc as [Hc _]. congruence.
Qed.

Lemma valid_no_quote (name : string) (x : ascii) :
  CourseBuilder.courseNameValidator name = true -> occurs_in x name ->
  is_quote x = false.
Proof.
  intros Hv Hx. apply (valid_alnum name x Hv) in Hx.
  apply alnum_not_separator in Hx. tauto.
Qed.

Lemma dropped_quote (c : ascii) : dropped c = false -> is_quote c = false.
Proof.
  unfold dropped, is_quote.
  destruct (Ascii.eqb c ch_dquote), (Ascii.eqb c ch_squote); cbn; congruence.
Qed.

(** The line of a well-formed record, fields joined by commas, parses to
    the record in ProjectTwoUniversal.cpp. *)
Lemma universal_parse_line (name title : string) (prereqs : list string)
      (lineNumber : Z) :
  CourseBuilder.courseNameValidator name = true ->
  clean_title title -> ~ occurs_in comma title ->
  valid_names prereqs ->
  UniversalProgram.LineParser.parse
    (String.concat "," (name :: title :: prereqs)) "," lineNumber =
  (Some (mkCourse name title prereqs), []).
Proof.
  intros Hn (Hne & Hd & Ht) Hc Hp. unfold UniversalProgram.LineParser.parse.
  pose proof (universal_split_fields_join "," (name :: title :: prereqs)) as Hs.
  cbn zeta in Hs. change (char_at "," 0) with comma in Hs.
  change (String comma EmptyString) with ","%string in Hs.
  rewrite Hs.
  - cbn [length]. destruct (Nat.ltb_spec (S (S (length prereqs))) 2); [lia |].
    rewrite builder_clean by assumption. reflexivity.
  - constructor; [apply valid_plain_field, Hn |].
    constructor; [split; assumption |].
    eapply Forall_impl; [exact Hp |]. intros p. apply valid_plain_field.
Qed.

(** The same in part_000, with the title between quotation marks, where
    it may hold commas. *)
Lemma owned_parse_line (name title : string) (prereqs : list string) (q : ascii)
      (lineNumber : Z) :
  CourseBuilder.courseNameValidator name = true ->
  clean_title title -> is_quote q = true ->
  valid_names prereqs ->
  OwnedProgram.LineParser.parse
    (String.concat ","
       (name :: cell_text (Quoted q title) :: prereqs)) "," lineNumber =
  (Some (mkCourse name title prereqs), []).
Proof.
  intros Hn (Hne & Hd & Ht) Hq Hp. unfold OwnedProgram.LineParser.parse.
  pose proof (owned_split_join "," (Bare name :: Quoted q title :: map Bare prereqs))
    as Hs.
  cbn zeta in Hs. change (char_at "," 0) with comma in Hs.
  change (String comma EmptyString) with ","%string in Hs.
  cbn [map cell_field] in Hs.
  replace (map cell_text (map Bare prereqs)) with prereqs in Hs
    by (rewrite map_map; symmetry; apply map_id).
  replace (map cell_field (map Bare prereqs)) with prereqs in Hs
    by (rewrite map_map; symmetry; apply map_id).
  change (cell_text (Bare name)) with name in Hs.
  rewrite Hs.
  - cbn [length]. destruct (Nat.ltb_spec (S (S (length prereqs))) 2); [lia |].
    rewrite builder_clean by assumption. reflexivity.
  - reflexivity.
  - constructor.
    { split; [intros x; apply valid_no_quote, Hn | apply valid_plain_field, Hn]. }
    constructor.
    { split; [| exact Hq]. intros x Hx. apply dropped_quote, Hd, Hx. }
    apply Forall_fmap. eapply Forall_impl; [exact Hp |]. intros p Hv.
    split; [intros x; apply valid_no_quote, Hv | apply valid_plain_field, Hv].
Qed.

(** X13. In ProjectTwoUniversal.cpp, the line made of a valid
    identifier, a title as [builder] gives it out that holds no comma,
    and valid identifiers as prerequisites, joined by commas, parses to
    exactly that record and prints nothing. *)
Theorem X13_universal_parse_line (name title : string) (prereqs : list string)
        (lineNumber : Z) :
  CourseBuilder.courseNameValidator name = true ->
  clean_title title -> ~ occurs_in comma title ->
  valid_names prereqs ->
  UniversalProgram.LineParser.parse
    (String.concat "," (name :: title :: prereqs)) "," lineNumber =
  (Some (mkCourse name title prereqs), []).
Proof. apply universal_parse_line. Qed.

Lemma X13_universal_parse_line_witness :
  UniversalProgram.LineParser.parse "CSCI101,Intro to CS,MATH101" "," 1 =
  (Some (mkCourse "CSCI101" "Intro to CS" ["MATH101"]), []).
Proof.
  apply (X13_universal_parse_line "CSCI101" "Intro to CS" ["MATH101"] 1).
  - reflexivity.
  - split; [discriminate |]. split.
    + intros c Hc. vm_compute in Hc.
      repeat (destruct Hc as [<- | Hc]; [reflexivity |]). destruct Hc.
    + right. split; reflexivity.
  - intros Hc. vm_compute in Hc. intuition discriminate.
  - repeat constructor.
Defined.

(** X14. In part_000, the same line with the title between quotation
    marks parses to the record even when the title holds commas. *)
Theorem X14_owned_parse_quoted_line (name title : string) (prereqs : list string)
        (q : ascii) (lineNumber : Z) :
  CourseBuilder.courseNameValidator name = true ->
  clean_title title -> is_quote q = true ->
  valid_names prereqs ->
  OwnedProgram.LineParser.parse
    (String.concat ","
       (name :: cell_text (Quoted q title) :: prereqs)) "," lineNumber =
  (Some (mkCourse name title prereqs), []).
Proof. apply owned_parse_line. Qed.

Lemma X14_owned_parse_quoted_line_witness :
  OwnedProgram.LineParser.parse
    (String.concat ","
       ["CSCI101"%string; cell_text (Quoted ch_dquote "Intro, to CS"); "MATH101"%string])
    "," 1 =
  (Some (mkCourse "CSCI101" "Intro, to CS" ["MATH101"]), []).
Proof.
  apply (X14_owned_parse_quoted_line "CSCI101" "Intro, to CS" ["MATH101"] ch_dquote 1).
  - reflexivity.
  - split; [discriminate |]. split.
    + intros c Hc. vm_compute in Hc.
      repeat (destruct Hc as [<- | Hc]; [reflexivity |]). destruct Hc.
    + right. split; reflexivity.
  - reflexivity.
  - repeat constructor.
Defined.

(** ** Reading the lines of a file *)

Lemma getline_scan_lines (file line : string) :
  file <> EmptyString \/ line <> EmptyString ->
  file_lines file line =
  fst (getline_scan file line) :: file_lines (snd (getline_scan file line)) EmptyString.
Proof.
  revert line. induction file as [|c file IH]; intros line Hne.
  - cbn [getline_scan file_lines fst snd empty].
    destruct line; [destruct Hne; congruence | reflexivity].
  - cbn [getline_scan file_lines].
    destruct (Ascii.eqb c ch_newline); [reflexivity |].
    apply IH. right. unfold push_char. destruct line; discriminate.
Qed.

Lemma getline_scan_shorter (file line : string) :
  (String.length (snd (getline_scan file line)) <= String.length file)%nat.
Proof.
  revert line. induction file as [|c file IH]; intros line;
    cbn [getline_scan]; [cbn; lia |].
  destruct (Ascii.eqb c ch_newline); cbn [snd String.length]; [lia |].
  specialize (IH (push_char line c)). lia.
Qed.

Lemma getline_scan_rest (c : ascii) (file line : string) :
  (String.length (snd (getline_scan (String c file) line)) <= String.length file)%nat.
Proof.
  cbn [getline_scan]. destruct (Ascii.eqb c ch_newline); cbn [snd]; [lia |].
  apply getline_scan_shorter.
Qed.

Lemma read_loop_step (parse : string -> string -> Z -> option Course * list string)
      (fuel : nat) (file : string) (lineNumber : Z)
      (newCourses : list Course) (out : list string) :
  read_loop (S fuel) parse file lineNumber newCourses out =
  match getline file with
  | None => Ret (newCourses, out)
  | Some (line, rest) =>
      if lineNumber =? int_max then Undefined
      else
        if empty line then read_loop fuel parse rest (lineNumber + 1) newCourses out
        else
          let '(course, printed) := parse line ","%string (lineNumber + 1) in
          match course with
          | Some c =>
              read_loop fuel parse rest (lineNumber + 1) (newCourses ++ [c])
                        (out ++ printed)
          | None =>
              read_loop fuel parse rest (lineNumber + 1) newCourses (out ++ printed)
          end
  end.
Proof. reflexivity. Qed.

(** The loop of [readFile] parses every line that is not empty, once and
    in order, with its number. *)
Lemma read_loop_lines (parse : string -> string -> Z -> option Course * list string)
      (fuel : nat) (file : string) (lineNumber : Z)
      (newCourses : list Course) (out : list string) :
  (String.length file < fuel)%nat ->
  0 <= lineNumber ->
  lineNumber + Z.of_nat (length (file_lines file EmptyString)) <= int_max ->
  read_loop fuel parse file lineNumber newCourses out =
  Ret (newCourses ++
         omap fst (parsed_lines parse (file_lines file EmptyString) lineNumber),
       out ++
         concat (map snd (parsed_lines parse (file_lines file EmptyString) lineNumber))).
Proof.
  revert file lineNumber newCourses out.
  induction fuel as [|fuel IH]; intros file lineNumber newCourses out Hfuel Hn Hmax;
    [lia |].
  rewrite read_loop_step.
  destruct file as [|c file].
  - cbn [getline file_lines empty parsed_lines omap map concat].
    now rewrite !app_nil_r.
  - assert (Hne : String c file <> EmptyString) by discriminate.
    pose proof (getline_scan_lines (String c file) EmptyString (or_introl Hne)) as Hlines.
    pose proof (getline_scan_rest c file EmptyString) as Hshort.
    unfold getline.
    destruct (getline_scan (String c file) EmptyString) as [line rest].
    cbn [fst snd] in Hlines, Hshort. rewrite Hlines in Hmax |- *.
    cbn [length] in Hmax. cbn [String.length] in Hfuel.
    destruct (Z.eqb_spec lineNumber int_max) as [Heq|_]; [lia |].
    cbn [parsed_lines].
    destruct (empty line).
    + cbn [app]. apply IH; lia.
    + destruct (parse line ","%string (lineNumber + 1)) as [course printed] eqn:Hp.
      cbn [app omap map concat fst snd].
      destruct course as [course|]; rewrite IH by lia;
        rewrite <- !app_assoc; reflexivity.
Qed.

(** X15. The loop of [readFile] takes the lines of the file in order,
    counts every line, skips the empty ones and hands every other line to
    the parser with its number, counted from 1; it collects the courses
    and the diagnostics in that order. *)
Theorem X15_read_loop_lines
        (parse : string -> string -> Z -> option Course * list string)
        (file : string) :
  Z.of_nat (length (file_lines file EmptyString)) <= int_max ->
  read_loop (S (String.length file)) parse file 0 [] [] =
  Ret (omap fst (parsed_lines parse (file_lines file EmptyString) 0),
       concat (map snd (parsed_lines parse (file_lines file EmptyString) 0))).
Proof.
  intros Hmax.
  rewrite (read_loop_lines parse (S (String.length file)) file 0 [] []) by lia.
  reflexivity.
Qed.

Lemma X15_read_loop_lines_witness :
  read_loop (S (String.length sample_file)) UniversalProgram.LineParser.parse
            sample_file 0 [] [] =
  Ret ([mkCourse "CSCI101" "Intro to CS" []; mkCourse "CSCI200" "Data" ["CSCI101"]],
       ["Invalid line format at line: 3"]).
Proof.
  rewrite (X15_read_loop_lines UniversalProgram.LineParser.parse sample_file).
  - vm_compute. reflexivity.
  - vm_compute. discriminate.
Defined.

(** ** [FileReader::readFile] *)

Lemma universal_readFile_unchanged (fuel : nat) (fs : string -> option string)
      (t : Universal.DataStructure) (fileName : string) :
  (fileName = EmptyString ->
     UniversalProgram.FileReader.readFile fuel fs t fileName =
     Ret (t, ["Invalid file name"], false)) /\
  (fileName <> EmptyString -> fs fileName = None ->
     UniversalProgram.FileReader.readFile fuel fs t fileName =
     Ret (t, [String.append "Failed to open file: " fileName], false)) /\
  (forall file,
      fileName <> EmptyString -> fs fileName = Some file ->
      Z.of_nat (length (file_lines file EmptyString)) <= int_max ->
      omap fst (parsed_lines UniversalProgram.LineParser.parse
                             (file_lines file EmptyString) 0) = [] ->
      UniversalProgram.FileReader.readFile fuel fs t fileName =
      Ret (t,
           concat (map snd (parsed_lines UniversalProgram.LineParser.parse
                                         (file_lines file EmptyString) 0))
           ++ ["Warning: Empty or null course list. No change made.";
               String.append "Successfully read file: " fileName],
           true)).
Proof.
  unfold UniversalProgram.FileReader.readFile. split; [| split].
  - intros ->. reflexivity.
  - intros Hne Hfs. destruct fileName; [congruence |]. cbn [empty]. rewrite Hfs.
    reflexivity.
  - intros file Hne Hfs Hmax Hnone. destruct fileName; [congruence |]. cbn [empty].
    rewrite Hfs.
    rewrite (read_loop_lines _ (S (String.length file)) file 0 [] []) by lia.
    cbn [app bind]. rewrite Hnone. cbn [map Universal.inject bind]. reflexivity.
Qed.

Lemma owned_readFile_unchanged (fuel : nat) (fs : string -> option string)
      (t : Owned.DataStructure) (fileName : string) :
  (fileName = EmptyString ->
     OwnedProgram.FileReader.readFile fuel fs t fileName =
     Ret (t, ["Invalid file name"])) /\
  (fileName <> EmptyString -> fs fileName = None ->
     OwnedProgram.FileReader.readFile fuel fs t fileName =
     Ret (t, [String.append "Failed to open file: " fileName])) /\
  (forall file,
      fileName <> EmptyString -> fs fileName = Some file ->
      Z.of_nat (length (file_lines file EmptyString)) <= int_max ->
      omap fst (parsed_lines OwnedProgram.LineParser.parse
                             (file_lines file EmptyString) 0) = [] ->
      OwnedProgram.FileReader.readFile fuel fs t fileName =
      Ret (t,
           concat (map snd (parsed_lines OwnedProgram.LineParser.parse
                                         (file_lines file EmptyString) 0))
           ++ ["Warning: Empty or null course list. No change made.";
               String.append "Successfully read file: " fileName])).
Proof.
  unfold OwnedProgram.FileReader.readFile. split; [| split].
  - intros ->. reflexivity.
  - intros Hne Hfs. destruct fileName; [congruence |]. cbn [empty]. rewrite Hfs.
    reflexivity.
  - intros file Hne Hfs Hmax Hnone. destruct fileName; [congruence |]. cbn [empty].
    rewrite Hfs.
    rewrite (read_loop_lines _ (S (String.length file)) file 0 [] []) by lia.
    cbn [app bind]. rewrite Hnone. cbn [map Owned.inject bind]. reflexivity.
Qed.

(** X16. [readFile] of ProjectTwoUniversal.cpp leaves the table as it is
    when the file name is empty or the file cannot be opened, and returns
    false; when the file opens but no line of it gives a record, the table
    is left as it is too, after the diagnostics of the lines the warning
    of [inject] and the success message are printed, and the call returns
    true. *)
Theorem X16_universal_readFile_unchanged (fuel : nat) (fs : string -> option string)
        (t : Universal.DataStructure) (fileName : string) :
  (fileName = EmptyString ->
     UniversalProgram.FileReader.readFile fuel fs t fileName =
     Ret (t, ["Invalid file name"], false)) /\
  (fileName <> EmptyString -> fs fileName = None ->
     UniversalProgram.FileReader.readFile fuel fs t fileName =
     Ret (t, [String.append "Failed to open file: " fileName], false)) /\
  (forall file,
      fileName <> EmptyString -> fs fileName = Some file ->
      Z.of_nat (length (file_lines file EmptyString)) <= int_max ->
      omap fst (parsed_lines UniversalProgram.LineParser.parse
                             (file_lines file EmptyString) 0) = [] ->
      UniversalProgram.FileReader.readFile fuel fs t fileName =
      Ret (t,
           concat (map snd (parsed_lines UniversalProgram.LineParser.parse
                                         (file_lines file EmptyString) 0))
           ++ ["Warning: Empty or null course list. No change made.";
               String.append "Successfully read file: " fileName],
           true)).
Proof. apply universal_readFile_unchanged. Qed.

Lemma X16_universal_readFile_unchanged_witness :
  UniversalProgram.FileReader.readFile 8
    (fun name => if String.eqb name "courses.csv" then Some "CSCI102"%string else None)
    universal_one "courses.csv" =
  Ret (universal_one,
       ["Invalid line format at line: 1";
        "Warning: Empty or null course list. No change made.";
        "Successfully read file: courses.csv"],
       true).
Proof.
  apply (proj2 (proj2 (X16_universal_readFile_unchanged 8
                         (fun name => if String.eqb name "courses.csv"
                                      then Some "CSCI102"%string else None)
                         universal_one "courses.csv")) "CSCI102"%string).
  - discriminate.
  - reflexivity.
  - vm_compute. discriminate.
  - reflexivity.
Defined.

(** X17. The same in part_000, whose [readFile] returns nothing. *)
Theorem X17_owned_readFile_unchanged (fuel : nat) (fs : string -> option string)
        (t : Owned.DataStructure) (fileName : string) :
  (fileName = EmptyString ->
     OwnedProgram.FileReader.readFile fuel fs t fileName =
     Ret (t, ["Invalid file name"])) /\
  (fileName <> EmptyString -> fs fileName = None ->
     OwnedProgram.FileReader.readFile fuel fs t fileName =
     Ret (t, [String.append "Failed to open file: " fileName])) /\
  (forall file,
      fileName <> EmptyString -> fs fileName = Some file ->
      Z.of_nat (length (file_lines file EmptyString)) <= int_max ->
      omap fst (parsed_lines OwnedProgram.LineParser.parse
                             (file_lines file EmptyString) 0) = [] ->
      OwnedProgram.FileReader.readFile fuel fs t fileName =
      Ret (t,
           concat (map snd (parsed_lines OwnedProgram.LineParser.parse
                                         (file_lines file EmptyString) 0))
           ++ ["Warning: Empty or null course list. No change made.";
               String.append "Successfully read file: " fileName])).
Proof. apply owned_readFile_unchanged. Qed.

Lemma X17_owned_readFile_unchanged_witness :
  OwnedProgram.FileReader.readFile 8
    (fun name => if String.eqb name "courses.csv" then Some "CSCI102"%string else None)
    owned_one "courses.csv" =
  Ret (owned_one,
       ["Invalid line format at line: 1";
        "Warning: Empty or null course list. No change made.";
        "Successfully read file: courses.csv"]).
Proof.
  apply (proj2 (proj2 (X17_owned_readFile_unchanged 8
                         (fun name => if String.eqb name "courses.csv"
                                      then Some "CSCI102"%string else None)
                         owned_one "courses.csv")) "CSCI102"%string).
  - discriminate.
  - reflexivity.
  - vm_compute. discriminate.
  - reflexivity.
Defined.

(** ** [Menu::search] *)

Lemma prefix_spec (a s : string) :
  String.prefix a s = true <-> exists b, s = String.append a b.
Proof.
  revert s. induction a as [|x a IH]; intros s.
  - destruct s; cbn [String.prefix]; split; eauto.
  - destruct s as [|y s]; cbn [String.prefix].
    + split; [discriminate | intros [b Hb]; rewrite append_cons in Hb; discriminate].
    + destruct (ascii_dec x y) as [->|Hne].
      * rewrite IH. split; intros [b Hb]; exists b.
        -- rewrite append_cons. now rewrite Hb.
        -- rewrite append_cons in Hb. now injection Hb.
      * split; [discriminate |]. intros [b Hb]. rewrite append_cons in Hb.
        injection Hb as ? _. congruence.
Qed.

Lemma find_spec (s criteria : string) (pos : nat) :
  find s criteria pos <> None <->
  exists a b, s = String.append a (String.append criteria b).
Proof.
  revert pos. induction s as [|c s IH]; intros pos; cbn [find].
  - destruct (String.prefix criteria EmptyString) eqn:Hp.
    + split; [intros _ | discriminate].
      apply prefix_spec in Hp as [b Hb]. exists EmptyString, b. exact Hb.
    + split; [congruence |]. intros (a & b & H).
      destruct a; [| rewrite append_cons in H; discriminate].
      rewrite append_nil_l in H.
      assert (String.prefix criteria EmptyString = true) by (apply prefix_spec; eauto).
      congruence.
  - destruct (String.prefix criteria (String c s)) eqn:Hp.
    + split; [intros _ | discriminate].
      apply prefix_spec in Hp as [b Hb]. exists EmptyString, b. exact Hb.
    + rewrite IH. split.
      * intros (a & b & ->). exists (String c a), b. reflexivity.
      * intros (a & b & H). destruct a as [|x a].
        -- rewrite append_nil_l in H.
           assert (String.prefix criteria (String c s) = true)
             by (apply prefix_spec; eauto).
           congruence.
        -- rewrite append_cons in H. injection H as _ ->. eauto.
Qed.

Lemma prereq_match_spec (prereqs : list string) (criteria : string) :
  prereq_match prereqs criteria = true <-> In criteria prereqs.
Proof.
  induction prereqs as [|p prereqs IH]; cbn [prereq_match In].
  - split; [discriminate | tauto].
  - destruct (String.eqb_spec p criteria) as [->|Hne].
    + split; auto.
    + rewrite IH. split; [auto | intros [H|H]; [congruence | exact H]].
Qed.

Lemma search_keep_matches (criteria category : string) (c : Course) :
  search_keep criteria category c = true <-> matches criteria category c.
Proof.
  unfold search_keep, matches.
  destruct (String.eqb_spec category "name") as [->|Hn].
  { rewrite String.eqb_eq. split; [auto |].
    intros [[_ H]|[[H _]|[H _]]]; [exact H | discriminate H | discriminate H]. }
  destruct (String.eqb_spec category "title") as [->|Ht].
  { rewrite negb_true_iff, bool_decide_eq_false, find_spec. split; [auto |].
    intros [[H _]|[[_ H]|[H _]]]; [discriminate H | exact H | discriminate H]. }
  destruct (String.eqb_spec category "prereq") as [->|Hp].
  { rewrite prereq_match_spec. split; [auto |].
    intros [[H _]|[[H _]|[_ H]]]; [discriminate H | discriminate H | exact H]. }
  split; [discriminate |]. intros [[H _]|[[H _]|[H _]]]; congruence.
Qed.

Lemma search_step_keep (criteria category : string) (c : Course) (results : list Course) :
  search_step criteria category c results =
  if search_keep criteria category c then results ++ [c] else results.
Proof.
  unfold search_step, search_keep.
  destruct (String.eqb category "name"); [reflexivity |].
  destruct (String.eqb category "title"); [reflexivity |].
  destruct (String.eqb category "prereq"); reflexivity.
Qed.

Lemma filter_drop_step {A : Type} (keep : A -> bool) (view : list A) (index : nat) (x : A) :
  view !! index = Some x ->
  List.filter keep (drop index view) =
  (if keep x then [x] else []) ++ List.filter keep (drop (S index) view).
Proof.
  intros Hx. rewrite (drop_S _ _ _ Hx). cbn [List.filter].
  destruct (keep x); reflexivity.
Qed.

(** *** part_000 *)

Lemma owned_search_loop (n : nat) (t t' : Owned.DataStructure) (view : list Course)
      (criteria category : string) (index : nat) (results : list Course) :
  Owned.getSorted t' = Ret (t', view) ->
  (forall c, c ∈ view -> c ∈ concat (Owned.buckets t')) ->
  Owned.getSorted t = Ret (t', view) ->
  (length view - index < n)%nat ->
  OwnedProgram.Menu.search_loop n t criteria category index results =
  Ret (t', results ++ List.filter (search_keep criteria category) (drop index view)).
Proof.
  intros Hagain Halive. revert t index results.
  induction n as [|n IH]; intros t index results Hget Hn; [lia |].
  cbn [OwnedProgram.Menu.search_loop]. rewrite Hget. cbn [bind].
  destruct (Nat.ltb_spec index (length view)) as [Hlt|Hge].
  - rewrite Hagain. cbn [bind].
    destruct (lookup_lt_is_Some_2 view index Hlt) as [c Hc].
    unfold vector_at. rewrite Nat2Z.id, Hc. cbn [bind].
    unfold OwnedProgram.Menu.view_deref.
    rewrite bool_decide_eq_true_2
      by (apply Halive; eapply list_elem_of_lookup_2; exact Hc).
    cbn [bind]. rewrite IH by (auto; lia).
    rewrite search_step_keep, (filter_drop_step _ _ _ _ Hc).
    destruct (search_keep criteria category c); [rewrite <- app_assoc |]; reflexivity.
  - rewrite drop_ge by lia. cbn [List.filter]. now rewrite app_nil_r.
Qed.

Lemma owned_getSorted_again (t t' : Owned.DataStructure) (view : list Course) :
  sized t -> Owned.sorted t = false ->
  Owned.getSorted t = Ret (t', view) ->
  Owned.getSorted t' = Ret (t', view) /\
  view = std_sort (entries t) /\
  (forall c, c ∈ view -> c ∈ concat (Owned.buckets t')).
Proof.
  intros Hs Hflag Hget.
  destruct (getSorted_recomputed t Hs Hflag) as (t1 & Hg & He & _ & Hperm).
  rewrite Hg in Hget. apply Ret_inj in Hget. injection Hget as <- <-.
  unfold Owned.getSorted in Hg. rewrite Hflag in Hg. cbn [negb] in Hg.
  rewrite sort_sized in Hg by exact Hs. cbn [bind] in Hg.
  apply Ret_inj in Hg. injection Hg as <-.
  split; [reflexivity |]. split; [reflexivity |].
  intros c Hc. cbn [Owned.buckets Owned.set_sorted Owned.set_sortedCourses].
  rewrite Hperm in Hc. exact Hc.
Qed.

Lemma owned_search (n : nat) (t t' : Owned.DataStructure) (view : list Course)
      (criteria category : string) :
  sized t -> Owned.sorted t = false ->
  Owned.getSorted t = Ret (t', view) ->
  (length view < n)%nat ->
  exists keep,
    (forall c, keep c = true <-> matches criteria category c) /\
    OwnedProgram.Menu.search n t criteria category = Ret (t', List.filter keep view).
Proof.
  intros Hs Hflag Hget Hn.
  destruct (owned_getSorted_again t t' view Hs Hflag Hget) as (Hagain & _ & Halive).
  exists (search_keep criteria category).
  split; [intros c; apply search_keep_matches |].
  unfold OwnedProgram.Menu.search.
  rewrite (owned_search_loop n t t' view criteria category 0 [] Hagain Halive Hget)
    by lia.
  reflexivity.
Qed.

(** X18. In part_000, on a table whose view is not cached, [search]
    returns the courses of the sorted view that answer the search, in the
    order of the view: those named as the text for the category name,
    those whose title holds the text for title, those with the text among
    their prerequisites for prereq, each once, and none for any other
    category. *)
Theorem X18_owned_search (n : nat) (t t' : Owned.DataStructure) (view : list Course)
        (criteria category : string) :
  sized t -> Owned.sorted t = false ->
  Owned.getSorted t = Ret (t', view) ->
  (length view < n)%nat ->
  exists keep,
    (forall c, keep c = true <-> matches criteria category c) /\
    OwnedProgram.Menu.search n t criteria category = Ret (t', List.filter keep view).
Proof. apply owned_search. Qed.

Lemma owned_one_sized : sized owned_one.
Proof. split; [vm_compute; split; discriminate | reflexivity]. Qed.

Lemma X18_owned_search_witness :
  exists keep,
    (forall c, keep c = true <-> matches "Course" "title" c) /\
    OwnedProgram.Menu.search 2 owned_one "Course" "title" =
    Ret (owned_one_viewed, List.filter keep [sample_course 0]).
Proof.
  apply (X18_owned_search 2 owned_one owned_one_viewed [sample_course 0] "Course" "title").
  - split; [vm_compute; split; discriminate | reflexivity].
  - reflexivity.
  - reflexivity.
  - cbn [length]. lia.
Defined.

(** *** ProjectTwoUniversal.cpp *)

Lemma universal_sort_again (fuel : nat) (t t' : Universal.DataStructure) :
  Universal.sort fuel t = Ret t' -> Universal.sort fuel t' = Ret t'.
Proof.
  unfold Universal.sort. intros H. inv_bind H. apply Ret_inj in H. subst t'.
  cbn [Universal.capacity Universal.buckets Universal.heap Universal.set_sortedCourses].
  rewrite Hret. reflexivity.
Qed.

Lemma universal_getSorted_again (fuel : nat) (t t' : Universal.DataStructure)
      (view : list Course) :
  Universal.getSorted fuel t = Ret (t', view) ->
  Universal.getSorted fuel t' = Ret (t', view).
Proof.
  unfold Universal.getSorted. intros H. inv_bind H. apply Ret_inj in H.
  injection H as <- <-. rewrite (universal_sort_again _ _ _ Hret). reflexivity.
Qed.

Lemma universal_search_loop (n fuel : nat) (t t' : Universal.DataStructure)
      (view : list Course) (criteria category : string) (index : nat)
      (results : list Course) :
  Universal.getSorted fuel t' = Ret (t', view) ->
  Universal.getSorted fuel t = Ret (t', view) ->
  (length view - index < n)%nat ->
  UniversalProgram.Menu.search_loop n fuel t criteria category index results =
  Ret (t', results ++ List.filter (search_keep criteria category) (drop index view)).
Proof.
  intros Hagain. revert t index results.
  induction n as [|n IH]; intros t index results Hget Hn; [lia |].
  cbn [UniversalProgram.Menu.search_loop]. rewrite Hget. cbn [bind].
  destruct (Nat.ltb_spec index (length view)) as [Hlt|Hge].
  - rewrite Hagain. cbn [bind].
    destruct (lookup_lt_is_Some_2 view index Hlt) as [c Hc].
    unfold vector_at. rewrite Nat2Z.id, Hc. cbn [bind].
    rewrite IH by (auto; lia).
    rewrite search_step_keep, (filter_drop_step _ _ _ _ Hc).
    destruct (search_keep criteria category c); [rewrite <- app_assoc |]; reflexivity.
  - rewrite drop_ge by lia. cbn [List.filter]. now rewrite app_nil_r.
Qed.

Lemma universal_search (n fuel : nat) (t t' : Universal.DataStructure)
      (view : list Course) (criteria category : string) :
  Universal.getSorted fuel t = Ret (t', view) ->
  (length view < n)%nat ->
  exists keep,
    (forall c, keep c = true <-> matches criteria category c) /\
    UniversalProgram.Menu.search n fuel t criteria category =
    Ret (t', List.filter keep view).
Proof.
  intros Hget Hn. exists (search_keep criteria category).
  split; [intros c; apply search_keep_matches |].
  unfold UniversalProgram.Menu.search.
  rewrite (universal_search_loop n fuel t t' view criteria category 0 []
             (universal_getSorted_again _ _ _ _ Hget) Hget) by lia.
  reflexivity.
Qed.

(** X19. In ProjectTwoUniversal.cpp, whenever [getSorted] returns a
    view, [search] returns the courses of that view that answer the
    search, in the order of the view, each once, and none for a category
    other than name, title and prereq. *)
Theorem X19_universal_search (n fuel : nat) (t t' : Universal.DataStructure)
        (view : list Course) (criteria category : string) :
  Universal.getSorted fuel t = Ret (t', view) ->
  (length view < n)%nat ->
  exists keep,
    (forall c, keep c = true <-> matches criteria category c) /\
    UniversalProgram.Menu.search n fuel t criteria category =
    Ret (t', List.filter keep view).
Proof. apply universal_search. Qed.

Lemma X19_universal_search_witness :
  exists keep,
    (forall c, keep c = true <-> matches "CSCI000" "name" c) /\
    UniversalProgram.Menu.search 2 8 universal_one "CSCI000" "name" =
    Ret (universal_one_viewed, List.filter keep [sample_course 0]).
Proof.
  apply (X19_universal_search 2 8 universal_one universal_one_viewed
           [sample_course 0] "CSCI000" "name").
  - vm_compute. reflexivity.
  - cbn [length]. lia.
Defined.

(** ** [Menu::displayCSCourses] and [Menu::displayAllCourses] *)

Lemma substring_prefix (start name : string) :
  String.eqb (String.substring 0 (String.length start) name) start = true <->
  starts_with start name.
Proof.
  rewrite String.eqb_eq, <- prefix_correct. apply prefix_spec.
Qed.

Lemma flat_map_keep {A B : Type} (keep : A -> bool) (f : A -> B) (l : list A) :
  flat_map (fun x => if keep x then [f x] else []) l = map f (List.filter keep l).
Proof.
  induction l as [|x l IH]; [reflexivity |]. cbn [flat_map List.filter].
  destruct (keep x); cbn [map app]; now rewrite IH.
Qed.

Lemma owned_display_loop (t : Owned.DataStructure) (keep : Course -> bool)
      (view : list Course) (out : list string) :
  (forall c, c ∈ view -> c ∈ concat (Owned.buckets t)) ->
  OwnedProgram.Menu.display_loop t keep view out =
  Ret (out ++ map toString (List.filter keep view)).
Proof.
  revert out. induction view as [|c view IH]; intros out Halive;
    cbn [OwnedProgram.Menu.display_loop List.filter map].
  - now rewrite app_nil_r.
  - unfold OwnedProgram.Menu.view_deref.
    rewrite bool_decide_eq_true_2 by (apply Halive; left).
    cbn [bind]. rewrite IH by (intros x Hx; apply Halive; right; exact Hx).
    destruct (keep c); cbn [GUI.printCourse map]; [rewrite <- app_assoc |]; reflexivity.
Qed.

Lemma filter_true {A : Type} (l : list A) : List.filter (fun _ => true) l = l.
Proof. induction l as [|x l IH]; [reflexivity |]. cbn [List.filter]. now rewrite IH. Qed.

Lemma owned_display (t t' : Owned.DataStructure) (view : list Course) :
  sized t -> Owned.sorted t = false ->
  Owned.getSorted t = Ret (t', view) ->
  OwnedProgram.Menu.displayAllCourses t =
    Ret (t', "-------- Course List --------"%string :: map toString view) /\
  exists keep,
    (forall c, keep c = true <-> starts_with "CS" (getName c)) /\
    OwnedProgram.Menu.displayCSCourses t =
    Ret (t', "-------- Course List --------"%string :: map toString (List.filter keep view)).
Proof.
  intros Hs Hflag Hget.
  destruct (owned_getSorted_again t t' view Hs Hflag Hget) as (_ & _ & Halive).
  unfold OwnedProgram.Menu.displayAllCourses, OwnedProgram.Menu.displayCSCourses.
  rewrite Hget. cbn [bind]. rewrite !owned_display_loop by exact Halive.
  cbn [bind]. split; [rewrite filter_true; reflexivity |].
  exists (fun course => String.eqb (String.substring 0 2 (getName course)) "CS").
  split; [| reflexivity].
  intros c. apply (substring_prefix "CS").
Qed.

Lemma flat_map_printCourse (view : list Course) :
  flat_map (fun course => GUI.printCourse (Some course)) view = map toString view.
Proof.
  induction view as [|c view IH]; [reflexivity |].
  cbn [flat_map map]. rewrite IH. reflexivity.
Qed.

Lemma universal_display (fuel : nat) (t t' : Universal.DataStructure)
      (view : list Course) :
  Universal.getSorted fuel t = Ret (t', view) ->
  UniversalProgram.Menu.displayAllCourses fuel t =
    Ret (t', "-------- Course List --------"%string :: map toString view) /\
  exists keep,
    (forall c, keep c = true <->
               starts_with "CS" (getName c) \/ starts_with "MATH" (getName c)) /\
    UniversalProgram.Menu.displayCSCourses fuel t =
    Ret (t', "-------- Course List --------"%string :: map toString (List.filter keep view)).
Proof.
  intros Hget.
  unfold UniversalProgram.Menu.displayAllCourses, UniversalProgram.Menu.displayCSCourses.
  rewrite Hget. cbn [bind]. split.
  - rewrite flat_map_printCourse. reflexivity.
  - exists (fun course =>
              String.eqb (String.substring 0 2 (getName course)) "CS"
              || String.eqb (String.substring 0 4 (getName course)) "MATH").
    split.
    + intros c. rewrite orb_true_iff.
      rewrite (substring_prefix "CS"), (substring_prefix "MATH"). reflexivity.
    + unfold GUI.printCourse.
      rewrite (flat_map_keep
                 (fun course =>
                    String.eqb (String.substring 0 2 (getName course)) "CS"
                    || String.eqb (String.substring 0 4 (getName course)) "MATH")
                 toString view).
      reflexivity.
Qed.

(** X20. In part_000, on a table whose view is not cached,
    [displayAllCourses] prints the header and then one line for every
    course of the sorted view, in its order; [displayCSCourses] prints
    the header and the lines of the courses whose name starts with CS,
    and of no other course. *)
Theorem X20_owned_display (t t' : Owned.DataStructure) (view : list Course) :
  sized t -> Owned.sorted t = false ->
  Owned.getSorted t = Ret (t', view) ->
  OwnedProgram.Menu.displayAllCourses t =
    Ret (t', "-------- Course List --------"%string :: map toString view) /\
  exists keep,
    (forall c, keep c = true <-> starts_with "CS" (getName c)) /\
    OwnedProgram.Menu.displayCSCourses t =
    Ret (t', "-------- Course List --------"%string :: map toString (List.filter keep view)).
Proof. apply owned_display. Qed.

Lemma X20_owned_display_witness :
  OwnedProgram.Menu.displayAllCourses owned_one =
    Ret (owned_one_viewed,
         "-------- Course List --------"%string :: map toString [sample_course 0]) /\
  exists keep,
    (forall c, keep c = true <-> starts_with "CS" (getName c)) /\
    OwnedProgram.Menu.displayCSCourses owned_one =
    Ret (owned_one_viewed,
         "-------- Course List --------"%string
         :: map toString (List.filter keep [sample_course 0])).
Proof.
  apply (X20_owned_display owned_one owned_one_viewed [sample_course 0]).
  - split; [vm_compute; split; discriminate | reflexivity].
  - reflexivity.
  - reflexivity.
Defined.

(** X21. In ProjectTwoUniversal.cpp, whenever [getSorted] returns a
    view, [displayAllCourses] prints the header and one line for every
    course of the view, in its order, and [displayCSCourses] prints the
    header and the lines of the courses whose name starts with CS or with
    MATH, and of no other course. *)
Theorem X21_universal_display (fuel : nat) (t t' : Universal.DataStructure)
        (view : list Course) :
  Universal.getSorted fuel t = Ret (t', view) ->
  UniversalProgram.Menu.displayAllCourses fuel t =
    Ret (t', "-------- Course List --------"%string :: map toString view) /\
  exists keep,
    (forall c, keep c = true <->
               starts_with "CS" (getName c) \/ starts_with "MATH" (getName c)) /\
    UniversalProgram.Menu.displayCSCourses fuel t =
    Ret (t', "-------- Course List --------"%string :: map toString (List.filter keep view)).
Proof. apply universal_display. Qed.

Lemma X21_universal_display_witness :
  UniversalProgram.Menu.displayAllCourses 8 universal_one =
    Ret (universal_one_viewed,
         "-------- Course List --------"%string :: map toString [sample_course 0]) /\
  exists keep,
    (forall c, keep c = true <->
               starts_with "CS" (getName c) \/ starts_with "MATH" (getName c)) /\
    UniversalProgram.Menu.displayCSCourses 8 universal_one =
    Ret (universal_one_viewed,
         "-------- Course List --------"%string
         :: map toString (List.filter keep [sample_course 0])).
Proof.
  apply (X21_universal_display 8 universal_one universal_one_viewed [sample_course 0]).
  vm_compute. reflexivity.
Defined.

(** ** The table of ProjectTwoUniversal.cpp while no resize runs *)

Lemma refines_Ret {A : Type} (r r' : outcome A) (a : A) :
  refines r r' -> r = Ret a -> r' = Ret a.
Proof. intros Href Hr. rewrite <- Hr. apply Href. rewrite Hr. discriminate. Qed.

(** Nodes that are allocated later do not change a walk that ended. *)
Lemma chain_find_grown (fuel : nat) (h more : list (option Universal.DataNode))
      (cur : option Universal.addr) (key : string) (r : option Universal.DataNode) :
  Universal.chain_find fuel h cur key = Ret r ->
  Universal.chain_find fuel (h ++ more) cur key = Ret r.
Proof.
  revert cur. induction fuel as [|fuel IH]; intros cur; cbn [Universal.chain_find];
    [discriminate |].
  destruct cur as [a|]; [| auto].
  unfold Universal.deref.
  destruct (h !! a) as [[n|]|] eqn:Ha; cbn [bind]; try discriminate.
  rewrite (lookup_app_l_Some _ _ _ _ Ha). cbn [bind].
  destruct (String.eqb (getName (Universal.course n)) key); [auto | apply IH].
Qed.

Lemma universal_insert_new (fuel : nat) (t : Universal.DataStructure) (c : Course) :
  usized t ->
  getName c <> EmptyString ->
  Universal.get fuel t (getName c) = Ret None ->
  load_exceeds (wrap64 (Universal.size t + 1)) (Universal.capacity t) = false ->
  exists t',
    Universal.insert fuel t (Some c) = Ret (t', []) /\
    Universal.size t' = wrap64 (Universal.size t + 1) /\
    Universal.capacity t' = Universal.capacity t /\
    Universal.get fuel t' (getName c) = Ret (Some c) /\
    forall key r,
      key <> getName c ->
      Universal.get fuel t key = Ret r ->
      Universal.get (S fuel) t' key = Ret r.
Proof.
  intros [Hcap Hlen] Hne Hget Hload.
  unfold Universal.get in Hget.
  destruct (empty (getName c)) eqn:He; [destruct (getName c); [congruence | discriminate He] |].
  inv_bind Hget. rename a into head. inv_bind Hget. rename a into found.
  destruct found as [n|]; [discriminate Hget |]. clear Hget.
  pose proof Hret as Hhead. apply vector_at_Ret in Hhead.
  set (index := hash (Universal.capacity t) (getName c)) in *.
  assert (Hidx : (Z.to_nat index < length (Universal.buckets t))%nat)
    by (eapply lookup_lt_Some; exact Hhead).
  remember (Universal.heap t ++ [Some (Universal.mkNode c head)]) as h' eqn:Hh'.
  remember (<[Z.to_nat index := Some (length (Universal.heap t))]> (Universal.buckets t))
    as bs' eqn:Hbs'.
  assert (Hins : Universal.insert fuel t (Some c) =
                 Ret (Universal.mkTable h' bs' (Universal.capacity t)
                        (wrap64 (Universal.size t + 1)) (Universal.sortedCourses t), [])).
  { unfold Universal.insert. fold index. rewrite Hret. cbn [bind]. rewrite Hret0.
    cbn [bind]. unfold Universal.alloc.
    rewrite (proj2 (vector_set_Ret _ _ _ _) (conj Hidx eq_refl)). cbn [bind].
    cbn [Universal.size Universal.capacity Universal.set_size Universal.set_buckets
         Universal.set_heap Universal.heap Universal.buckets Universal.sortedCourses].
    rewrite Hload. subst h' bs'. reflexivity. }
  assert (Hfuel : exists fuel0, fuel = S fuel0).
  { destruct fuel; [discriminate Hret0 | eauto]. }
  destruct Hfuel as [fuel0 ->].
  assert (Hnew : Universal.deref h' (length (Universal.heap t)) =
                 Ret (Universal.mkNode c head)).
  { subst h'. unfold Universal.deref.
    rewrite lookup_app_r by lia. rewrite Nat.sub_diag. reflexivity. }
  eexists. split; [exact Hins |]. split; [reflexivity |]. split; [reflexivity |].
  split.
  - unfold Universal.get. rewrite He.
    cbn [Universal.capacity Universal.buckets Universal.heap].
    fold index. unfold vector_at. rewrite Hbs'.
    rewrite list_lookup_insert_eq by exact Hidx. cbn [bind Universal.chain_find].
    rewrite Hnew. cbn [bind Universal.course].
    rewrite String.eqb_refl. reflexivity.
  - intros key r Hkey Hk. unfold Universal.get in Hk |- *.
    destruct (empty key); [exact Hk |].
    cbn [Universal.capacity Universal.buckets Universal.heap].
    inv_bind Hk. rename a into p. inv_bind Hk. rename a into foundk.
    apply Ret_inj in Hk. subst r.
    apply vector_at_Ret in Hret1.
    pose proof (chain_find_grown _ _ [Some (Universal.mkNode c head)] _ _ _ Hret2) as Hg.
    rewrite <- Hh' in Hg.
    destruct (decide (Z.to_nat (hash (Universal.capacity t) key) = Z.to_nat index))
      as [Heq|Hneq].
    + unfold vector_at. rewrite Hbs', Heq, list_lookup_insert_eq by exact Hidx.
      cbn [bind Universal.chain_find]. rewrite Hnew.
      cbn [bind Universal.course Universal.nextNode].
      destruct (String.eqb_spec (getName c) key) as [Hck|_]; [congruence |].
      rewrite Heq in Hret1. rewrite Hhead in Hret1. injection Hret1 as Hp.
      change (bind (Universal.chain_find (S fuel0) h' head key)
                   (fun found => Ret (Universal.course <$> found)) =
              Ret (Universal.course <$> foundk)).
      rewrite Hp, Hg. reflexivity.
    + unfold vector_at. rewrite Hbs', list_lookup_insert_ne by congruence.
      rewrite Hret1. cbn [bind].
      rewrite (refines_Ret _ _ _
                 (chain_find_refines (S fuel0) (S (S fuel0)) h' p key ltac:(lia)) Hg).
      reflexivity.
Qed.

(** X22. In ProjectTwoUniversal.cpp, the insert of a record whose name
    is not found and that does not bring the load over 0.75 returns
    without a message, counts the record, makes the lookup of its name
    return it, and changes no lookup of another name that returned
    before. *)
Theorem X22_universal_insert_new (fuel : nat) (t : Universal.DataStructure)
        (c : Course) :
  usized t ->
  getName c <> EmptyString ->
  Universal.get fuel t (getName c) = Ret None ->
  load_exceeds (wrap64 (Universal.size t + 1)) (Universal.capacity t) = false ->
  exists t',
    Universal.insert fuel t (Some c) = Ret (t', []) /\
    Universal.size t' = wrap64 (Universal.size t + 1) /\
    Universal.capacity t' = Universal.capacity t /\
    Universal.get fuel t' (getName c) = Ret (Some c) /\
    forall key r,
      key <> getName c ->
      Universal.get fuel t key = Ret r ->
      Universal.get (S fuel) t' key = Ret r.
Proof. apply universal_insert_new. Qed.

Lemma universal_one_usized : usized universal_one.
Proof. split; [vm_compute; split; discriminate | reflexivity]. Qed.

Lemma X22_universal_insert_new_witness :
  exists t',
    Universal.insert 8 universal_one (Some (sample_course 121)) = Ret (t', []) /\
    Universal.size t' = wrap64 (Universal.size universal_one + 1) /\
    Universal.capacity t' = Universal.capacity universal_one /\
    Universal.get 8 t' (getName (sample_course 121)) = Ret (Some (sample_course 121)) /\
    forall key r,
      key <> getName (sample_course 121) ->
      Universal.get 8 universal_one key = Ret r ->
      Universal.get 9 t' key = Ret r.
Proof.
  apply (X22_universal_insert_new 8 universal_one (sample_course 121)).
  - split; [vm_compute; split; discriminate | reflexivity].
  - discriminate.
  - vm_compute. reflexivity.
  - vm_compute. reflexivity.
Defined.

Lemma remove_walk_not_found (fuel : nat) (key : string) (index : Z)
      (cur previous : option Universal.addr)
      (h : list (option Universal.DataNode)) (bs : list (option Universal.addr)) :
  Universal.chain_find fuel h cur key = Ret None ->
  Universal.remove_walk fuel key index cur previous h bs = Ret (false, h, bs).
Proof.
  revert cur previous. induction fuel as [|fuel IH]; intros cur previous;
    cbn [Universal.chain_find Universal.remove_walk]; [discriminate |].
  destruct cur as [a|]; [| reflexivity].
  destruct (Universal.deref h a) as [n| | |]; cbn [bind]; try discriminate.
  destruct (String.eqb (getName (Universal.course n)) key); [discriminate |].
  apply IH.
Qed.

Lemma universal_remove_missing (fuel : nat) (t : Universal.DataStructure)
      (courseName : string) :
  courseName <> EmptyString ->
  Universal.get fuel t courseName = Ret None ->
  Universal.remove fuel t courseName =
  Ret (t, [String.append "Course not found: " courseName]).
Proof.
  intros Hne Hget. unfold Universal.get in Hget. unfold Universal.remove.
  destruct (empty courseName) eqn:He; [destruct courseName; [congruence | discriminate He] |].
  inv_bind Hget. inv_bind Hget. destruct a0; [discriminate Hget |].
  rewrite Hret. cbn [bind].
  rewrite (remove_walk_not_found _ _ _ _ _ _ _ Hret0). reflexivity.
Qed.

(** X23. In ProjectTwoUniversal.cpp, [remove] of a name that the lookup
    does not find prints that the course was not found and leaves the
    table, free store included, as it was; [remove] of the empty name
    prints its own message and changes nothing either. *)
Theorem X23_universal_remove_missing (fuel : nat) (t : Universal.DataStructure)
        (courseName : string) :
  (courseName <> EmptyString ->
   Universal.get fuel t courseName = Ret None ->
   Universal.remove fuel t courseName =
   Ret (t, [String.append "Course not found: " courseName])) /\
  Universal.remove fuel t EmptyString = Ret (t, ["Unable to remove empty course!"]).
Proof. split; [apply universal_remove_missing | reflexivity]. Qed.

Lemma X23_universal_remove_missing_witness :
  Universal.remove 8 universal_one "CSCI121" =
  Ret (universal_one, ["Course not found: CSCI121"]).
Proof.
  apply (proj1 (X23_universal_remove_missing 8 universal_one "CSCI121")).
  - discriminate.
  - vm_compute. reflexivity.
Defined.

(** ** The table of part_000 *)

Lemma owned_getSorted_fresh (t : Owned.DataStructure) :
  sized t -> Owned.sorted t = false ->
  exists t' view,
    Owned.getSorted t = Ret (t', view) /\
    Sorted name_le view /\
    view ≡ₚ entries t /\
    entries t' = entries t /\
    Owned.sorted t' = true /\
    Owned.getSorted t' = Ret (t', view).
Proof.
  intros Hs Hflag.
  destruct (getSorted_recomputed t Hs Hflag) as (t' & Hg & He & Hsorted & Hperm).
  exists t', (std_sort (entries t)). split; [exact Hg |].
  split; [exact Hsorted |]. split; [exact Hperm |]. split; [exact He |].
  destruct (owned_getSorted_again t t' _ Hs Hflag Hg) as (Hagain & _ & _).
  split; [| exact Hagain].
  unfold Owned.getSorted in Hg. rewrite Hflag in Hg. cbn [negb] in Hg.
  inv_bind Hg. apply sort_fields in Hret as (_ & _ & _ & Hflag').
  apply Ret_inj in Hg. injection Hg as <- _. exact Hflag'.
Qed.

(** X24. In part_000, [getSorted] on a table whose view is not cached
    returns the courses of the table in ascending order of name, each as
    often as the table holds it, and marks the view as cached; a second
    call returns the same view and changes nothing. *)
Theorem X24_owned_getSorted_fresh (t : Owned.DataStructure) :
  sized t -> Owned.sorted t = false ->
  exists t' view,
    Owned.getSorted t = Ret (t', view) /\
    Sorted name_le view /\
    view ≡ₚ entries t /\
    entries t' = entries t /\
    Owned.sorted t' = true /\
    Owned.getSorted t' = Ret (t', view).
Proof. apply owned_getSorted_fresh. Qed.

Lemma X24_owned_getSorted_fresh_witness :
  exists t' view,
    Owned.getSorted owned_one = Ret (t', view) /\
    Sorted name_le view /\
    view ≡ₚ entries owned_one /\
    entries t' = entries owned_one /\
    Owned.sorted t' = true /\
    Owned.getSorted t' = Ret (t', view).
Proof.
  apply (X24_owned_getSorted_fresh owned_one).
  - split; [vm_compute; split; discriminate | reflexivity].
  - reflexivity.
Defined.

(** X25. In part_000, after every insert of any sequence of inserts
    that starts at a table built by either constructor, the size is at
    most 0.75 of the capacity, the capacity is between 16 and 2^44, and
    the vector has exactly as many buckets. *)
Theorem X25_owned_load_factor (t0 t : Owned.DataStructure) :
  Owned.constructed t0 -> inserts_from t0 t ->
  sized t /\ 0 <= Owned.size t /\ 4 * Owned.size t <= 3 * Owned.capacity t.
Proof. intros H0 Hr. apply (owned_load_factor t0 t H0 Hr). Qed.

Lemma X25_owned_load_factor_witness :
  sized owned_one /\ 0 <= Owned.size owned_one /\
  4 * Owned.size owned_one <= 3 * Owned.capacity owned_one.
Proof.
  apply (X25_owned_load_factor owned_new owned_one).
  - left. reflexivity.
  - apply (inserts_step owned_new owned_new (Some (sample_course 0)) owned_one []).
    + apply inserts_start.
    + vm_compute. reflexivity.
Defined.

(** X26. In part_000, the insert of a record whose name is not found
    counts the record, doubles the capacity exactly when the new size
    exceeds 0.75 of the capacity, and the rehash that comes with the
    doubling keeps every course that was in the table after the new node
    was linked. *)
Theorem X26_owned_resize_trigger (t : Owned.DataStructure) (c : Course)
        (t' : Owned.DataStructure) (out : list string) :
  sized t -> load_ok (Owned.size t) (Owned.capacity t) ->
  Owned.get t (getName c) = Ret None -> getName c <> EmptyString ->
  Owned.insert t (Some c) = Ret (t', out) ->
  Owned.size t' = Owned.size t + 1 /\
  entries t' ≡ₚ entries (inserted t c) /\
  (3 * Owned.capacity t < 4 * (Owned.size t + 1) ->
     Owned.capacity t' = 2 * Owned.capacity t) /\
  (4 * (Owned.size t + 1) <= 3 * Owned.capacity t ->
     Owned.capacity t' = Owned.capacity t).
Proof. apply owned_resize_trigger. Qed.

Lemma X26_owned_resize_trigger_witness :
  Owned.size owned_one = Owned.size owned_new + 1 /\
  entries owned_one ≡ₚ entries (inserted owned_new (sample_course 0)) /\
  (3 * Owned.capacity owned_new < 4 * (Owned.size owned_new + 1) ->
     Owned.capacity owned_one = 2 * Owned.capacity owned_new) /\
  (4 * (Owned.size owned_new + 1) <= 3 * Owned.capacity owned_new ->
     Owned.capacity owned_one = Owned.capacity owned_new).
Proof.
  apply (X26_owned_resize_trigger owned_new (sample_course 0) owned_one []).
  - split; [vm_compute; split; discriminate | reflexivity].
  - split; vm_compute; discriminate.
  - vm_compute. reflexivity.
  - discriminate.
  - vm_compute. reflexivity.
Defined.

(** X27. In part_000, on every table reached from [DataStructure()] by
    calls that return, a record with a name that is not empty and not
    found can be inserted, is then found by the lookup of its name, and
    after [remove] of that name the lookup finds nothing. *)
Theorem X27_owned_lookup_after_remove (t : Owned.DataStructure) (c : Course)
        (t1 : Owned.DataStructure) (out : list string) :
  Owned.reachable t ->
  getName c <> EmptyString ->
  Owned.get t (getName c) = Ret None ->
  Owned.insert t (Some c) = Ret (t1, out) ->
  Owned.get t1 (getName c) = Ret (Some c) /\
  exists t2, Owned.remove t1 (getName c) = Ret (t2, []) /\
             Owned.get t2 (getName c) = Ret None.
Proof. apply owned_lookup_after_remove. Qed.

Lemma X27_owned_lookup_after_remove_witness :
  Owned.get owned_one (getName (sample_course 0)) = Ret (Some (sample_course 0)) /\
  exists t2, Owned.remove owned_one (getName (sample_course 0)) = Ret (t2, []) /\
             Owned.get t2 (getName (sample_course 0)) = Ret None.
Proof.
  apply (X27_owned_lookup_after_remove owned_new (sample_course 0) owned_one []).
  - exists owned_new. split; [reflexivity | apply Owned.reach_start].
  - discriminate.
  - vm_compute. reflexivity.
  - vm_compute. reflexivity.
Defined.

(** X28. Where the duplicate rule holds: in part_000 on every table
    reached from [DataStructure()], and on every table reached from
    either constructor with records whose names have bytes below 128
    only, and in ProjectTwoUniversal.cpp on every table in which the
    lookup finds the name, the insert of a record named as a stored
    course prints the duplicate message and leaves the table as it
    was. *)
Theorem X28_duplicate_rejected_in_scope :
  (forall t c e,
      Owned.reachable t -> e ∈ entries t -> getName e = getName c ->
      Owned.insert t (Some c) =
      Ret (t, [String.append "Duplicate course: " (getName c)])) /\
  (forall t0 t c e,
      Owned.constructed t0 -> reachable_with (fun x => plain (getName x)) t0 t ->
      e ∈ entries t -> getName e = getName c ->
      Owned.insert t (Some c) =
      Ret (t, [String.append "Duplicate course: " (getName c)])) /\
  (forall fuel t c e,
      Universal.get fuel t (getName c) = Ret (Some e) ->
      Universal.insert fuel t (Some c) =
      Ret (t, [String.append "Duplicate course: " (getName c)])).
Proof.
  split; [apply owned_duplicate_rejected |].
  split; [apply owned_duplicate_rejected | exact universal_insert_duplicate].
Qed.

Lemma X28_duplicate_rejected_in_scope_witness :
  Owned.insert owned_one (Some (mkCourse (numbered "CSCI" 0) "Another title" [])) =
    Ret (owned_one, ["Duplicate course: CSCI000"]) /\
  Owned.insert owned_one17 (Some (mkCourse (numbered "CSCI" 0) "Another title" [])) =
    Ret (owned_one17, ["Duplicate course: CSCI000"]) /\
  Universal.insert 8 universal_one (Some (mkCourse (numbered "CSCI" 0) "Another title" [])) =
    Ret (universal_one, ["Duplicate course: CSCI000"]).
Proof.
  split; [| split].
  - apply (proj1 X28_duplicate_rejected_in_scope owned_one
             (mkCourse (numbered "CSCI" 0) "Another title" []) (sample_course 0)).
    + exists owned_new. split; [reflexivity |].
      apply (Owned.reach_insert owned_new owned_new (Some (sample_course 0)) owned_one []).
      * apply Owned.reach_start.
      * vm_compute. reflexivity.
    + apply list_elem_of_In. vm_compute. left. reflexivity.
    + reflexivity.
  - apply (proj1 (proj2 X28_duplicate_rejected_in_scope) owned_new17 owned_one17
             (mkCourse (numbered "CSCI" 0) "Another title" []) (sample_course 0)).
    + right. exists 17. split; [lia | reflexivity].
    + apply (with_insert _ owned_new17 owned_new17 (Some (sample_course 0)) owned_one17 []).
      * apply with_start.
      * intros x [= <-]. vm_compute. repeat split; reflexivity.
      * vm_compute. reflexivity.
    + apply list_elem_of_In. vm_compute. left. reflexivity.
    + reflexivity.
  - apply (proj2 (proj2 X28_duplicate_rejected_in_scope) 8%nat universal_one
             (mkCourse (numbered "CSCI" 0) "Another title" []) (sample_course 0)).
    vm_compute. reflexivity.
Defined.

Lemma find_course_named (name : string) (chain : list Course) (x : Course) :
  Owned.find_course name chain = Some x -> getName x = name.
Proof.
  induction chain as [|y chain IH]; cbn [Owned.find_course]; [discriminate |].
  destruct (String.eqb_spec (getName y) name) as [Hy|_]; [| exact IH].
  intros [= <-]. exact Hy.
Qed.

Lemma owned_insert_evicts (t : Owned.DataStructure) (c x : Course) :
  sized t ->
  getName c <> EmptyString -> getName x <> EmptyString ->
  Owned.get t (getName c) = Ret None ->
  Owned.get t (getName x) = Ret (Some x) ->
  hash (Owned.capacity t) (getName x) = hash (Owned.capacity t) (getName c) ->
  load_exceeds (wrap64 (Owned.size t + 1)) (Owned.capacity t) = false ->
  exists t',
    Owned.insert t (Some c) = Ret (t', []) /\
    Owned.size t' = wrap64 (Owned.size t + 1) /\
    Owned.get t' (getName c) = Ret (Some c) /\
    Owned.get t' (getName x) = Ret None.
Proof.
  intros Hs Hnc Hnx Hgc Hgx Hhash Hload.
  rewrite get_sized in Hgc, Hgx by exact Hs.
  rewrite name_not_empty in Hgc, Hgx by assumption.
  apply Ret_inj in Hgc. apply Ret_inj in Hgx.
  assert (Hxc : getName x <> getName c).
  { intros Heq. rewrite Heq in Hgx. congruence. }
  rewrite insert_new by assumption. rewrite Hload. cbn [bind].
  eexists. split; [reflexivity |]. split; [reflexivity |].
  assert (Hs' : sized (Owned.set_sorted (inserted t c) false)).
  { destruct (inserted_sized t c Hs) as [? ?]. split; assumption. }
  pose proof (sized_index t (getName c) Hs) as Hi.
  split.
  - rewrite get_sized by exact Hs'. rewrite name_not_empty by exact Hnc.
    cbn [Owned.buckets Owned.capacity Owned.set_sorted inserted].
    rewrite list_lookup_total_insert_eq by exact Hi.
    cbn [Owned.find_course]. rewrite String.eqb_refl. reflexivity.
  - rewrite get_sized by exact Hs'. rewrite name_not_empty by exact Hnx.
    cbn [Owned.buckets Owned.capacity Owned.set_sorted inserted].
    rewrite Hhash, list_lookup_total_insert_eq by exact Hi.
    cbn [Owned.find_course].
    destruct (String.eqb_spec (getName c) (getName x)); [congruence | reflexivity].
Qed.

(** X29. In part_000, the insert of a record whose name is not found
    (without a resize) destroys the stored course that shares its bucket:
    the new record is found afterwards, the other one no longer is, and
    the size has grown by one all the same.  The duplicate check walks
    through a reference to the bucket and so empties the chain before
    the new node is linked. *)
Theorem X29_owned_insert_evicts (t : Owned.DataStructure) (c x : Course) :
  sized t ->
  getName c <> EmptyString -> getName x <> EmptyString ->
  Owned.get t (getName c) = Ret None ->
  Owned.get t (getName x) = Ret (Some x) ->
  hash (Owned.capacity t) (getName x) = hash (Owned.capacity t) (getName c) ->
  load_exceeds (wrap64 (Owned.size t + 1)) (Owned.capacity t) = false ->
  exists t',
    Owned.insert t (Some c) = Ret (t', []) /\
    Owned.size t' = wrap64 (Owned.size t + 1) /\
    Owned.get t' (getName c) = Ret (Some c) /\
    Owned.get t' (getName x) = Ret None.
Proof. apply owned_insert_evicts. Qed.

Lemma X29_owned_insert_evicts_witness :
  exists t',
    Owned.insert owned_one (Some (sample_course 121)) = Ret (t', []) /\
    Owned.size t' = wrap64 (Owned.size owned_one + 1) /\
    Owned.get t' (getName (sample_course 121)) = Ret (Some (sample_course 121)) /\
    Owned.get t' (getName (sample_course 0)) = Ret None.
Proof.
  apply (X29_owned_insert_evicts owned_one (sample_course 121) (sample_course 0)).
  - split; [vm_compute; split; discriminate | reflexivity].
  - discriminate.
  - discriminate.
  - vm_compute. reflexivity.
  - vm_compute. reflexivity.
  - vm_compute. reflexivity.
  - vm_compute. reflexivity.
Defined.
